(** * mediocre-go-lib: the mcfg population engine, its CLI source, and the
      mctx mutable node store.

    The development embeds

    - [mcfg/mcfg.go]: [sortParams], [collectParams], [paramHash], [populate]
      and [Populate];
    - [mcfg/cli.go]: [SourceCLI.Parse] and [SourceCLI.cliParams], together
      with the older revision of the same file that is kept in the tree
      ([Parse] over a [*Cfg] and [cliParamVals]);
    - the mutable value store of package [mctx], of which only the test file
      [mctx/ctx_test.go] is available.

    Go maps are [gmap]s; the order in which a [range] statement walks a map is
    not fixed by the language, so every [range] over a map takes its order
    from an explicit [RangeOrder] argument.  Pointers to configuration targets
    are locations of a [Store]. *)

From Stdlib Require Import ZArith Ascii String List Sorting.Permutation Sorting.Sorted.
From stdpp Require Import gmap strings list fin_maps functions.
From stdpp Require sorting pretty.

Open Scope string_scope.

(** ** Errors (package merr) and Go values *)

(** An error value: its message and the key/value annotations attached to it
    ([merr.New(msg, ctx)] with an annotated context, [merr.WithValue]). *)
Record error := mkError { errMsg : string; errAttrs : list (string * string) }.

(** The values a configuration target can hold. *)
Inductive GoValue :=
| VInt (n : Z)
| VBool (b : bool)
| VString (s : string)
| VJSON (raw : string).

(** [json.RawMessage] is a byte string. *)
Abbreviation RawMessage := string.

(** A pointer to a configuration target. *)
Abbreviation ptr := nat.

(** The memory the targets live in. *)
Abbreviation Store := (nat -> GoValue).

(** ** Param and ParamValue *)

(** [Path] stands for [mctx.Path(p.Context)] in mcfg.go and for the field
    [p.Path] in cli.go. *)
Record Param := mkParam {
  Path : list string;
  Name : string;
  Usage : string;
  Required : bool;
  IsBool : bool;
  IsString : bool;
  Into : ptr
}.

(** [ParamValue] embeds a [Param] ([pv.Path], [pv.Name] and [pv.IsBool] are
    promoted fields) and carries the raw value. *)
Record ParamValue := mkParamValue {
  pvParam : Param;
  Value : RawMessage
}.

Definition emptyParam : Param := mkParam [] "" "" false false false 0.

(** The zero value [ParamValue{}]. *)
Definition emptyParamValue : ParamValue := mkParamValue emptyParam "".

(** ** Library and helper functions that are used but not defined in the
       sources at hand *)

Class Env := {
  (** [hex.EncodeToString(md5(s))] *)
  md5_hex : string -> string;
  (** the [%q] verb of package fmt on a string *)
  fmt_q : string -> string;
  (** [paramFullName(path, name)] of param.go *)
  paramFullName : list string -> string -> string;
  (** [Param.fuzzyParse] of param.go *)
  fuzzyParse : Param -> string -> RawMessage;
  (** [json.Unmarshal(raw, ptr)] seen from the pointee: the old value of the
      target, the new one, and the error if any.  A failing call may have
      written part of the target already. *)
  json_Unmarshal : RawMessage -> GoValue -> GoValue * option error
}.

(** ** Iteration order of [range] over a map *)

Record RangeOrder := mkRangeOrder {
  range : forall A : Type, gmap string A -> list (string * A);
  range_perm : forall (A : Type) (m : gmap string A), range A m ≡ₚ map_to_list m
}.
Arguments range _ {A} _.

Definition ascending : RangeOrder :=
  mkRangeOrder (fun A m => map_to_list m) (fun A m => reflexivity _).

Definition descending : RangeOrder :=
  mkRangeOrder (fun A m => reverse (map_to_list m))
               (fun A m => reverse_Permutation _).

(** ** mcfg.go: sortParams *)

(** Go compares strings bytewise. *)
Definition str_lt (a b : string) : bool :=
  match String.compare a b with Lt => true | _ => false end.

(** The loop of the [less] closure: one iteration per shared path segment. *)
Fixpoint pathLess (aPath bPath : list string) (aName bName : string) : bool :=
  match aPath, bPath with
  | [], [] => str_lt aName bName
  | [], _ :: _ => false
  | _ :: _, [] => true
  | x :: aPath', y :: bPath' =>
      if negb (String.eqb x y) then str_lt x y
      else pathLess aPath' bPath' aName bName
  end.

Definition paramLess (a b : Param) : bool :=
  pathLess (Path a) (Path b) (Name a) (Name b).

(** [sort.Slice]: for the short slices of a configuration it is an insertion
    sort; the properties proved below only use that the result is a
    permutation in which no later element is [less] than an earlier one. *)
Fixpoint insertBy {A} (less : A -> A -> bool) (x : A) (l : list A) : list A :=
  match l with
  | [] => [x]
  | y :: l' => if less x y then x :: l else y :: insertBy less x l'
  end.

Definition sort_Slice {A} (less : A -> A -> bool) (l : list A) : list A :=
  foldl (fun acc x => insertBy less x acc) [] l.

Definition sortParams (params : list Param) : list Param :=
  sort_Slice paramLess params.

(** ** mcfg.go: collectParams *)

(** A context with the Params declared on it ([getLocalParams]) and its
    children ([mctx.Children], in the order the [range] yields them). *)
#[warnings="-register-all"]
Inductive Context := mkContext (localParams : list Param) (children : list Context).

Fixpoint visit (ctx : Context) : list Param :=
  match ctx with
  | mkContext localParams children => localParams ++ flat_map visit children
  end.

Definition collectParams (ctx : Context) : list Param :=
  sortParams (visit ctx).

(** ** mcfg.go: paramHash *)

Definition newline : string := String (ascii_of_nat 10) "".

Definition paramHash `{Env} (path : list string) (name : string) : string :=
  let written :=
    foldr (fun pathEl acc => "pathEl:" +:+ fmt_q pathEl +:+ newline +:+ acc)
          ("name:" +:+ fmt_q name +:+ newline) path in
  paramFullName path name +:+ "/" +:+ md5_hex written.

(** ** mcfg.go: Source and populate *)

(** What a call of [Source.Parse] can do: return values, return an error, or
    end the process (the help page of the CLI source). *)
Inductive SourceResult :=
| Parsed (pvs : list ParamValue)
| ParseFailed (err : error)
| ParseExited (code : Z).

(** The [Source] interface: its one method, [Parse]. *)
Abbreviation Source := (list Param -> SourceResult).

(** [ParamValues(nil)]: the Source that supplies nothing. *)
Definition ParamValues_nil : Source := fun _ => Parsed [].

(** How a call of [populate] ends. *)
Inductive Outcome :=
| Returned (err : option error)
| Panicked (msg : string)
| Exited (code : Z).

(** First loop: map the Params to their hashes; a hash seen twice panics. *)
Fixpoint hashParams `{Env} (params : list Param) (pM : gmap string Param)
  : string + gmap string Param :=
  match params with
  | [] => inr pM
  | p :: params' =>
      let path := Path p in
      let hash := paramHash path (Name p) in
      match pM !! hash with
      | Some _ => inl ("duplicate Param: " +:+ paramFullName path (Name p))
      | None => hashParams params' (<[hash := p]> pM)
      end
  end.

(** Second loop: the ParamValues by hash, the last one taking precedence,
    those with no corresponding Param left out. *)
Definition dedupe `{Env} (pM : gmap string Param) (pvs : list ParamValue)
  : gmap string ParamValue :=
  foldl (fun pvM pv =>
           let hash := paramHash (Path (pvParam pv)) (Name (pvParam pv)) in
           match pM !! hash with
           | None => pvM
           | Some _ => <[hash := pv]> pvM
           end) ∅ pvs.

Definition errRequired `{Env} (p : Param) : error :=
  mkError "required parameter is not set"
          [("param", paramFullName (Path p) (Name p))].

(** Third loop: the required Params, in the order the [range] yields them. *)
Fixpoint checkRequired `{Env} (entries : list (string * Param))
    (pvM : gmap string ParamValue) : option error :=
  match entries with
  | [] => None
  | (hash, p) :: entries' =>
      if negb (Required p) then checkRequired entries' pvM
      else match pvM !! hash with
           | None => Some (errRequired p)
           | Some _ => checkRequired entries' pvM
           end
  end.

(** [json.Unmarshal(v, nil)] *)
Definition errUnmarshalNil : error := mkError "json: Unmarshal(nil)" [].

(** Fourth loop: the writes.  [p := pM[hash]] is the zero Param, whose
    [Into] is nil, when the hash is absent. *)
Fixpoint unmarshalAll `{Env} (entries : list (string * ParamValue))
    (pM : gmap string Param) (store : Store) : option error * Store :=
  match entries with
  | [] => (None, store)
  | (hash, pv) :: entries' =>
      match pM !! hash with
      | None => (Some errUnmarshalNil, store)
      | Some p =>
          let '(v, err) := json_Unmarshal (Value pv) (store (Into p)) in
          let store' := <[Into p := v]> store in
          match err with
          | Some e => (Some e, store')
          | None => unmarshalAll entries' pM store'
          end
      end
  end.

(** [if src == nil { src = ParamValues(nil) }] *)
Definition orNil (src : option Source) : Source :=
  match src with None => ParamValues_nil | Some s => s end.

Definition populate `{Env} (R1 R2 : RangeOrder) (params : list Param)
    (src : option Source) (store : Store) : Outcome * Store :=
  let src := orNil src in
  match hashParams params ∅ with
  | inl msg => (Panicked msg, store)
  | inr pM =>
      match src params with
      | ParseExited code => (Exited code, store)
      | ParseFailed err => (Returned (Some err), store)
      | Parsed pvs =>
          let pvM := dedupe pM pvs in
          match checkRequired (range R1 pM) pvM with
          | Some err => (Returned (Some err), store)
          | None =>
              let '(err, store') := unmarshalAll (range R2 pvM) pM store in
              (Returned err, store')
          end
      end
  end.

Definition Populate `{Env} (R1 R2 : RangeOrder) (ctx : Context)
    (src : option Source) (store : Store) : Outcome * Store :=
  populate R1 R2 (collectParams ctx) src store.

(** ** cli.go: SourceCLI *)

Record SourceCLI := mkSourceCLI {
  Args : option (list string); (* nil: os.Args[1:] is used *)
  DisableHelpPage : bool
}.

Definition cliKeyJoin : string := "-".
Definition cliKeyPrefix : string := "--".
Definition cliValSep : string := "=".
Definition cliHelpArg : string := "-h".

(** [strings.Join] *)
Fixpoint strings_Join (elems : list string) (sep : string) : string :=
  match elems with
  | [] => ""
  | [e] => e
  | e :: elems' => e +:+ sep +:+ strings_Join elems' sep
  end.

(** [strings.HasPrefix(s, prefix)] *)
Definition strings_HasPrefix (s prefix : string) : bool := String.prefix prefix s.

(** [s[n:]] *)
Fixpoint sliceFrom (n : nat) (s : string) : string :=
  match n, s with
  | O, _ => s
  | S n', String _ s' => sliceFrom n' s'
  | S _, EmptyString => EmptyString
  end.

(** [strings.TrimPrefix(s, prefix)] *)
Definition strings_TrimPrefix (s prefix : string) : string :=
  if strings_HasPrefix s prefix then sliceFrom (String.length prefix) s else s.

(** The flag of one Param, as [cliParams] computes it. *)
Definition cliKey (p : Param) : string :=
  let key := strings_Join (Path p ++ [Name p]) cliKeyJoin in
  cliKeyPrefix +:+ key.

Definition cliParams (params : list Param) : gmap string Param :=
  foldl (fun m p => <[cliKey p := p]> m) ∅ params.

(** The local variables of [Parse] that live across iterations. *)
Record ParseState := mkParseState {
  key : string;
  pv : ParamValue;
  pvOk : bool;
  pvStrVal : string;
  pvStrValOk : bool
}.

Definition initParseState : ParseState :=
  mkParseState "" emptyParamValue false "" false.

Definition setParam (v : ParamValue) (p : Param) : ParamValue :=
  mkParamValue p (Value v).

(** [for key, pv.Param = range pM { ... }]: every iteration assigns [key]
    and [pv.Param] before it tests the argument. *)
Fixpoint matchArg (arg : string) (entries : list (string * Param))
    (st : ParseState) : ParseState :=
  match entries with
  | [] => st
  | (k, p) :: entries' =>
      let st := mkParseState k (setParam (pv st) p) (pvOk st)
                             (pvStrVal st) (pvStrValOk st) in
      if String.eqb arg k then
        mkParseState (key st) (pv st) true (pvStrVal st) (pvStrValOk st)
      else
        let prefix := k +:+ cliValSep in
        if negb (strings_HasPrefix arg prefix) then matchArg arg entries' st
        else mkParseState (key st) (pv st) true
                          (strings_TrimPrefix arg prefix) true
  end.

Definition errUnexpected (arg : string) : error :=
  mkError "unexpected config parameter" [("param", arg)].

Definition errExpectedValue (key : string) : error :=
  mkError "param expected a value" [("param", key)].

(** What one iteration of the loop over the arguments leads to. *)
Inductive Step :=
| Next (st : ParseState) (pvs : list ParamValue)
| Fail (err : error)
| Exit (code : Z).

(** First half of an iteration of [for _, arg := range args]: the argument
    is the awaited value, the help flag, or is looked up among the keys.
    The help page is written to standard output before the process ends;
    its text is not part of the model. *)
Definition scanArg (R : RangeOrder) (cli : SourceCLI)
    (pM : gmap string Param) (st : ParseState) (pvs : list ParamValue)
    (arg : string) : Step :=
  if pvOk st then
    Next (mkParseState (key st) (pv st) (pvOk st) arg true) pvs
  else if negb (DisableHelpPage cli) && String.eqb arg cliHelpArg then
    Exit 1
  else
    let st := matchArg arg (range R pM) st in
    if negb (pvOk st) then Fail (errUnexpected arg) else Next st pvs.

(** Second half: a bool without a value is true, anything else without a
    value waits for the next argument, and a filled-in value is appended. *)
Definition fillArg `{Env} (st : ParseState) (pvs : list ParamValue) : Step :=
  let filled :=
    if IsBool (pvParam (pv st)) && negb (pvStrValOk st) then
      Some (mkParseState (key st) (pv st) (pvOk st) "true" true)
    else if negb (pvStrValOk st) then None
    else Some st in
  match filled with
  | None => Next st pvs
  | Some st =>
      let v := mkParamValue (pvParam (pv st))
                            (fuzzyParse (pvParam (pv st)) (pvStrVal st)) in
      Next initParseState (pvs ++ [v])
  end.

Definition parseArg `{Env} (R : RangeOrder) (cli : SourceCLI)
    (pM : gmap string Param) (st : ParseState) (pvs : list ParamValue)
    (arg : string) : Step :=
  match scanArg R cli pM st pvs arg with
  | Next st pvs => fillArg st pvs
  | other => other
  end.

(** The loop over the arguments; the [i]-th [range] over [pM] walks it in
    the order [Rs i]. *)
Fixpoint parseArgs `{Env} (Rs : nat -> RangeOrder) (cli : SourceCLI)
    (pM : gmap string Param) (i : nat) (st : ParseState)
    (pvs : list ParamValue) (args : list string) : Step :=
  match args with
  | [] => Next st pvs
  | arg :: args' =>
      match parseArg (Rs i) cli pM st pvs arg with
      | Next st' pvs' => parseArgs Rs cli pM (S i) st' pvs' args'
      | other => other
      end
  end.

(** [SourceCLI.Parse]; [osArgs] is [os.Args[1:]]. *)
Definition Parse `{Env} (Rs : nat -> RangeOrder) (osArgs : list string)
    (cli : SourceCLI) (params : list Param) : SourceResult :=
  let args := match Args cli with None => osArgs | Some a => a end in
  let pM := cliParams params in
  match parseArgs Rs cli pM 0 initParseState [] args with
  | Next st pvs =>
      if pvOk st && negb (pvStrValOk st)
      then ParseFailed (errExpectedValue (key st))
      else Parsed pvs
  | Fail err => ParseFailed err
  | Exit code => ParseExited code
  end.

(** ** The older revision of cli.go ([Parse] over a [*Cfg]) *)

Module Legacy.

(** In this revision the path belongs to the [Cfg] node and is copied into
    the ParamValue; the [Path] field of the embedded [Param] is not read. *)
Record ParamValue := mkParamValue {
  pvParam : Param;
  pvPath : list string;
  pvValue : RawMessage
}.

Definition emptyParamValue : ParamValue := mkParamValue emptyParam [] "".

#[warnings="-register-all"]
Inductive Cfg := mkCfg (path : list string) (params : list Param) (children : list Cfg).

(** The key of one Param of a [Cfg] with path [path]. *)
Definition cliKey (path : list string) (name : string) : string :=
  let key := cliKeyPrefix in
  let key := if (0 <? length path)%nat
             then key +:+ (strings_Join path cliKeyJoin +:+ cliKeyJoin)
             else key in
  key +:+ name.

Definition errSameArg `{Env} (key : string) : error :=
  mkError ("multiple params use the same CLI arg " +:+ fmt_q key) [].

(** [for key, pv := range childM { ... }] *)
Fixpoint mergeChild `{Env} (entries : list (string * ParamValue))
    (m : gmap string ParamValue) : error + gmap string ParamValue :=
  match entries with
  | [] => inr m
  | (key, pv) :: entries' =>
      match m !! key with
      | Some _ => inl (errSameArg key)
      | None => mergeChild entries' (<[key := pv]> m)
      end
  end.

Fixpoint cliParamVals `{Env} (R : RangeOrder) (cfg : Cfg) : error + gmap string ParamValue :=
  match cfg with
  | mkCfg path params children =>
      let m := foldl (fun m param =>
                        <[cliKey path (Name param) := mkParamValue param path ""]> m)
                     ∅ params in
      (fix overChildren (children : list Cfg) (m : gmap string ParamValue) :=
         match children with
         | [] => inr m
         | child :: children' =>
             match cliParamVals R child with
             | inl err => inl err
             | inr childM =>
                 match mergeChild (range R childM) m with
                 | inl err => inl err
                 | inr m' => overChildren children' m'
                 end
             end
         end) children m
  end.

Record ParseState := mkParseState {
  key : string;
  pv : ParamValue;
  pvOk : bool;
  pvStrVal : string;
  pvStrValOk : bool
}.

Definition initParseState : ParseState :=
  mkParseState "" emptyParamValue false "" false.

(** [for key, pv = range pvM { ... }] *)
Fixpoint matchArg (arg : string) (entries : list (string * ParamValue))
    (st : ParseState) : ParseState :=
  match entries with
  | [] => st
  | (k, v) :: entries' =>
      let st := mkParseState k v (pvOk st) (pvStrVal st) (pvStrValOk st) in
      if String.eqb arg k then
        mkParseState (key st) (pv st) true (pvStrVal st) (pvStrValOk st)
      else
        let prefix := k +:+ cliValSep in
        if negb (strings_HasPrefix arg prefix) then matchArg arg entries' st
        else mkParseState (key st) (pv st) true
                          (strings_TrimPrefix arg prefix) true
  end.

Definition errBoolValue `{Env} (arg : string) : error :=
  mkError ("param " +:+ fmt_q arg +:+ " is a boolean and cannot have a value") [].

Definition errUnexpected `{Env} (arg : string) : error :=
  mkError ("unexpected config parameter " +:+ fmt_q arg) [].

Definition errExpectedValue `{Env} (key : string) : error :=
  mkError ("param " +:+ fmt_q key +:+ " expected a value") [].

Inductive Step :=
| Next (st : ParseState) (pvs : list ParamValue)
| Fail (err : error)
| Exit (code : Z).

Definition withValue (v : ParamValue) (raw : RawMessage) : ParamValue :=
  mkParamValue (pvParam v) (pvPath v) raw.

Definition dquote : string := String (ascii_of_nat 34) "".

Definition startsWithQuote (s : string) : bool :=
  match s with
  | String c _ => Ascii.eqb c (ascii_of_nat 34)
  | EmptyString => false
  end.

Definition parseArg `{Env} (R : RangeOrder) (cli : SourceCLI)
    (pvM : gmap string ParamValue) (st : ParseState) (pvs : list ParamValue)
    (arg : string) : Step :=
  let scanned :=
    if pvOk st then
      Next (mkParseState (key st) (pv st) (pvOk st) arg true) pvs
    else if negb (DisableHelpPage cli) && String.eqb arg cliHelpArg then
      Exit 1
    else
      let st := matchArg arg (range R pvM) st in
      if negb (pvOk st) then Fail (errUnexpected arg) else Next st pvs in
  match scanned with
  | Next st pvs =>
      let done v := Next initParseState (pvs ++ [withValue (pv st) v]) in
      if IsBool (pvParam (pv st)) then
        if pvStrValOk st then Fail (errBoolValue arg)
        else done "true"
      else if negb (pvStrValOk st) then Next st pvs
      else if IsString (pvParam (pv st))
              && (String.eqb (pvStrVal st) "" || negb (startsWithQuote (pvStrVal st)))
      then done (dquote +:+ pvStrVal st +:+ dquote)
      else done (pvStrVal st)
  | other => other
  end.

Fixpoint parseArgs `{Env} (Rs : nat -> RangeOrder) (cli : SourceCLI)
    (pvM : gmap string ParamValue) (i : nat) (st : ParseState)
    (pvs : list ParamValue) (args : list string) : Step :=
  match args with
  | [] => Next st pvs
  | arg :: args' =>
      match parseArg (Rs i) cli pvM st pvs arg with
      | Next st' pvs' => parseArgs Rs cli pvM (S i) st' pvs' args'
      | other => other
      end
  end.

Inductive ParseResult :=
| Parsed (pvs : list ParamValue)
| ParseFailed (err : error)
| ParseExited (code : Z).

Definition Parse `{Env} (R : RangeOrder) (Rs : nat -> RangeOrder)
    (osArgs : list string) (cli : SourceCLI) (cfg : Cfg) : ParseResult :=
  let args := match Args cli with None => osArgs | Some a => a end in
  match cliParamVals R cfg with
  | inl err => ParseFailed err
  | inr pvM =>
      match parseArgs Rs cli pvM 0 initParseState [] args with
      | Next st pvs =>
          if pvOk st && negb (pvStrValOk st)
          then ParseFailed (errExpectedValue (key st))
          else Parsed pvs
      | Fail err => ParseFailed err
      | Exit code => ParseExited code
      end
  end.

End Legacy.

(** ** The mutable value store of package mctx *)

Module Mctx.

Local Open Scope Z_scope.

(** The value a node stores: nothing yet, or an [interface{}] holding an
    int (the only values the tests put there). *)
Abbreviation Cell := (option Z).

(** Modelled from the spec: [mctx.GetSetMutableValue]; mctx.go is not among
    the sources, only ctx_test.go is.  Section 4.2 word for word: the
    transform receives the existing stored value, or nil if there is none or
    if [forceReset] is set; its result is stored and returned.  The result
    pairs the returned value with the node's new cell. *)
Definition GetSetMutableValue_spec (cell : Cell) (forceReset : bool) (zero : Z)
    (transform : option Z -> Z) : Z * Cell :=
  let existing := if forceReset then None else cell in
  let v := transform existing in
  (v, Some v).

(** Modelled from the spec: [mctx.GetSetMutableValue] as above wherever the
    flag is unset or nothing is stored.  For the flag set on a node that
    stores a value, the words of Section 4.2 and the assertions of
    [TestMutableValues] (ctx_test.go) disagree, and mctx.go is not among
    the sources: what the function returns and stores there is left open,
    as the argument [whenSet], given the stored value, [zero] and the
    callback. *)
Definition GetSetMutableValue (whenSet : Z -> Z -> (option Z -> Z) -> Z * Cell)
    (cell : Cell) (flag : bool) (zero : Z) (fn : option Z -> Z) : Z * Cell :=
  match flag, cell with
  | true, Some v => whenSet v zero fn
  | _, _ => let v := fn cell in (v, Some v)
  end.

(** Two behaviours for the flag set on a node that stores a value: the
    stored value is returned and stays; and the value 1 is returned and
    stored, whatever was stored. *)
Definition keepStored (v zero : Z) (fn : option Z -> Z) : Z * Cell := (v, Some v).

Definition storeOne (v zero : Z) (fn : option Z -> Z) : Z * Cell := (1, Some 1).

(** Modelled from the spec: [mctx.MutableValue], a read through a transform
    that returns the existing value, or [zero] when there is none. *)
Definition MutableValue (cell : Cell) (zero : Z) : Z :=
  match cell with Some v => v | None => zero end.

(** [fn] of [TestMutableValues] *)
Definition test_fn (v : option Z) : Z :=
  match v with None => 0 | Some n => n + 1 end.

(** [incr] of [TestMutableValuesParallel] *)
Definition incr (v : option Z) : Z :=
  match v with None => 1 | Some n => n + 1 end.

(** [TestMutableValues] of ctx_test.go, run against an implementation of
    [GetSetMutableValue]: the pairs (expected, got) of its seven
    assertions.  [ctx] and [ctx1] are two nodes, each with its own cell. *)
Definition TestMutableValues
    (impl : Cell -> bool -> Z -> (option Z -> Z) -> Z * Cell) : list (Z * Z) :=
  let ctx : Cell := None in
  let '(r1, ctx) := impl ctx false 0 test_fn in
  let '(r2, ctx) := impl ctx false 0 test_fn in
  let '(r3, ctx) := impl ctx true 0 test_fn in
  let r4 := MutableValue ctx 0 in
  let ctx1 : Cell := None in
  let '(r5, ctx1) := impl ctx1 true 0 test_fn in
  let '(r6, ctx1) := impl ctx1 false 0 test_fn in
  let '(r7, ctx1) := impl ctx1 true 0 test_fn in
  [(0, r1); (1, r2); (1, r3); (1, r4); (0, r5); (1, r6); (1, r7)].

Definition passes (assertions : list (Z * Z)) : bool :=
  forallb (fun '(expected, got) => Z.eqb expected got) assertions.

(** *** Concurrent callers

    Each worker calls [GetSetMutableValue(ctx, false, 0, incr)] a number of
    times.  A call is four steps: take the node's lock, read the stored
    value, store the callback's result, release the lock.  The scheduler
    picks which worker moves next; a worker waiting for the lock does not
    move. *)

Inductive PC :=
| Idle                      (* between two calls *)
| Locked                    (* holds the lock *)
| Loaded (cur : option Z)   (* has read the stored value *)
| Stored.                   (* has stored the result *)

Record Worker := mkWorker { remaining : nat; pc : PC }.

Record System := mkSystem {
  mutVal : Cell;
  lockHeld : bool;
  workers : list Worker
}.

(** Modelled from the spec: the body of [mctx.GetSetMutableValue] (mctx.go is
    not among the sources) as Section 4.2 gives it, "under the node's lock":
    one step of worker [i]. *)
Definition step (i : nat) (s : System) : System :=
  match workers s !! i with
  | None => s
  | Some w =>
      match pc w with
      | Idle =>
          match remaining w, lockHeld s with
          | S _, false =>
              mkSystem (mutVal s) true (<[i := mkWorker (remaining w) Locked]> (workers s))
          | _, _ => s
          end
      | Locked =>
          mkSystem (mutVal s) (lockHeld s)
                   (<[i := mkWorker (remaining w) (Loaded (mutVal s))]> (workers s))
      | Loaded cur =>
          mkSystem (snd (GetSetMutableValue_spec cur false 0 incr)) (lockHeld s)
                   (<[i := mkWorker (remaining w) Stored]> (workers s))
      | Stored =>
          mkSystem (mutVal s) false
                   (<[i := mkWorker (Nat.pred (remaining w)) Idle]> (workers s))
      end
  end.

Definition run (schedule : list nat) (s : System) : System :=
  foldl (fun s i => step i s) s schedule.

(** [N] workers with [K] calls each, the node empty and unlocked. *)
Definition start (N K : nat) : System :=
  mkSystem None false (replicate N (mkWorker K Idle)).

Definition finished (s : System) : bool :=
  forallb (fun w => match pc w, remaining w with Idle, O => true | _, _ => false end)
          (workers s).

(** The same four steps without the lock, for comparison. *)
Definition step_unlocked (i : nat) (s : System) : System :=
  match workers s !! i with
  | None => s
  | Some w =>
      match pc w with
      | Idle =>
          match remaining w with
          | S _ => mkSystem (mutVal s) (lockHeld s)
                            (<[i := mkWorker (remaining w) Locked]> (workers s))
          | O => s
          end
      | _ => step i s
      end
  end.

Definition run_unlocked (schedule : list nat) (s : System) : System :=
  foldl (fun s i => step_unlocked i s) s schedule.

(** *** The invariant of the locked store *)

Definition sumZ {A} (f : A -> Z) (l : list A) : Z :=
  foldr (fun x acc => f x + acc) 0 l.

(** The calls a worker has still to store: those not begun, and the one in
    progress unless its result is stored already. *)
Definition owed (w : Worker) : Z :=
  Z.of_nat (remaining w) - match pc w with Stored => 1 | _ => 0 end.

(** The steps a worker has still to take. *)
Definition effort (w : Worker) : Z :=
  4 * Z.of_nat (remaining w)
  - match pc w with Idle => 0 | Locked => 1 | Loaded _ => 2 | Stored => 3 end.

(** Nobody holds the lock and every worker is between two calls. *)
Definition quiet (s : System) : Prop :=
  lockHeld s = false
  /\ forall j w, workers s !! j = Some w -> pc w = Idle.

(** Worker [i] holds the lock and is inside a call; what it has read is
    still what is stored; everybody else is between two calls. *)
Definition held (s : System) (i : nat) (w : Worker) : Prop :=
  lockHeld s = true
  /\ workers s !! i = Some w
  /\ pc w <> Idle
  /\ (1 <= remaining w)%nat
  /\ (forall cur, pc w = Loaded cur -> cur = mutVal s)
  /\ forall j w', j <> i -> workers s !! j = Some w' -> pc w' = Idle.

Definition Inv (total : Z) (s : System) : Prop :=
  MutableValue (mutVal s) 0 + sumZ owed (workers s) = total
  /\ (quiet s \/ exists i w, held s i w).

End Mctx.

(** ** A concrete environment and sample data, to run the definitions *)

(** [true] when [c] occurs in [s]. *)
Fixpoint containsChar (c : ascii) (s : string) : bool :=
  match s with
  | EmptyString => false
  | String d s' => Ascii.eqb c d || containsChar c s'
  end.

(** The character of [cliValSep]. *)
Definition eqChar : ascii := ascii_of_nat 61.

Definition digitVal (c : ascii) : option Z :=
  let n := Z.of_nat (nat_of_ascii c) in
  if (48 <=? n)%Z && (n <=? 57)%Z then Some (n - 48)%Z else None.

Fixpoint parseDigits (s : string) (acc : Z) : option Z :=
  match s with
  | EmptyString => Some acc
  | String c s' =>
      match digitVal c with
      | Some d => parseDigits s' (10 * acc + d)%Z
      | None => None
      end
  end.

Definition parseInt (s : string) : option Z :=
  match s with
  | EmptyString => None
  | String c s' =>
      if Ascii.eqb c (ascii_of_nat 45)
      then match s' with
           | EmptyString => None
           | _ => option_map Z.opp (parseDigits s' 0)
           end
      else parseDigits s 0
  end.

(** The text between the quotes of a JSON string without escapes. *)
Fixpoint untilQuote (s : string) : option string :=
  match s with
  | EmptyString => None
  | String c s' =>
      if Ascii.eqb c (ascii_of_nat 34)
      then match s' with EmptyString => Some EmptyString | _ => None end
      else option_map (String c) (untilQuote s')
  end.

Definition errSyntax : error := mkError "json: cannot unmarshal" [].

(** A decoder for the JSON texts the examples use: the literals [true] and
    [false] into a bool, decimal integers into an int, escape-free strings
    into a string; a failing call leaves the target as it was. *)
Definition sample_Unmarshal (raw : RawMessage) (old : GoValue) : GoValue * option error :=
  match old with
  | VBool _ =>
      if String.eqb raw "true" then (VBool true, None)
      else if String.eqb raw "false" then (VBool false, None)
      else (old, Some errSyntax)
  | VInt _ =>
      match parseInt raw with
      | Some n => (VInt n, None)
      | None => (old, Some errSyntax)
      end
  | VString _ =>
      match raw with
      | String c s' =>
          if Ascii.eqb c (ascii_of_nat 34)
          then match untilQuote s' with
               | Some s => (VString s, None)
               | None => (old, Some errSyntax)
               end
          else (old, Some errSyntax)
      | EmptyString => (old, Some errSyntax)
      end
  | VJSON _ => (VJSON raw, None)
  end.

(** A permissive text-to-JSON coercion in the manner of [Param.fuzzyParse]:
    bools from the usual spellings, strings quoted when they are not. *)
Definition sample_fuzzyParse (p : Param) (v : string) : RawMessage :=
  if IsBool p then
    if String.eqb v "" || String.eqb v "0" || String.eqb v "false"
    then "false" else "true"
  else if IsString p && (String.eqb v "" || negb (Legacy.startsWithQuote v))
  then Legacy.dquote +:+ v +:+ Legacy.dquote
  else v.

(** The environment of the examples: the digest is the identity, [%q] puts
    its argument between quotes, the full name is the path and the name
    joined by slashes. *)
Definition sampleEnv : Env := {|
  md5_hex := fun s => s;
  fmt_q := fun s => Legacy.dquote +:+ s +:+ Legacy.dquote;
  paramFullName := fun path name => "/" +:+ strings_Join (path ++ [name]) "/";
  fuzzyParse := sample_fuzzyParse;
  json_Unmarshal := sample_Unmarshal
|}.

(** The declarations of the CLI tests: [foo:int=5], [bar:bool],
    [baz:string], and the required strings [baz2] and [baz3]. *)
Definition pFoo : Param := mkParam [] "foo" "Test int param" false false false 0.
Definition pBar : Param := mkParam [] "bar" "Test bool param" false true false 1.
Definition pBaz : Param := mkParam [] "baz" "Test string param" false false true 2.
Definition pBaz2 : Param := mkParam [] "baz2" "" true false true 3.
Definition pBaz3 : Param := mkParam [] "baz3" "" true false true 4.

Definition testParams : list Param := [pFoo; pBar; pBaz; pBaz2; pBaz3].

Definition testStore : Store :=
  fun t => match t with
           | 0 => VInt 5
           | 1 => VBool false
           | 2 => VString "baz"
           | _ => VString ""
           end.

(** A Param of a child context, and one of the root with the same target
    as [pFoo]. *)
Definition pChild : Param := mkParam ["a"] "y" "" false false false 5.
Definition pAlias : Param := mkParam [] "alias" "" false false false 0.

(** A bool Param whose name contains the value separator, next to a string
    Param whose flag is the part before the separator. *)
Definition pEqName : Param := mkParam [] "a=b" "" false true false 6.
Definition pA : Param := mkParam [] "a" "" false false true 7.

(** A Source that returns the given values whatever the Params. *)
Definition fixedSource (pvs : list ParamValue) : Source := fun _ => Parsed pvs.

(** [SourceCLI] as a [Source]. *)
Definition cliSource `{Env} (Rs : nat -> RangeOrder) (osArgs : list string)
    (cli : SourceCLI) : Source :=
  fun params => Parse Rs osArgs cli params.

(** A root context declaring [foo] with one child context declaring [y]. *)
Definition sampleCtx : Context := mkContext [pFoo] [mkContext [pChild] []].

(** An argument names the flag [k]: it is the flag, or starts with the flag
    and the value separator. *)
Definition matches (arg k : string) : bool :=
  String.eqb arg k || strings_HasPrefix arg (k +:+ cliValSep).

(** No flag derived from [params] contains the value separator. *)
Definition noSeparator (params : list Param) : Prop :=
  forall p, p ∈ params -> containsChar eqChar (cliKey p) = false.

(** The state the loop over the flags leaves when [arg] names [k]. *)
Definition matched (arg k : string) (p : Param) (st : ParseState) : ParseState :=
  if String.eqb arg k
  then mkParseState k (setParam (pv st) p) true (pvStrVal st) (pvStrValOk st)
  else mkParseState k (setParam (pv st) p) true
                    (strings_TrimPrefix arg (k +:+ cliValSep)) true.

(** The hash of a declared Param and the hash of a ParamValue. *)
Definition hashOf `{Env} (p : Param) : string := paramHash (Path p) (Name p).

Definition pvHash `{Env} (pv : ParamValue) : string := hashOf (pvParam pv).

(** The Source's output mentions [p]: it holds a ParamValue with the hash
    of [p]. *)
Definition supplied `{Env} (pvs : list ParamValue) (p : Param) : Prop :=
  exists pv, pv ∈ pvs /\ pvHash pv = hashOf p.

(** The JSON text of a string without escapes. *)
Definition quoted (s : string) : RawMessage := Legacy.dquote +:+ s +:+ Legacy.dquote.

(** A bool Param and a string Param of a deeper context whose paths and
    names join to the same flag. *)
Definition pDash : Param := mkParam ["a"] "b-c" "" false true false 8.
Definition pDeep : Param := mkParam ["a"; "b"] "c" "" false false true 9.

(** ** cli.go: printHelp *)

(** What [fmtDefaultVal] needs of package reflect and of [fmt.Sprint] for a
    target that is neither an int, a bool nor a string: whether its value
    is the zero value of its type, and how it prints. *)
Class Reflect := {
  isZeroOther : string -> bool;
  fmt_Sprint_other : string -> string
}.

(** The closure [fmtDefaultVal] of [printHelp], on the value the target
    points to: the empty string for the zero value of the type, [%q] for a
    string, [fmt.Sprint] otherwise. *)
Definition fmtDefaultVal `{Env} `{Reflect} (v : GoValue) : string :=
  match v with
  | VInt n => if (n =? 0)%Z then "" else pretty.pretty n
  | VBool b => if b then "true" else ""
  | VString s => if String.eqb s "" then "" else fmt_q s
  | VJSON raw => if isZeroOther raw then "" else fmt_Sprint_other raw
  end.

(** The [less] closure of [printHelp] over the entries [pEntry{arg, Param}]. *)
Definition helpLess (a b : string * Param) : bool :=
  if negb (Bool.eqb (Required a.2) (Required b.2)) then Required a.2
  else str_lt a.1 b.1.

(** [pA] of [printHelp]: the entries of the map, sorted. *)
Definition helpEntries (R : RangeOrder) (pM : gmap string Param)
  : list (string * Param) :=
  sort_Slice helpLess (range R pM).

Definition tab : string := String (ascii_of_nat 9) "".

(** What the body of the last loop of [printHelp] writes for one entry. *)
Definition helpEntry `{Env} `{Reflect} (store : Store) (e : string * Param) : string :=
  let p := e.2 in
  newline +:+ e.1
  +:+ (if IsBool p then " (Flag)"
       else if Required p then " (Required)"
       else let defVal := fmtDefaultVal (store (Into p)) in
            if negb (String.eqb defVal "") then " (Default: " +:+ defVal +:+ ")"
            else "")
  +:+ newline
  +:+ (if negb (String.eqb (Usage p) "") then tab +:+ Usage p +:+ newline else "").

(** [SourceCLI.printHelp]: what it writes to [w]. *)
Definition printHelp `{Env} `{Reflect} (R : RangeOrder) (pM : gmap string Param)
    (store : Store) : string :=
  foldr (fun e acc => helpEntry store e +:+ acc) newline (helpEntries R pM).

(** A Param is declared on a context or on one of its descendants. *)
Inductive declaredIn : Context -> Param -> Prop :=
| declared_here p localParams children :
    p ∈ localParams -> declaredIn (mkContext localParams children) p
| declared_below p localParams children child :
    child ∈ children -> declaredIn child p ->
    declaredIn (mkContext localParams children) p.

(** An instance of [Reflect] for the examples: no other targets. *)
Definition sampleReflect : Reflect := {|
  isZeroOther := fun raw => String.eqb raw "";
  fmt_Sprint_other := fun raw => raw
|}.

(** A Param of a second child context, and a root with both children. *)
Definition pOther : Param := mkParam ["b"] "z" "" false false true 10.

Definition twoChildren : list Context :=
  [mkContext [pChild] []; mkContext [pOther] []].

(** The state of [Parse] after the bare flag [k] of the Param [p], which is
    not a bool: the next argument is its value. *)
Definition awaiting (k : string) (p : Param) : ParseState :=
  mkParseState k (mkParamValue p "") true "" false.

(** The states [Parse] is in between two arguments. *)
Definition betweenArgs (pM : gmap string Param) (st : ParseState) : Prop :=
  st = initParseState
  \/ exists k p, pM !! k = Some p /\ IsBool p = false /\ st = awaiting k p.

(** A result with [pvs0] put before the values parsed. *)
Definition prepend (pvs0 : list ParamValue) (s : Step) : Step :=
  match s with
  | Next st pvs => Next st (pvs0 ++ pvs)
  | other => other
  end.

(** [Parse] of the arguments [args]. *)
Definition parseOf `{Env} (Rs : nat -> RangeOrder) (noHelp : bool)
    (params : list Param) (args : list string) : SourceResult :=
  Parse Rs [] (mkSourceCLI (Some args) noHelp) params.

(** Every entry of the writes has its Param, and no two entries share a
    target. *)
Definition separate (pM : gmap string Param)
    (entries : list (string * ParamValue)) : Prop :=
  NoDup entries.*1
  /\ (forall h pv, (h, pv) ∈ entries -> is_Some (pM !! h))
  /\ forall h1 h2 pv1 pv2 p1 p2,
       (h1, pv1) ∈ entries -> (h2, pv2) ∈ entries ->
       pM !! h1 = Some p1 -> pM !! h2 = Some p2 -> Into p1 = Into p2 -> h1 = h2.

(** A Source of the examples: the CLI source on three arguments. *)
Definition sampleSource : Source :=
  @cliSource sampleEnv (fun _ => ascending) []
    (mkSourceCLI (Some ["--baz2=x"; "--baz3=y"; "--foo=12"]) false).

(** ** Notions about the older revision of cli.go *)

(** The state the loop over the flags leaves when [arg] names [k]. *)
Definition legacyMatched (arg k : string) (v : Legacy.ParamValue)
    (st : Legacy.ParseState) : Legacy.ParseState :=
  if String.eqb arg k
  then Legacy.mkParseState k v true (Legacy.pvStrVal st) (Legacy.pvStrValOk st)
  else Legacy.mkParseState k v true (strings_TrimPrefix arg (k +:+ cliValSep)) true.

(** The JSON text the older [Parse] makes of the text [v] for a Param that
    is not a bool: a string is put between quotes unless it starts with
    one. *)
Definition legacyValue (p : Param) (v : string) : RawMessage :=
  if IsString p && (String.eqb v "" || negb (Legacy.startsWithQuote v))
  then Legacy.dquote +:+ v +:+ Legacy.dquote
  else v.

(** A Param is declared, with the path [path], on a [Cfg] or on one of its
    descendants. *)
Inductive legacyDeclared : Legacy.Cfg -> list string -> Param -> Prop :=
| legacy_here path params children p :
    p ∈ params -> legacyDeclared (Legacy.mkCfg path params children) path p
| legacy_below path params children child path' p :
    child ∈ children -> legacyDeclared child path' p ->
    legacyDeclared (Legacy.mkCfg path params children) path' p.

(** The loop of [cliParamVals] over the children of a [Cfg]. *)
Fixpoint legacyOverChildren `{Env} (R : RangeOrder) (children : list Legacy.Cfg)
    (m : gmap string Legacy.ParamValue) : error + gmap string Legacy.ParamValue :=
  match children with
  | [] => inr m
  | child :: children' =>
      match Legacy.cliParamVals R child with
      | inl err => inl err
      | inr childM =>
          match Legacy.mergeChild (range R childM) m with
          | inl err => inl err
          | inr m' => legacyOverChildren R children' m'
          end
      end
  end.

(** The first loop of [cliParamVals], over the Params of a [Cfg]. *)
Definition legacyOwn (path : list string) (params : list Param)
  : gmap string Legacy.ParamValue :=
  foldl (fun m param =>
           <[Legacy.cliKey path (Name param) := Legacy.mkParamValue param path ""]> m)
        ∅ params.

(** A tree of the older revision: a bool and a string Param on the root, an
    int Param on the child [a]; and its map of flags. *)
Definition legacyTree : Legacy.Cfg :=
  Legacy.mkCfg [] [pBar; pBaz] [Legacy.mkCfg ["a"] [pChild] []].

Definition legacyFlags : gmap string Legacy.ParamValue :=
  match @Legacy.cliParamVals sampleEnv ascending legacyTree with
  | inr m => m
  | inl _ => ∅
  end.

(** * mlog *)

(** [fmt.Sprint] and [strconv.QuoteToGraphic] are library functions. *)
Class Fmt := {
  fmt_Sprint : GoValue -> string;
  strconv_QuoteToGraphic : string -> string
}.

Module Mlog.

(** [Truncate]; [None] is the run-time panic of the slice expression
    [s[:size]] for a negative [size]. *)
Definition Truncate (s : string) (size : Z) : option string :=
  if (Z.of_nat (String.length s) <=? size)%Z then Some s
  else if (size <? 0)%Z then None
  else Some (substring 0 (Z.to_nat size) s +:+ "...").

Record level := mkLevel { s : string; i : N }.

Definition level_String (l : level) : string := s l.
Definition level_Uint (l : level) : N := i l.

Definition DebugLevel : level := mkLevel "DEBUG" 40.
Definition InfoLevel : level := mkLevel "INFO" 30.
Definition WarnLevel : level := mkLevel "WARN" 20.
Definition ErrorLevel : level := mkLevel "ERROR" 10.
Definition FatalLevel : level := mkLevel "FATAL" 0.

(** A map of the type [map[string]interface{}]; [None] is the nil map. *)
Abbreviation kvmap := (option (gmap string GoValue)).

(** The implementations of [KVer] of the package: a [KV] (a map, nil
    included), a [merger], and the [KVerFunc] that [Prefix] returns.  A nil
    [KVer] is [None] of [option KVer]. *)
#[warnings="-register-all"]
Inductive KVer :=
| KV (kv : kvmap)
| merger (base : option KVer) (rest : list (option KVer))
| prefixFunc (kv : option KVer) (prefix : string).

(** [for k, v := range m]; a nil map has no entries. *)
Definition rangeOf (R : RangeOrder) (m : kvmap) : list (string * GoValue) :=
  match m with None => [] | Some m => range R m end.

(** [for k, v := range ... { kvm[k] = v }] *)
Definition setAll (entries : list (string * GoValue)) (kvm : gmap string GoValue)
  : gmap string GoValue :=
  foldl (fun kvm e => <[e.1 := e.2]> kvm) kvm entries.

(** [KV.KV]: a copy of the map. *)
Definition KV_KV (R : RangeOrder) (kv : kvmap) : gmap string GoValue :=
  setAll (rangeOf R kv) ∅.

(** [KV.Set] *)
Definition KV_Set (R : RangeOrder) (kv : kvmap) (k : string) (v : GoValue) : kvmap :=
  let nkv := KV_KV R kv in
  Some (<[k := v]> nkv).

(** The method [KV] of a [KVer], with [readOnlyKVM] and [mergeInto] at
    their calls. *)
Fixpoint KVer_KV (R : RangeOrder) (kver : KVer) : gmap string GoValue :=
  match kver with
  | KV kv => KV_KV R kv
  | merger base rest =>
      let kvm := match base with
                 | None => KV_KV R None
                 | Some kv => KVer_KV R kv
                 end in
      (fix overRest (kvs : list (option KVer)) (kvm : gmap string GoValue) :=
         match kvs with
         | [] => kvm
         | innerKV :: kvs' =>
             let m := match innerKV with
                      | None => None
                      | Some (KV kv) => kv
                      | Some kver => Some (KVer_KV R kver)
                      end in
             overRest kvs' (setAll (rangeOf R m) kvm)
         end) rest kvm
  | prefixFunc kv prefix =>
      let kvm := match kv with
                 | None => None
                 | Some (KV kv) => kv
                 | Some kver => Some (KVer_KV R kver)
                 end in
      foldl (fun newKVM e => <[prefix +:+ e.1 := e.2]> newKVM) ∅ (rangeOf R kvm)
  end.

Definition readOnlyKVM (R : RangeOrder) (kver : option KVer) : kvmap :=
  match kver with
  | None => None
  | Some (KV kv) => kv
  | Some kver => Some (KVer_KV R kver)
  end.

Definition mergeInto (R : RangeOrder) (kv : option KVer) (kvs : list (option KVer))
  : gmap string GoValue :=
  let kv := match kv with None => KV None | Some kv => kv end in
  let kvm := KVer_KV R kv in
  foldl (fun kvm innerKV => setAll (rangeOf R (readOnlyKVM R innerKV)) kvm) kvm kvs.

Definition Merge (kvs : list (option KVer)) : KVer :=
  match kvs with
  | [] => merger None []
  | kv :: rest => merger kv rest
  end.

Definition MergeInto (kv : option KVer) (kvs : list (option KVer)) : KVer :=
  merger kv kvs.

Definition Prefix (kv : option KVer) (prefix : string) : KVer :=
  prefixFunc kv prefix.

Record Message := mkMessage {
  Level : level;
  Description : string;
  msgKVer : option KVer
}.

(** [stringSlice] *)
Definition stringSlice `{Fmt} (R : RangeOrder) (kv : kvmap) : list (string * string) :=
  let slice := foldl (fun (slice : list (string * string)) e =>
                        (slice ++ [(e.1, strconv_QuoteToGraphic (fmt_Sprint e.2))])%list)
                     [] (rangeOf R kv) in
  sort_Slice (fun a b => str_lt a.1 b.1) slice.

(** An [io.Writer] with the state [S]: a call of [Write] changes the state
    and may return an error. *)
Definition Writer (S : Type) : Type := S -> string -> S * option error.

(** The closure [write] of [DefaultFormat]: nothing is written once a
    write has failed. *)
Definition write {S} (w : Writer S) (st : S * option error) (text : string)
  : S * option error :=
  match st.2 with
  | None => w st.1 text
  | Some _ => st
  end.

Definition DefaultFormat `{Fmt} {S} (R : RangeOrder) (w : Writer S) (s0 : S)
    (msg : Message) : S * option error :=
  let st := (s0, None) in
  let st := write w st ("~ " +:+ level_String (Level msg) +:+ " -- "
                        +:+ Description msg) in
  let st :=
    match msgKVer msg with
    | None => st
    | Some kver =>
        let kv := KVer_KV R kver in
        if (0 <? size kv)%nat then
          let st := write w st " --" in
          foldl (fun st kve => write w st (" " +:+ kve.1 +:+ "=" +:+ kve.2))
                st (stringSlice R (Some kv))
        else st
    end in
  write w st newline.

End Mlog.

(** The map of a [KVer] that may be nil: nothing for nil. *)
Definition kvOf (R : RangeOrder) (kver : option Mlog.KVer) : gmap string GoValue :=
  match kver with
  | None => ∅
  | Some kver => Mlog.KVer_KV R kver
  end.

(** The less function of [stringSlice] and of the older [printHelp]: by the
    key; and the pair [stringSlice] makes of an entry. *)
Definition keyLess {A} (a b : string * A) : bool := str_lt a.1 b.1.

Definition quotedEntry `{Fmt} (e : string * GoValue) : string * string :=
  (e.1, strconv_QuoteToGraphic (fmt_Sprint e.2)).

(** The first text [DefaultFormat] writes. *)
Definition logHeader (msg : Mlog.Message) : string :=
  "~ " +:+ Mlog.level_String (Mlog.Level msg) +:+ " -- " +:+ Mlog.Description msg.

(** ** The older revision of cli.go: printHelp *)

(** [pvA] of [printHelp]: the entries of the map, sorted by the flag. *)
Definition legacyHelpEntries (R : RangeOrder) (pvM : gmap string Legacy.ParamValue)
  : list (string * Legacy.ParamValue) :=
  sort_Slice keyLess (range R pvM).

(** What the body of the last loop of [printHelp] writes for one entry. *)
Definition legacyHelpEntry `{Env} `{Reflect} (store : Store)
    (e : string * Legacy.ParamValue) : string :=
  let p := Legacy.pvParam e.2 in
  newline +:+ e.1
  +:+ (if IsBool p then " (Flag)"
       else let defVal := fmtDefaultVal (store (Into p)) in
            if negb (String.eqb defVal "") then " (Default: " +:+ defVal +:+ ")"
            else "")
  +:+ newline
  +:+ (if negb (String.eqb (Usage p) "") then tab +:+ Usage p +:+ newline else "").

(** [SourceCLI.printHelp] of the older revision: what it writes to [w]. *)
Definition legacyPrintHelp `{Env} `{Reflect} (R : RangeOrder)
    (pvM : gmap string Legacy.ParamValue) (store : Store) : string :=
  foldr (fun e acc => legacyHelpEntry store e +:+ acc) newline
        (legacyHelpEntries R pvM).

(** * Properties *)

(** ** Strings *)

Lemma str_lt_true a b : str_lt a b = true <-> ¬ String.le b a.
Proof.
  unfold str_lt, String.le, String.leb.
  rewrite (String.compare_antisym b a).
  destruct (String.compare a b); simpl; intuition (try done).
Qed.

Lemma str_lt_false a b : str_lt a b = false <-> String.le b a.
Proof.
  destruct (str_lt a b) eqn:E.
  - apply str_lt_true in E. split; [done | intros; contradiction].
  - split; [intros _ | done].
    destruct (decide (String.le b a)) as [|N]; [done |].
    apply str_lt_true in N. congruence.
Qed.

Lemma str_lt_irrefl a : str_lt a a = false.
Proof. apply str_lt_false. reflexivity. Qed.

Lemma str_lt_total a b : a ≠ b -> str_lt b a = false -> str_lt a b = true.
Proof.
  intros Hne Hba. apply str_lt_false in Hba. apply str_lt_true.
  intros Hab. apply Hne. by apply (anti_symm String.le).
Qed.

Lemma string_app_cons x (a b : string) : String x a +:+ b = String x (a +:+ b).
Proof. reflexivity. Qed.

Lemma string_app_assoc (a b c : string) : (a +:+ b) +:+ c = a +:+ (b +:+ c).
Proof. induction a as [|x a IH]; [done | by rewrite !string_app_cons, IH]. Qed.

Lemma string_app_nil_r (a : string) : a +:+ "" = a.
Proof. induction a as [|x a IH]; [done | by rewrite string_app_cons, IH]. Qed.

Lemma prefix_app (a s : string) :
  String.prefix a s = true <-> exists r, s = a +:+ r.
Proof.
  revert s. induction a as [|c a IH]; intros s; simpl.
  - destruct s; split; eauto.
  - destruct s as [|d s]; simpl.
    + split; [done | intros [r Hr]; discriminate].
    + destruct (ascii_dec c d) as [->|Hne].
      * rewrite IH. split; intros [r Hr]; exists r.
        -- by rewrite string_app_cons, Hr.
        -- rewrite string_app_cons in Hr. congruence.
      * split; [done | intros [r Hr]]. rewrite string_app_cons in Hr. congruence.
Qed.

Lemma sliceFrom_app (a r : string) : sliceFrom (String.length a) (a +:+ r) = r.
Proof. induction a; [done | by rewrite string_app_cons]. Qed.

Lemma TrimPrefix_app (a r : string) : strings_TrimPrefix (a +:+ r) a = r.
Proof.
  unfold strings_TrimPrefix, strings_HasPrefix.
  replace (String.prefix a (a +:+ r)) with true.
  - apply sliceFrom_app.
  - symmetry. apply prefix_app. eauto.
Qed.

Lemma containsChar_app c (a b : string) :
  containsChar c (a +:+ b) = containsChar c a || containsChar c b.
Proof.
  induction a as [|x a IH]; [done |].
  rewrite string_app_cons. simpl. by rewrite IH, orb_assoc.
Qed.

(** ** sortParams and collectParams *)

Section Sorting.

Context {A : Type} (less : A -> A -> bool).

(** [a] may stand before [b]. *)
Definition inOrder (a b : A) : Prop := less b a = false.

Hypothesis less_asym : forall a b, less a b = true -> less b a = false.
Hypothesis inOrder_trans : forall a b c, inOrder a b -> inOrder b c -> inOrder a c.

Lemma insertBy_perm x l : insertBy less x l ≡ₚ x :: l.
Proof.
  induction l as [|y l IH]; simpl; [done |].
  destruct (less x y); [done |].
  rewrite IH. apply perm_swap.
Qed.

Lemma insertBy_sorted x l :
  StronglySorted inOrder l -> StronglySorted inOrder (insertBy less x l).
Proof.
  induction 1 as [|y l Hs IH Hall]; simpl.
  - constructor; constructor.
  - destruct (less x y) eqn:E.
    + constructor; [by constructor |].
      constructor; [by apply less_asym |].
      eapply Forall_impl; [|exact Hall].
      intros z Hz. eapply inOrder_trans; [|exact Hz]. by apply less_asym.
    + constructor; [exact IH |].
      rewrite insertBy_perm. by constructor.
Qed.

Lemma sort_Slice_acc acc l :
  StronglySorted inOrder acc ->
  StronglySorted inOrder (foldl (fun acc x => insertBy less x acc) acc l)
  /\ foldl (fun acc x => insertBy less x acc) acc l ≡ₚ acc ++ l.
Proof.
  revert acc. induction l as [|x l IH]; intros acc Hacc; simpl.
  - by rewrite app_nil_r.
  - destruct (IH (insertBy less x acc)) as [Hs Hp]; [by apply insertBy_sorted |].
    split; [done |].
    rewrite Hp, insertBy_perm. simpl. apply Permutation_middle.
Qed.

Lemma sort_Slice_sorted l : StronglySorted inOrder (sort_Slice less l).
Proof. apply sort_Slice_acc. constructor. Qed.

Lemma sort_Slice_perm l : sort_Slice less l ≡ₚ l.
Proof. apply (sort_Slice_acc [] l). constructor. Qed.

End Sorting.

Lemma StronglySorted_lookup {A} (R : A -> A -> Prop) (l : list A) i j a b :
  StronglySorted R l -> (i < j)%nat -> l !! i = Some a -> l !! j = Some b -> R a b.
Proof.
  intros Hs. revert i j. induction Hs as [|x l Hs IH Hall]; intros i j Hij Hi Hj.
  - done.
  - destruct j as [|j]; [lia |]. simpl in Hj.
    destruct i as [|i]; simpl in Hi.
    + injection Hi as ->. rewrite Forall_forall in Hall.
      apply Hall. apply list_elem_of_In. eapply list_elem_of_lookup_2; eauto.
    + eapply IH; [|eauto..]. lia.
Qed.

Lemma pathLess_asym a b na nb :
  pathLess a b na nb = true -> pathLess b a nb na = false.
Proof.
  revert b. induction a as [|x a IH]; intros [|y b]; simpl; try done.
  - intros H. apply str_lt_false. apply str_lt_true in H.
    destruct (total String.le na nb); [done | contradiction].
  - destruct (String.eqb_spec x y) as [->|Hne]; simpl.
    + rewrite String.eqb_refl. simpl. apply IH.
    + destruct (String.eqb_spec y x) as [->|_]; [done |]. simpl.
      intros H. apply str_lt_false. apply str_lt_true in H.
      destruct (total String.le x y); [done | contradiction].
Qed.

Lemma pathLess_trans a b c na nb nc :
  pathLess b a nb na = false -> pathLess c b nc nb = false ->
  pathLess c a nc na = false.
Proof.
  revert b c. induction a as [|x a IH]; intros [|y b] [|z c]; simpl; try done.
  - rewrite !str_lt_false. intros. by etrans.
  - destruct (String.eqb_spec y x) as [->|Hyx]; simpl;
      destruct (String.eqb_spec z x) as [->|Hzx]; simpl.
    + apply IH.
    + done.
    + destruct (String.eqb_spec x y) as [->|_]; [done |]. simpl.
      rewrite !str_lt_false. intros Hxy Hyx'. exfalso. apply Hyx.
      by apply (anti_symm String.le).
    + destruct (String.eqb_spec z y) as [->|Hzy]; simpl; [done |].
      rewrite !str_lt_false. intros. by etrans.
Qed.

Lemma pathLess_same p na nb : pathLess p p na nb = str_lt na nb.
Proof. induction p as [|x p IH]; simpl; [done |]. by rewrite String.eqb_refl. Qed.

Lemma pathLess_extends p x r na nb : pathLess (p ++ x :: r) p na nb = true.
Proof. induction p as [|y p IH]; simpl; [done |]. by rewrite String.eqb_refl. Qed.

Lemma pathLess_diverge pre x y ra rb na nb :
  x ≠ y -> pathLess (pre ++ x :: ra) (pre ++ y :: rb) na nb = str_lt x y.
Proof.
  intros Hne. induction pre as [|z pre IH]; simpl.
  - by destruct (String.eqb_spec x y).
  - by rewrite String.eqb_refl.
Qed.

Lemma paramLess_asym a b : paramLess a b = true -> paramLess b a = false.
Proof. apply pathLess_asym. Qed.

Lemma paramLess_trans a b c :
  inOrder paramLess a b -> inOrder paramLess b c -> inOrder paramLess a c.
Proof. unfold inOrder, paramLess. apply pathLess_trans. Qed.

Lemma sortParams_sorted params : StronglySorted (inOrder paramLess) (sortParams params).
Proof. apply sort_Slice_sorted; [apply paramLess_asym | apply paramLess_trans]. Qed.

Lemma sortParams_perm params : sortParams params ≡ₚ params.
Proof. apply sort_Slice_perm; [apply paramLess_asym | apply paramLess_trans]. Qed.

(** Collecting loses and invents nothing. *)
Lemma collectParams_perm ctx : collectParams ctx ≡ₚ visit ctx.
Proof. apply sortParams_perm. Qed.

(** The order of any list of Params that is sorted for [paramLess], which
    is all that is used of [sort.Slice]. *)
Lemma sorted_params_order (l : list Param) i j a b :
  StronglySorted (inOrder paramLess) l ->
  (i < j)%nat -> l !! i = Some a -> l !! j = Some b ->
  (forall (x : string) (r : list string), Path b ≠ (Path a ++ x :: r)%list)
  /\ (forall (pre : list string) (x y : string) (ra rb : list string),
        Path a = (pre ++ x :: ra)%list -> Path b = (pre ++ y :: rb)%list -> x ≠ y ->
        str_lt x y = true)
  /\ (Path a = Path b -> str_lt (Name b) (Name a) = false).
Proof.
  intros Hsorted Hij Ha Hb.
  assert (Hord : paramLess b a = false)
    by (eapply (StronglySorted_lookup (inOrder paramLess)); eauto).
  unfold paramLess in Hord. split; [|split].
  - intros x r Heq. rewrite Heq, pathLess_extends in Hord. done.
  - intros pre x y ra rb Hpa Hpb Hne.
    rewrite Hpa, Hpb, pathLess_diverge in Hord by done.
    by apply str_lt_total.
  - intros Heq. by rewrite Heq, pathLess_same in Hord.
Qed.

(** C7, as the code has it.  Of two entries of the collected list, the
    earlier one never has a path that is a strict prefix of the later one's
    path (an entry of a child context stands before the entries of its
    ancestors); when the two paths differ at some segment, the first
    differing segment of the earlier entry is the smaller one; and when the
    paths are equal the later entry's name is not smaller than the earlier
    one's. *)
Theorem collectParams_order ctx i j a b :
  (i < j)%nat ->
  collectParams ctx !! i = Some a ->
  collectParams ctx !! j = Some b ->
  (forall (x : string) (r : list string), Path b ≠ (Path a ++ x :: r)%list)
  /\ (forall (pre : list string) (x y : string) (ra rb : list string),
        Path a = (pre ++ x :: ra)%list -> Path b = (pre ++ y :: rb)%list -> x ≠ y ->
        str_lt x y = true)
  /\ (Path a = Path b -> str_lt (Name b) (Name a) = false).
Proof. apply sorted_params_order, sortParams_sorted. Qed.

Lemma collectParams_order_witness :
  (forall (x : string) (r : list string), Path pFoo ≠ (Path pChild ++ x :: r)%list)
  /\ (forall (pre : list string) (x y : string) (ra rb : list string),
        Path pChild = (pre ++ x :: ra)%list -> Path pFoo = (pre ++ y :: rb)%list -> x ≠ y ->
        str_lt x y = true)
  /\ (Path pChild = Path pFoo -> str_lt (Name pFoo) (Name pChild) = false).
Proof.
  apply (collectParams_order sampleCtx 0 1 pChild pFoo);
    [lia | reflexivity | reflexivity].
Defined.

(** C7 as claimed fails: [foo] is declared on the root, whose path is a
    strict prefix of the path of the child declaring [y], and yet [y] is the
    first entry of the collected list and [foo] the second. *)
Lemma collectParams_parent_last :
  collectParams sampleCtx !! 0%nat = Some pChild
  /\ collectParams sampleCtx !! 1%nat = Some pFoo
  /\ Path pChild = (Path pFoo ++ ["a"])%list.
Proof. repeat split. Qed.

(** ** cli.go: the flag of a Param *)

Lemma strings_Join_snoc (path : list string) (name sep : string) :
  strings_Join (path ++ [name]) sep =
  match path with
  | [] => name
  | _ => strings_Join path sep +:+ sep +:+ name
  end.
Proof.
  induction path as [|x path IH]; [done |].
  destruct path as [|y path]; [done |].
  change (strings_Join ((x :: y :: path) ++ [name]) sep)
    with (x +:+ sep +:+ strings_Join ((y :: path) ++ [name]) sep).
  rewrite IH.
  change (strings_Join (x :: y :: path) sep)
    with (x +:+ sep +:+ strings_Join (y :: path) sep).
  by rewrite !string_app_assoc.
Qed.

Lemma cliKey_spec (p : Param) :
  cliKey p = "--" +:+ match Path p with
                      | [] => Name p
                      | _ => strings_Join (Path p) "-" +:+ "-" +:+ Name p
                      end.
Proof. unfold cliKey. by rewrite strings_Join_snoc. Qed.

(** Both revisions of the CLI source derive the same flag. *)
Lemma Legacy_cliKey_spec (p : Param) : Legacy.cliKey (Path p) (Name p) = cliKey p.
Proof.
  rewrite cliKey_spec. unfold Legacy.cliKey, cliKeyPrefix, cliKeyJoin.
  destruct (Path p) as [|x path]; simpl; [done |].
  by rewrite !string_app_assoc.
Qed.

Lemma cliParams_acc (params : list Param) (m : gmap string Param) (k : string) :
  foldl (fun m p => <[cliKey p := p]> m) m params !! k =
  match list.last (filter (fun p => cliKey p = k) params) with
  | Some q => Some q
  | None => m !! k
  end.
Proof.
  revert m. induction params as [|p params IH]; intros m; simpl; [done |].
  rewrite IH. rewrite filter_cons.
  destruct (decide (cliKey p = k)) as [Hk|Hk].
  - rewrite last_cons. destruct (list.last _); [done |].
    by rewrite <- Hk, lookup_insert_eq.
  - by rewrite lookup_insert_ne.
Qed.

(** The entry of a flag is the last declared Param that has this flag. *)
Lemma cliParams_lookup (params : list Param) (k : string) :
  cliParams params !! k = list.last (filter (fun p => cliKey p = k) params).
Proof.
  unfold cliParams. rewrite cliParams_acc, lookup_empty.
  by destruct (list.last _).
Qed.

Lemma cliParams_Some (params : list Param) (k : string) (q : Param) :
  cliParams params !! k = Some q -> q ∈ params /\ k = cliKey q.
Proof.
  rewrite cliParams_lookup. intros Hl.
  apply last_Some_elem_of in Hl. apply list_elem_of_filter in Hl.
  by destruct Hl.
Qed.

Lemma cliParams_declared (params : list Param) (p : Param) :
  p ∈ params -> exists q, cliParams params !! cliKey p = Some q /\ cliKey q = cliKey p.
Proof.
  intros Hp. rewrite cliParams_lookup.
  destruct (list.last _) as [q|] eqn:E.
  - exists q. split; [done |].
    apply last_Some_elem_of in E. apply list_elem_of_filter in E. by destruct E.
  - apply last_None in E.
    assert (p ∈ filter (fun p0 => cliKey p0 = cliKey p) params) as Hin
      by (apply list_elem_of_filter; done).
    rewrite E in Hin. by apply elem_of_nil in Hin.
Qed.

(** C9.  The flag of a declared Param is [--], the path segments joined by
    [-], another [-] and the name; for a Param of the root it is [--] and
    the name.  The older revision derives the same string.  The map of the
    CLI source has an entry under this flag, and every key of the map is
    the flag of the declared Param stored under it. *)
Theorem cli_flag_derivation (params : list Param) (p : Param) :
  p ∈ params ->
  cliKey p = "--" +:+ match Path p with
                      | [] => Name p
                      | _ => strings_Join (Path p) "-" +:+ "-" +:+ Name p
                      end
  /\ Legacy.cliKey (Path p) (Name p) = cliKey p
  /\ (exists q, cliParams params !! cliKey p = Some q /\ cliKey q = cliKey p)
  /\ (forall k q, cliParams params !! k = Some q -> q ∈ params /\ k = cliKey q).
Proof.
  intros Hp. split; [apply cliKey_spec |].
  split; [apply Legacy_cliKey_spec |].
  split; [by apply cliParams_declared |].
  intros k q. apply cliParams_Some.
Qed.

Lemma cli_flag_derivation_witness :
  cliKey pChild = "--a-y"
  /\ Legacy.cliKey (Path pChild) (Name pChild) = cliKey pChild
  /\ (exists q, cliParams [pFoo; pChild] !! cliKey pChild = Some q
                /\ cliKey q = cliKey pChild)
  /\ (forall k q, cliParams [pFoo; pChild] !! k = Some q ->
                  q ∈ [pFoo; pChild] /\ k = cliKey q).
Proof.
  apply (cli_flag_derivation [pFoo; pChild] pChild).
  apply list_elem_of_In. simpl. auto.
Defined.

(** ** cli.go: matching an argument against the flags *)

Lemma matches_spec (arg k : string) :
  matches arg k = true <-> arg = k \/ exists r, arg = k +:+ cliValSep +:+ r.
Proof.
  unfold matches, strings_HasPrefix. rewrite orb_true_iff, String.eqb_eq, prefix_app.
  split; intros [?|[r Hr]]; auto; right; exists r.
  - by rewrite <- string_app_assoc.
  - by rewrite string_app_assoc.
Qed.

Lemma app_sep_inj (a b r1 r2 : string) :
  containsChar eqChar a = false -> containsChar eqChar b = false ->
  a +:+ cliValSep +:+ r1 = b +:+ cliValSep +:+ r2 -> a = b.
Proof.
  revert b. induction a as [|c a IH]; intros [|d b] Ha Hb Heq; [done | | |].
  - rewrite !string_app_cons in Heq. simpl in Heq.
    injection Heq as Hd _. subst d. simpl in Hb. done.
  - rewrite !string_app_cons in Heq. simpl in Heq.
    injection Heq as Hc _. subst c. simpl in Ha. done.
  - rewrite !string_app_cons in Heq. injection Heq as -> Heq.
    simpl in Ha, Hb. apply orb_false_iff in Ha as [_ Ha].
    apply orb_false_iff in Hb as [_ Hb]. f_equal. by apply IH.
Qed.

(** An argument names at most one flag that is free of the separator. *)
Lemma matches_unique (arg k1 k2 : string) :
  containsChar eqChar k1 = false -> containsChar eqChar k2 = false ->
  matches arg k1 = true -> matches arg k2 = true -> k1 = k2.
Proof.
  intros H1 H2 M1 M2.
  apply matches_spec in M1 as [->|[r1 ->]]; apply matches_spec in M2 as [E|[r2 E]].
  - done.
  - subst k1. rewrite !containsChar_app in H1. simpl in H1.
    by rewrite orb_true_r in H1.
  - subst k2. rewrite !containsChar_app in H2. simpl in H2.
    by rewrite orb_true_r in H2.
  - by eapply app_sep_inj.
Qed.

Lemma matchArg_none (arg : string) (entries : list (string * Param)) (st : ParseState) :
  (forall k p, (k, p) ∈ entries -> matches arg k = false) ->
  pvOk (matchArg arg entries st) = pvOk st.
Proof.
  revert st. induction entries as [|[k p] entries IH]; intros st Hnone; simpl; [done |].
  assert (matches arg k = false) as Hk by (eapply Hnone; left).
  unfold matches in Hk. apply orb_false_iff in Hk as [Heq Hpre].
  rewrite Heq, Hpre. simpl. rewrite IH; [done |].
  intros k' p' Hin. eapply Hnone. by right.
Qed.

Lemma matchArg_found (arg : string) (entries : list (string * Param))
    (st : ParseState) (k : string) (p : Param) :
  (k, p) ∈ entries -> matches arg k = true ->
  (forall k' p', (k', p') ∈ entries -> matches arg k' = true -> k' = k /\ p' = p) ->
  matchArg arg entries st = matched arg k p st.
Proof.
  revert st. induction entries as [|[k0 p0] entries IH]; intros st Hin Hm Huniq.
  - by apply elem_of_nil in Hin.
  - simpl. destruct (matches arg k0) eqn:M0.
    + destruct (Huniq k0 p0) as [-> ->]; [left | done |].
      unfold matched. unfold matches in M0.
      destruct (String.eqb arg k); simpl; [done |].
      simpl in M0. by rewrite M0.
    + unfold matches in M0. apply orb_false_iff in M0 as [Heq Hpre].
      rewrite Heq, Hpre. simpl.
      apply elem_of_cons in Hin as [Hin|Hin].
      * injection Hin as <- <-. unfold matches in Hm.
        by rewrite Heq, Hpre in Hm.
      * rewrite IH; [done | done | done |].
        intros k' p' Hin'. apply Huniq. by right.
Qed.

Lemma elem_of_range {A} (R : RangeOrder) (m : gmap string A) (k : string) (v : A) :
  (k, v) ∈ range R m <-> m !! k = Some v.
Proof. rewrite (range_perm R A m). apply elem_of_map_to_list. Qed.

Lemma cliParams_noSeparator (params : list Param) (k : string) (p : Param) :
  noSeparator params -> cliParams params !! k = Some p ->
  containsChar eqChar k = false.
Proof.
  intros Hsep Hk. apply cliParams_Some in Hk as [Hin ->]. by apply Hsep.
Qed.

Lemma scanArg_found (R : RangeOrder) (cli : SourceCLI) (params : list Param)
    (st : ParseState) (pvs : list ParamValue) (arg k : string) (p : Param) :
  noSeparator params ->
  cliParams params !! k = Some p ->
  matches arg k = true ->
  pvOk st = false ->
  negb (DisableHelpPage cli) && String.eqb arg cliHelpArg = false ->
  scanArg R cli (cliParams params) st pvs arg = Next (matched arg k p st) pvs.
Proof.
  intros Hsep Hk Hm Hok Hhelp. unfold scanArg. rewrite Hok, Hhelp.
  rewrite (matchArg_found arg _ st k p).
  - unfold matched. by destruct (String.eqb arg k).
  - by apply elem_of_range.
  - done.
  - intros k' p' Hin Hm'. apply elem_of_range in Hin.
    assert (k' = k) as ->.
    { eapply matches_unique; eauto using cliParams_noSeparator. }
    split; [done | congruence].
Qed.

Lemma scanArg_none (R : RangeOrder) (cli : SourceCLI) (pM : gmap string Param)
    (st : ParseState) (pvs : list ParamValue) (arg : string) :
  (forall k p, pM !! k = Some p -> matches arg k = false) ->
  pvOk st = false ->
  negb (DisableHelpPage cli) && String.eqb arg cliHelpArg = false ->
  scanArg R cli pM st pvs arg = Fail (errUnexpected arg).
Proof.
  intros Hnone Hok Hhelp. unfold scanArg. rewrite Hok, Hhelp.
  rewrite matchArg_none, Hok; [done |].
  intros k p Hin. apply elem_of_range in Hin. eauto.
Qed.

(** Whatever the order of the [range], an iteration does the same. *)
Lemma scanArg_deterministic (R R' : RangeOrder) (cli : SourceCLI)
    (params : list Param) (st : ParseState) (pvs : list ParamValue) (arg : string) :
  noSeparator params ->
  scanArg R cli (cliParams params) st pvs arg
  = scanArg R' cli (cliParams params) st pvs arg.
Proof.
  intros Hsep.
  destruct (pvOk st) eqn:Hok; [unfold scanArg; by rewrite Hok |].
  destruct (negb (DisableHelpPage cli) && String.eqb arg cliHelpArg) eqn:Hhelp;
    [unfold scanArg; by rewrite Hok, Hhelp |].
  destruct (decide (Exists (fun e => matches arg e.1 = true)
                           (map_to_list (cliParams params)))) as [Hex|Hno].
  - apply Exists_exists in Hex as [[k p] [Hin Hm]]. simpl in Hm.
    apply list_elem_of_In, elem_of_map_to_list in Hin.
    by rewrite !(scanArg_found _ cli params st pvs arg k p).
  - rewrite !scanArg_none; try done.
    + intros k p Hk. destruct (matches arg k) eqn:Hm; [|done].
      exfalso. apply Hno. apply Exists_exists. exists (k, p).
      split; [by apply list_elem_of_In, elem_of_map_to_list | done].
    + intros k p Hk. destruct (matches arg k) eqn:Hm; [|done].
      exfalso. apply Hno. apply Exists_exists. exists (k, p).
      split; [by apply list_elem_of_In, elem_of_map_to_list | done].
Qed.

Lemma parseArgs_deterministic `{Env} (Rs Rs' : nat -> RangeOrder) (cli : SourceCLI)
    (params : list Param) (i i' : nat) (st : ParseState) (pvs : list ParamValue)
    (args : list string) :
  noSeparator params ->
  parseArgs Rs cli (cliParams params) i st pvs args
  = parseArgs Rs' cli (cliParams params) i' st pvs args.
Proof.
  intros Hsep. revert i i' st pvs.
  induction args as [|arg args IH]; intros i i' st pvs; simpl; [done |].
  unfold parseArg.
  rewrite (scanArg_deterministic (Rs i) (Rs' i')) by done.
  destruct (scanArg (Rs' i') cli (cliParams params) st pvs arg); try done.
  destruct (fillArg st0 pvs0); try done.
Qed.

(** C10.  When no flag contains the value separator, an argument names at
    most one key of the map of flags, and the result of [SourceCLI.Parse]
    does not depend on the orders in which the map is walked: two runs on
    the same arguments and Params return the same list of ParamValues, the
    same error, or both end the process. *)
Theorem Parse_deterministic `{Env} (Rs Rs' : nat -> RangeOrder)
    (osArgs : list string) (cli : SourceCLI) (params : list Param) :
  noSeparator params ->
  (forall arg k1 k2 p1 p2,
     cliParams params !! k1 = Some p1 -> cliParams params !! k2 = Some p2 ->
     matches arg k1 = true -> matches arg k2 = true -> k1 = k2)
  /\ Parse Rs osArgs cli params = Parse Rs' osArgs cli params.
Proof.
  intros Hsep. split.
  - intros arg k1 k2 p1 p2 Hk1 Hk2.
    apply matches_unique; by eapply cliParams_noSeparator.
  - unfold Parse.
    by rewrite (parseArgs_deterministic Rs Rs' cli params 0 0).
Qed.

Lemma noSeparator_Forall (params : list Param) :
  Forall (fun p => containsChar eqChar (cliKey p) = false) params ->
  noSeparator params.
Proof. intros Hall p Hp. rewrite Forall_forall in Hall. by apply Hall, list_elem_of_In. Qed.

Lemma Parse_deterministic_witness :
  @Parse sampleEnv (fun _ => ascending) [] (mkSourceCLI (Some ["--foo"; "5"; "--bar"]) false) testParams
  = @Parse sampleEnv (fun _ => descending) [] (mkSourceCLI (Some ["--foo"; "5"; "--bar"]) false) testParams.
Proof.
  apply (@Parse_deterministic sampleEnv).
  apply noSeparator_Forall. repeat constructor.
Defined.

(** With a separator in a flag the order shows: see [pEqName] and [pA]. *)
Lemma Parse_order_matters :
  @Parse sampleEnv (fun _ => ascending) []
         (mkSourceCLI (Some ["--a=b"]) false) [pEqName; pA]
  <> @Parse sampleEnv (fun _ => descending) []
            (mkSourceCLI (Some ["--a=b"]) false) [pEqName; pA].
Proof. vm_compute. discriminate. Qed.

(** ** cli.go: boolean flags *)

Lemma cliKey_not_help (p : Param) (r : string) :
  String.eqb (cliKey p +:+ r) cliHelpArg = false.
Proof. unfold cliKey, cliKeyPrefix. by rewrite !string_app_cons. Qed.

Lemma cliKey_dashes (p : Param) (r : string) :
  strings_HasPrefix (cliKey p +:+ r) cliKeyPrefix = true.
Proof.
  unfold strings_HasPrefix. apply prefix_app.
  unfold cliKey. rewrite string_app_assoc. eauto.
Qed.

(** An argument that does not start with two dashes names no flag. *)
Lemma matches_dashes (params : list Param) (v k : string) (p : Param) :
  strings_HasPrefix v cliKeyPrefix = false ->
  cliParams params !! k = Some p -> matches v k = false.
Proof.
  intros Hv Hk. apply cliParams_Some in Hk as [_ ->].
  destruct (matches v (cliKey p)) eqn:Hm; [|done].
  apply matches_spec in Hm as [->|[r ->]].
  - by rewrite <- (string_app_nil_r (cliKey p)), cliKey_dashes in Hv.
  - by rewrite cliKey_dashes in Hv.
Qed.

Lemma string_length_app (a b : string) :
  String.length (a +:+ b) = (String.length a + String.length b)%nat.
Proof. induction a as [|x a IH]; [done |]. rewrite string_app_cons. simpl. by rewrite IH. Qed.

Lemma eqb_app_sep (k r : string) : String.eqb (k +:+ cliValSep +:+ r) k = false.
Proof.
  apply String.eqb_neq. intros Heq.
  apply (f_equal String.length) in Heq.
  rewrite !string_length_app in Heq. simpl in Heq. lia.
Qed.

Section BoolFlag.

Context `{Env} (Rs : nat -> RangeOrder) (cli : SourceCLI) (params : list Param).
Context (flag : string) (p : Param).
Hypothesis Hsep : noSeparator params.
Hypothesis Hflag : cliParams params !! flag = Some p.
Hypothesis Hbool : IsBool p = true.

Lemma flag_not_help (r : string) :
  negb (DisableHelpPage cli) && String.eqb (flag +:+ r) cliHelpArg = false.
Proof.
  destruct (cliParams_Some _ _ _ Hflag) as [_ ->].
  rewrite cliKey_not_help. apply andb_false_r.
Qed.

Lemma parseArg_bare (i : nat) (pvs : list ParamValue) :
  parseArg (Rs i) cli (cliParams params) initParseState pvs flag
  = Next initParseState (pvs ++ [mkParamValue p (fuzzyParse p "true")]).
Proof.
  unfold parseArg.
  rewrite (scanArg_found _ cli params _ pvs flag flag p); try done.
  - unfold matched. rewrite String.eqb_refl. unfold fillArg. simpl. by rewrite Hbool.
  - unfold matches. by rewrite String.eqb_refl.
  - rewrite <- (string_app_nil_r flag). apply flag_not_help.
Qed.

Lemma parseArg_equals (i : nat) (pvs : list ParamValue) (val : string) :
  parseArg (Rs i) cli (cliParams params) initParseState pvs (flag +:+ cliValSep +:+ val)
  = Next initParseState (pvs ++ [mkParamValue p (fuzzyParse p val)]).
Proof.
  unfold parseArg.
  rewrite (scanArg_found _ cli params _ pvs _ flag p); try done.
  - unfold matched. rewrite eqb_app_sep.
    rewrite <- string_app_assoc, TrimPrefix_app.
    unfold fillArg. simpl. by rewrite Hbool.
  - apply matches_spec. eauto.
  - apply flag_not_help.
Qed.

Lemma parseArg_stray (i : nat) (pvs : list ParamValue) (v : string) :
  (forall k q, cliParams params !! k = Some q -> matches v k = false) ->
  negb (DisableHelpPage cli) && String.eqb v cliHelpArg = false ->
  parseArg (Rs i) cli (cliParams params) initParseState pvs v
  = Fail (errUnexpected v).
Proof. intros Hv Hhelp. unfold parseArg. by rewrite scanArg_none. Qed.

End BoolFlag.

(** C8, as the code has it.  Let no flag contain the value separator and
    let [p] be the bool Param the map of flags holds under [flag] (the last
    declared Param with this flag).  The flag alone yields a ParamValue of
    [p] whose value is the text [true] as [fuzzyParse] renders it;
    [flag=val] yields the one whose value is [val] as [fuzzyParse] renders
    it; and the argument after the bare flag is never taken as its value:
    it is looked up like any other argument, so that one which names no
    flag (and is not the help flag) makes [Parse] fail with "unexpected
    config parameter". *)
Theorem bool_flag_forms `{Env} (Rs : nat -> RangeOrder) (osArgs : list string)
    (noHelp : bool) (params : list Param) (flag : string) (p : Param) :
  noSeparator params ->
  cliParams params !! flag = Some p ->
  IsBool p = true ->
  Parse Rs osArgs (mkSourceCLI (Some [flag]) noHelp) params
  = Parsed [mkParamValue p (fuzzyParse p "true")]
  /\ (forall val,
        Parse Rs osArgs (mkSourceCLI (Some [flag +:+ cliValSep +:+ val]) noHelp) params
        = Parsed [mkParamValue p (fuzzyParse p val)])
  /\ (forall v rest,
        (forall k q, cliParams params !! k = Some q -> matches v k = false) ->
        negb noHelp && String.eqb v cliHelpArg = false ->
        Parse Rs osArgs (mkSourceCLI (Some (flag :: v :: rest)) noHelp) params
        = ParseFailed (errUnexpected v))
  /\ (forall cli i pvs rest,
        parseArgs Rs cli (cliParams params) i initParseState pvs (flag :: rest)
        = parseArgs Rs cli (cliParams params) (S i) initParseState
                    (pvs ++ [mkParamValue p (fuzzyParse p "true")]) rest).
Proof.
  intros Hsep Hflag Hbool. repeat split.
  - unfold Parse. simpl. by rewrite (parseArg_bare Rs _ params flag p).
  - intros val. unfold Parse. simpl.
    by rewrite (parseArg_equals Rs _ params flag p).
  - intros v rest Hv Hhelp. unfold Parse. simpl.
    rewrite (parseArg_bare Rs _ params flag p) by done.
    by rewrite (parseArg_stray Rs _ params).
  - intros cli i pvs rest. simpl.
    by rewrite (parseArg_bare Rs _ params flag p).
Qed.

Lemma bool_flag_forms_witness :
  @Parse sampleEnv (fun _ => ascending) [] (mkSourceCLI (Some ["--bar"]) false) testParams
  = Parsed [mkParamValue pBar "true"]
  /\ @Parse sampleEnv (fun _ => ascending) []
            (mkSourceCLI (Some ["--bar=false"]) false) testParams
     = Parsed [mkParamValue pBar "false"]
  /\ @Parse sampleEnv (fun _ => ascending) []
            (mkSourceCLI (Some ["--bar"; "false"]) false) testParams
     = ParseFailed (errUnexpected "false").
Proof.
  destruct (@bool_flag_forms sampleEnv (fun _ => ascending) [] false testParams
              "--bar" pBar) as (Hbare & Heq & Hstray & _).
  - apply noSeparator_Forall. repeat constructor.
  - reflexivity.
  - reflexivity.
  - split; [exact Hbare | split].
    + exact (Heq "false").
    + apply Hstray; [|reflexivity].
      intros k q Hk. by apply (matches_dashes testParams _ _ q).
Defined.

(** C8 as claimed fails when a flag contains the separator: [a=b] is a bool
    Param and [--a=b] its flag, but when the [range] over the flags yields
    [--a] first the same argument is read as the value [b] of [a].  It also
    fails when a later Param derives the same flag: [--a-b-c] is the flag
    of the bool [b-c] of context [a], but the map holds the string [c] of
    context [a/b] under it, which then waits for a value.  And the help
    flag after a bare bool flag ends the process instead of being
    rejected. *)
Lemma bool_flag_ambiguous :
  (IsBool pEqName = true
   /\ cliParams [pEqName; pA] !! cliKey pEqName = Some pEqName
   /\ @Parse sampleEnv (fun _ => descending) []
             (mkSourceCLI (Some [cliKey pEqName]) false) [pEqName; pA]
      = Parsed [mkParamValue pA (@fuzzyParse sampleEnv pA "b")])
  /\ (IsBool pDash = true
      /\ cliKey pDash = cliKey pDeep
      /\ @Parse sampleEnv (fun _ => ascending) []
                (mkSourceCLI (Some [cliKey pDash]) false) [pDash; pDeep]
         = ParseFailed (errExpectedValue "--a-b-c"))
  /\ @Parse sampleEnv (fun _ => ascending) []
            (mkSourceCLI (Some ["--bar"; "-h"]) false) testParams
     = ParseExited 1.
Proof. repeat split. Qed.

(** The older revision does not accept the [=] form for a bool. *)
Lemma Legacy_bool_equals_rejected :
  @Legacy.Parse sampleEnv ascending (fun _ => ascending) []
     (mkSourceCLI (Some ["--bar=false"]) false)
     (Legacy.mkCfg [] [pBar] [])
  = Legacy.ParseFailed (@Legacy.errBoolValue sampleEnv "--bar=false")
  /\ @Legacy.Parse sampleEnv ascending (fun _ => ascending) []
     (mkSourceCLI (Some ["--bar"]) false)
     (Legacy.mkCfg [] [pBar] [])
  = Legacy.Parsed [Legacy.mkParamValue pBar [] "true"].
Proof. split; reflexivity. Qed.

(** ** mcfg.go: populate *)

Section Populate.

Context `{Env}.

Implicit Types (params : list Param) (pM : gmap string Param)
  (pvs : list ParamValue) (pvM : gmap string ParamValue) (store : Store).

Lemma hashParams_inr params (m pM : gmap string Param) :
  hashParams params m = inr pM ->
  NoDup (hashOf <$> params)
  /\ (forall p, p ∈ params -> m !! hashOf p = None)
  /\ (forall h p, pM !! h = Some p <-> m !! h = Some p \/ (p ∈ params /\ hashOf p = h)).
Proof.
  revert m. induction params as [|p params IH]; intros m; simpl.
  - intros [= <-]. split; [constructor |]. split.
    + intros p Hp. by apply elem_of_nil in Hp.
    + intros h p. split; [auto |]. intros [?|[Hp _]]; [done |].
      by apply elem_of_nil in Hp.
  - fold (hashOf p). destruct (m !! hashOf p) eqn:Hm; [done |].
    intros Hrec. destruct (IH _ Hrec) as (Hnd & Hfresh & Hiff).
    assert (Hnotin : hashOf p ∉ hashOf <$> params).
    { intros Hin. apply list_elem_of_fmap in Hin as [q [Hq Hin]].
      specialize (Hfresh q Hin). rewrite <- Hq, lookup_insert_eq in Hfresh. done. }
    split; [|split].
    + by apply list.NoDup_cons.
    + intros q Hq. apply elem_of_cons in Hq as [->|Hq]; [done |].
      specialize (Hfresh q Hq).
      destruct (decide (hashOf p = hashOf q)) as [Heq|Hne].
      * by rewrite Heq, lookup_insert_eq in Hfresh.
      * by rewrite lookup_insert_ne in Hfresh.
    + intros h q. rewrite Hiff. rewrite lookup_insert.
      destruct (decide (hashOf p = h)) as [<-|Hne].
      * rewrite Hm. split.
        -- intros [[= <-]|[Hq Hh]]; right; [split; [left | done] |].
           split; [by right | done].
        -- intros [?|[Hq Hh]]; [done |].
           apply elem_of_cons in Hq as [->|Hq]; [by left | right; done].
      * split.
        -- intros [?|[Hq Hh]]; [by left | right]. split; [by right | done].
        -- intros [?|[Hq Hh]]; [by left |].
           apply elem_of_cons in Hq as [->|Hq]; [done | right; done].
Qed.


Lemma hashParams_NoDup params (m : gmap string Param) :
  NoDup (hashOf <$> params) ->
  (forall p, p ∈ params -> m !! hashOf p = None) ->
  exists pM, hashParams params m = inr pM.
Proof.
  revert m. induction params as [|p params IH]; intros m Hnd Hfresh; simpl.
  - eauto.
  - fold (hashOf p). rewrite (Hfresh p) by left.
    rewrite fmap_cons in Hnd. apply list.NoDup_cons in Hnd as [Hnotin Hnd].
    apply IH; [done |].
    intros q Hq. rewrite lookup_insert_ne; [apply Hfresh; by right |].
    intros Heq. apply Hnotin. rewrite Heq.
    apply list_elem_of_fmap. eauto.
Qed.

End Populate.

Section PopulateLoops.

Context `{Env}.

Implicit Types (params : list Param) (pM : gmap string Param)
  (pvs : list ParamValue) (pvM : gmap string ParamValue) (store : Store).

Lemma dedupe_acc pM pvs (acc : gmap string ParamValue) (h : string) :
  foldl (fun pvM pv =>
           let hash := paramHash (Path (pvParam pv)) (Name (pvParam pv)) in
           match pM !! hash with
           | None => pvM
           | Some _ => <[hash := pv]> pvM
           end) acc pvs !! h
  = match (if decide (is_Some (pM !! h))
           then list.last (filter (fun pv => pvHash pv = h) pvs)
           else None) with
    | Some pv => Some pv
    | None => acc !! h
    end.
Proof.
  revert acc. induction pvs as [|pv pvs IH]; intros acc; simpl.
  - by destruct (decide _).
  - rewrite IH. fold (hashOf (pvParam pv)). fold (pvHash pv).
    destruct (decide (is_Some (pM !! h))) as [Hknown|Hunknown].
    + rewrite filter_cons. destruct (decide (pvHash pv = h)) as [Hh|Hh].
      * rewrite last_cons. destruct (list.last _); [done |].
        rewrite Hh. destruct Hknown as [p Hp]. rewrite Hp.
        by rewrite lookup_insert_eq.
      * destruct (list.last _); [done |].
        destruct (pM !! pvHash pv); [|done]. by rewrite lookup_insert_ne.
    + destruct (pM !! pvHash pv) eqn:Hpv; [|done].
      rewrite lookup_insert_ne; [done |].
      intros <-. apply Hunknown. by rewrite Hpv.
Qed.

(** The value kept under a hash is the last one of the Source's list with
    this hash, provided a declared Param has the hash. *)
Lemma dedupe_lookup pM pvs (h : string) :
  dedupe pM pvs !! h
  = if decide (is_Some (pM !! h))
    then list.last (filter (fun pv => pvHash pv = h) pvs)
    else None.
Proof.
  unfold dedupe. rewrite dedupe_acc, lookup_empty.
  destruct (decide _); [|done]. by destruct (list.last _).
Qed.

Lemma dedupe_Some pM pvs (h : string) (pv : ParamValue) :
  dedupe pM pvs !! h = Some pv ->
  pv ∈ pvs /\ pvHash pv = h /\ is_Some (pM !! h).
Proof.
  rewrite dedupe_lookup. destruct (decide _) as [Hknown|]; [|done].
  intros Hl. apply last_Some_elem_of, list_elem_of_filter in Hl. tauto.
Qed.

Lemma dedupe_is_Some pM pvs (h : string) :
  is_Some (pM !! h) -> (exists pv, pv ∈ pvs /\ pvHash pv = h) ->
  is_Some (dedupe pM pvs !! h).
Proof.
  intros Hknown (pv & Hin & Hh). rewrite dedupe_lookup.
  destruct (decide _); [|done]. apply last_is_Some.
  intros Hnil.
  assert (pv ∈ filter (fun pv0 => pvHash pv0 = h) pvs) as Hf
    by (by apply list_elem_of_filter).
  rewrite Hnil in Hf. by apply elem_of_nil in Hf.
Qed.

Lemma filter_known pM pvs (h : string) :
  is_Some (pM !! h) ->
  filter (fun pv => pvHash pv = h)
         (filter (fun pv => is_Some (pM !! pvHash pv)) pvs)
  = filter (fun pv => pvHash pv = h) pvs.
Proof.
  intros Hknown. induction pvs as [|pv pvs IH]; [done |].
  rewrite (filter_cons _ pv pvs).
  destruct (decide (is_Some (pM !! pvHash pv))) as [Hk|Hk].
  - rewrite !filter_cons. destruct (decide (pvHash pv = h)); by rewrite IH.
  - rewrite IH, filter_cons. destruct (decide (pvHash pv = h)) as [Hh|]; [|done].
    exfalso. apply Hk. by rewrite Hh.
Qed.

(** ParamValues without a declared Param change nothing. *)
Lemma dedupe_filter_known pM pvs :
  dedupe pM pvs = dedupe pM (filter (fun pv => is_Some (pM !! pvHash pv)) pvs).
Proof.
  apply map_eq. intros h. rewrite !dedupe_lookup.
  destruct (decide _); [|done]. by rewrite filter_known.
Qed.

Lemma checkRequired_None (entries : list (string * Param)) pvM :
  checkRequired entries pvM = None <->
  forall h p, (h, p) ∈ entries -> Required p = true -> is_Some (pvM !! h).
Proof.
  induction entries as [|[h p] entries IH]; simpl.
  - split; [|done]. intros _ h p Hin. by apply elem_of_nil in Hin.
  - destruct (Required p) eqn:Hreq; simpl.
    + destruct (pvM !! h) eqn:Hh.
      * rewrite IH. split.
        -- intros Hall h' p' Hin Hr.
           apply elem_of_cons in Hin as [[= -> ->]|Hin]; [by rewrite Hh | eauto].
        -- intros Hall h' p' Hin. apply Hall. by right.
      * split; [done |]. intros Hall.
        destruct (Hall h p) as [x Hx]; [left | done |]. congruence.
    + rewrite IH. split.
      * intros Hall h' p' Hin Hr.
        apply elem_of_cons in Hin as [[= -> ->]|Hin]; [congruence | eauto].
      * intros Hall h' p' Hin. apply Hall. by right.
Qed.

Lemma checkRequired_Some (entries : list (string * Param)) pvM (e : error) :
  checkRequired entries pvM = Some e ->
  exists h p, (h, p) ∈ entries /\ Required p = true /\ pvM !! h = None
              /\ e = errRequired p.
Proof.
  induction entries as [|[h p] entries IH]; simpl; [done |].
  destruct (Required p) eqn:Hreq; simpl.
  - destruct (pvM !! h) eqn:Hh.
    + intros He. destruct (IH He) as (h' & p' & Hin & ?).
      exists h', p'. split; [by right | done].
    + intros [= <-]. exists h, p. split; [left | done].
  - intros He. destruct (IH He) as (h' & p' & Hin & ?).
    exists h', p'. split; [by right | done].
Qed.

(** The writes touch the targets of the listed values only. *)
Lemma unmarshalAll_frame (entries : list (string * ParamValue)) pM store (t : nat) :
  (forall h pv p, (h, pv) ∈ entries -> pM !! h = Some p -> Into p ≠ t) ->
  (unmarshalAll entries pM store).2 t = store t.
Proof.
  revert store. induction entries as [|[h pv] entries IH]; intros store Hne; simpl;
    [done |].
  destruct (pM !! h) as [p|] eqn:Hp; [|done].
  destruct (json_Unmarshal (Value pv) (store (Into p))) as [v [e|]] eqn:Hu; simpl.
  - apply fn_lookup_insert_ne. eapply Hne; [left | done].
  - rewrite IH.
    + apply fn_lookup_insert_ne. eapply Hne; [left | done].
    + intros h' pv' p' Hin. eapply Hne. by right.
Qed.

End PopulateLoops.

Section PopulateClaims.

Context `{Env} (R1 R2 : RangeOrder).

Implicit Types (params : list Param) (pM : gmap string Param)
  (pvs : list ParamValue) (src : option Source) (store : Store).

Lemma hashParams_entry params pM (h : string) (p : Param) :
  hashParams params ∅ = inr pM ->
  pM !! h = Some p <-> p ∈ params /\ hashOf p = h.
Proof.
  intros Hm. destruct (hashParams_inr _ _ _ Hm) as (_ & _ & Hiff).
  rewrite Hiff, lookup_empty. split; [intros [?|?]; done | auto].
Qed.

(** C1.  Let the Params hash without a duplicate into [pM] and let the
    Source return [pvs].  If some required Param has no value among the
    deduplicated and filtered ones, [populate] returns the error "required
    parameter is not set" annotated with the full name of a required Param
    that has none, and the store is as it was.  If every required Param has
    one, the check of the required Params finds nothing and [populate] goes
    on to the writes, whose result it returns. *)
Theorem required_check params src store pM pvs :
  hashParams params ∅ = inr pM ->
  orNil src params = Parsed pvs ->
  ((exists p, p ∈ params /\ Required p = true /\ dedupe pM pvs !! hashOf p = None) ->
   exists q, q ∈ params /\ Required q = true /\ dedupe pM pvs !! hashOf q = None
             /\ errRequired q
                = mkError "required parameter is not set"
                          [("param", paramFullName (Path q) (Name q))]
             /\ populate R1 R2 params src store
                = (Returned (Some (errRequired q)), store))
  /\ ((forall p, p ∈ params -> Required p = true ->
                 is_Some (dedupe pM pvs !! hashOf p)) ->
      checkRequired (range R1 pM) (dedupe pM pvs) = None
      /\ populate R1 R2 params src store
         = (Returned (unmarshalAll (range R2 (dedupe pM pvs)) pM store).1,
            (unmarshalAll (range R2 (dedupe pM pvs)) pM store).2)).
Proof.
  intros Hm Hsrc. unfold populate. rewrite Hm, Hsrc. split.
  - intros (p & Hp & Hreq & Hnone).
    destruct (checkRequired (range R1 pM) (dedupe pM pvs)) as [e|] eqn:Hc.
    + apply checkRequired_Some in Hc as (h & q & Hin & Hq & Hh & ->).
      apply elem_of_range, (hashParams_entry params) in Hin as [Hin <-]; [|done].
      exists q. done.
    + exfalso. rewrite checkRequired_None in Hc.
      destruct (Hc (hashOf p) p) as [x Hx]; [|done | congruence].
      apply elem_of_range. by apply (hashParams_entry params).
  - intros Hall.
    assert (checkRequired (range R1 pM) (dedupe pM pvs) = None) as Hc.
    { apply checkRequired_None. intros h p Hin Hreq.
      apply elem_of_range, (hashParams_entry params) in Hin as [Hin <-]; [|done].
      by apply Hall. }
    rewrite Hc. split; [done |]. by destruct (unmarshalAll _ _ _).
Qed.

(** Only the targets of the Params the Source mentions are written,
    however [populate] ends. *)
Lemma populate_frame params src store (t : nat) :
  (forall pvs p, orNil src params = Parsed pvs -> p ∈ params -> supplied pvs p ->
                 Into p ≠ t) ->
  (populate R1 R2 params src store).2 t = store t.
Proof.
  intros Ht. unfold populate.
  destruct (hashParams params ∅) as [msg|pM] eqn:Hm; [done |].
  destruct (orNil src params) as [pvs| |] eqn:Hsrc; [|done..].
  destruct (checkRequired _ _); [done |].
  destruct (unmarshalAll _ _ _) as [e store'] eqn:Hu.
  change store' with (e, store').2. rewrite <- Hu.
  apply unmarshalAll_frame. intros h pv p Hin Hp.
  apply elem_of_range, dedupe_Some in Hin as (Hin & Hh & _).
  apply (hashParams_entry params) in Hp as [Hp Hhp]; [|done].
  apply (Ht pvs); [done..|]. exists pv. split; [done | congruence].
Qed.

Lemma populate_nil_succeeds params store :
  NoDup (hashOf <$> params) ->
  (forall p, p ∈ params -> Required p = false) ->
  (populate R1 R2 params None store).1 = Returned None.
Proof.
  intros Hnd Hreq. unfold populate.
  destruct (hashParams_NoDup params ∅ Hnd) as [pM Hm]; [done |].
  rewrite Hm. simpl.
  assert (checkRequired (range R1 pM) (dedupe pM []) = None) as ->.
  { apply checkRequired_None. intros h p Hin Hr.
    apply elem_of_range, (hashParams_entry params) in Hin as [Hin _]; [|done].
    rewrite (Hreq p Hin) in Hr. done. }
  assert (range R2 (dedupe pM []) = []) as ->.
  { apply Permutation_nil_r. rewrite (range_perm R2). unfold dedupe. simpl.
    by rewrite map_to_list_empty. }
  done.
Qed.

End PopulateClaims.

Lemma required_check_witness :
  exists q, q ∈ testParams /\ Required q = true
    /\ @populate sampleEnv ascending ascending testParams
         (Some (@cliSource sampleEnv (fun _ => ascending) []
                  (mkSourceCLI (Some ["--baz2=x"]) false)))
         testStore
       = (Returned (Some (@errRequired sampleEnv q)), testStore).
Proof.
  destruct (@required_check sampleEnv ascending ascending testParams
              (Some (@cliSource sampleEnv (fun _ => ascending) []
                       (mkSourceCLI (Some ["--baz2=x"]) false)))
              testStore _ _ eq_refl eq_refl) as [Hmissing _].
  destruct Hmissing as (q & Hq & Hreq & _ & _ & Hpop).
  - exists pBaz3. split; [|split; reflexivity].
    apply list_elem_of_In. simpl. tauto.
  - exists q. auto.
Defined.

(** C5, as the code has it.  A target is left as it was unless it is the
    target of a declared Param that the Source's output mentions; so a
    declared Param that is not mentioned keeps the value of its target
    provided no mentioned Param has the same target.  With a nil Source no
    target is written, and [populate] returns no error when no Param is
    required and no two declared Params have the same hash. *)
Theorem populate_writes_supplied `{Env} (R1 R2 : RangeOrder)
    (params : list Param) (src : option Source) (store : Store) :
  (forall t,
     (forall pvs p, orNil src params = Parsed pvs -> p ∈ params ->
                    supplied pvs p -> Into p ≠ t) ->
     (populate R1 R2 params src store).2 t = store t)
  /\ (forall pvs p,
        orNil src params = Parsed pvs -> p ∈ params -> ¬ supplied pvs p ->
        (forall q, q ∈ params -> supplied pvs q -> Into q ≠ Into p) ->
        (populate R1 R2 params src store).2 (Into p) = store (Into p))
  /\ (forall t, (populate R1 R2 params None store).2 t = store t)
  /\ (NoDup (hashOf <$> params) ->
      (forall p, p ∈ params -> Required p = false) ->
      (populate R1 R2 params None store).1 = Returned None).
Proof.
  split; [intros t; apply populate_frame |].
  split; [|split].
  - intros pvs p Hsrc Hp Hnot Hdistinct. apply populate_frame.
    intros pvs' q Hsrc' Hq Hsup. rewrite Hsrc in Hsrc'. injection Hsrc' as <-.
    by apply Hdistinct.
  - intros t. apply populate_frame.
    intros pvs p [= <-] _ (pv & Hin & _). by apply elem_of_nil in Hin.
  - apply populate_nil_succeeds.
Qed.

Lemma populate_writes_supplied_witness :
  (@populate sampleEnv ascending ascending testParams
     (Some (fixedSource [mkParamValue pBaz2 (quoted "x"); mkParamValue pBaz3 (quoted "y")]))
     testStore).2 (Into pFoo) = testStore (Into pFoo)
  /\ (@populate sampleEnv ascending ascending [pFoo; pBar; pBaz] None testStore).1
     = Returned None.
Proof.
  destruct (@populate_writes_supplied sampleEnv ascending ascending testParams
              (Some (fixedSource [mkParamValue pBaz2 (quoted "x");
                                  mkParamValue pBaz3 (quoted "y")]))
              testStore) as (_ & Hkeep & _ & _).
  destruct (@populate_writes_supplied sampleEnv ascending ascending [pFoo; pBar; pBaz]
              None testStore) as (_ & _ & _ & Hnil).
  split.
  - apply (Hkeep _ pFoo eq_refl).
    + apply list_elem_of_In; simpl; tauto.
    + intros (pv & Hin & Hh).
      repeat (apply elem_of_cons in Hin as [->|Hin]; [vm_compute in Hh; discriminate Hh |]).
      apply elem_of_nil in Hin; destruct Hin.
    + intros q Hq (pv & Hin & Hh) Heq.
      repeat (apply elem_of_cons in Hin as [->|Hin];
              [repeat (apply elem_of_cons in Hq as [->|Hq];
                       [first [ discriminate Heq | vm_compute in Hh; discriminate Hh ] |]);
               apply elem_of_nil in Hq; destruct Hq |]).
      apply elem_of_nil in Hin; destruct Hin.
  - apply Hnil.
    + vm_compute.
      repeat (apply list.NoDup_cons; split;
              [rewrite ?elem_of_cons, elem_of_nil; intros Hx;
               repeat destruct Hx as [Hx|Hx]; first [discriminate Hx | destruct Hx] |]).
      apply NoDup_nil_2.
    + intros p Hp.
      repeat (apply elem_of_cons in Hp as [->|Hp]; [reflexivity |]).
      apply elem_of_nil in Hp; destruct Hp.
Defined.

(** C5 as claimed fails twice.  [foo] and [alias] are declared with the
    same target: the Source mentions [alias] only, [populate] succeeds, and
    the target of [foo] holds 7 instead of its 5.  And with [foo] declared
    twice and not required, [populate] with a nil Source panics. *)
Lemma populate_shared_target_and_duplicate :
  (@populate sampleEnv ascending ascending [pFoo; pAlias]
     (Some (fixedSource [mkParamValue pAlias "7"])) testStore).1 = Returned None
  /\ ¬ @supplied sampleEnv [mkParamValue pAlias "7"] pFoo
  /\ testStore (Into pFoo) = VInt 5
  /\ (@populate sampleEnv ascending ascending [pFoo; pAlias]
        (Some (fixedSource [mkParamValue pAlias "7"])) testStore).2 (Into pFoo)
     = VInt 7
  /\ Required pFoo = false
  /\ (@populate sampleEnv ascending ascending [pFoo; pFoo] None testStore).1
     = Panicked "duplicate Param: /foo".
Proof.
  split; [vm_compute; reflexivity |].
  split.
  { intros (pv & Hin & Hh).
    apply elem_of_cons in Hin as [->|Hin]; [vm_compute in Hh; discriminate Hh |].
    apply elem_of_nil in Hin; destruct Hin. }
  split; [reflexivity |].
  split; [vm_compute; reflexivity |].
  split; [reflexivity |].
  vm_compute; reflexivity.
Qed.

(** ** mcfg.go: duplicate declarations *)




(** ** mctx: the mutable value store *)

Section MutableStore.

Import Mctx.
Local Open Scope Z_scope.

(** The test is passed with either of the two behaviours: it does not tell
    them apart. *)
Lemma TestMutableValues_passes :
  passes (TestMutableValues (GetSetMutableValue keepStored)) = true
  /\ passes (TestMutableValues (GetSetMutableValue storeOne)) = true
  /\ GetSetMutableValue keepStored (Some 5) true 0 test_fn = (5, Some 5)
  /\ GetSetMutableValue storeOne (Some 5) true 0 test_fn = (1, Some 1).
Proof. repeat split. Qed.

(** Read word for word, Section 4.2 of the specification fails the third,
    the fourth and the last assertion of the test. *)
Lemma TestMutableValues_spec_fails :
  TestMutableValues GetSetMutableValue_spec
  = [(0, 0); (1, 1); (1, 0); (1, 0); (0, 0); (1, 1); (1, 0)].
Proof. reflexivity. Qed.

(** No implementation can both pass the test and pass nil to the callback
    whenever the flag is set. *)
Lemma test_excludes_reset
    (impl : Cell -> bool -> Z -> (option Z -> Z) -> Z * Cell) :
  (forall cell flag zero fn,
     impl cell flag zero fn
     = (fn (if flag then None else cell), Some (fn (if flag then None else cell)))) ->
  passes (TestMutableValues impl) = false.
Proof. intros Himpl. unfold TestMutableValues. by rewrite !Himpl. Qed.

(** The seven assertions, with the flag unset and with nothing stored as
    Section 4.2 has it: they hold exactly when the call with the flag set
    on the node that stores 1 returns 1 and leaves 1 stored. *)
Lemma TestMutableValues_forces (whenSet : Z -> Z -> (option Z -> Z) -> Z * Cell) :
  passes (TestMutableValues (GetSetMutableValue whenSet)) = true
  <-> whenSet 1 0 test_fn = (1, Some 1).
Proof.
  unfold TestMutableValues. cbn [GetSetMutableValue test_fn].
  change (0 + 1) with 1.
  destruct (whenSet 1 0 test_fn) as [r c] eqn:Hw.
  unfold passes. cbn [forallb]. rewrite !Z.eqb_refl. cbn [andb].
  rewrite !andb_true_r, !andb_true_iff, !Z.eqb_eq.
  destruct c as [c|]; cbn [MutableValue].
  - split.
    + intros (<- & <- & _). done.
    + intros [= <- <-]. done.
  - split; [intros (_ & [=] & _) | intros [=]].
Qed.

(** C3, as far as the sources settle it.  With the flag unset, or with
    nothing stored, the callback receives what is stored (nil when nothing
    is), and its result is stored and returned.  With the flag set on a
    node that stores a value the rule of Section 4.2 does not hold:
    whatever the function does there, it passes [TestMutableValues] exactly
    when the call with the flag set on the node that stores 1 returns 1 and
    leaves 1 stored, and then that call does not return what the callback
    gives for nil, which is 0. *)
Theorem GetSetMutableValue_cases (whenSet : Z -> Z -> (option Z -> Z) -> Z * Cell)
    (cell : Cell) (flag : bool) (zero : Z) (fn : option Z -> Z) :
  (flag = false \/ cell = None ->
   GetSetMutableValue whenSet cell flag zero fn = (fn cell, Some (fn cell))
   /\ GetSetMutableValue whenSet cell flag zero fn
      = GetSetMutableValue_spec cell flag zero fn)
  /\ (passes (TestMutableValues (GetSetMutableValue whenSet)) = true
      <-> GetSetMutableValue whenSet (Some 1) true 0 test_fn = (1, Some 1))
  /\ (passes (TestMutableValues (GetSetMutableValue whenSet)) = true ->
      (GetSetMutableValue whenSet (Some 1) true 0 test_fn).1 ≠ test_fn None
      /\ GetSetMutableValue whenSet (Some 1) true 0 test_fn
         ≠ GetSetMutableValue_spec (Some 1) true 0 test_fn).
Proof.
  split; [|split].
  - intros [->| ->]; [done |]. by destruct flag.
  - apply TestMutableValues_forces.
  - intros Hpass. apply TestMutableValues_forces in Hpass.
    cbn [GetSetMutableValue]. rewrite Hpass. done.
Qed.

(** C3 as claimed fails on the third call of the test: the node stores 1,
    the flag is set, and the test expects 1; the callback on nil gives 0,
    so the function of Section 4.2 returns 0 there and does not pass. *)
Lemma forceReset_fails_test :
  GetSetMutableValue_spec (Some 1) true 0 test_fn = (0, Some 0)
  /\ test_fn None = 0
  /\ nth 2 (TestMutableValues GetSetMutableValue_spec) (0, 0) = (1, 0)
  /\ passes (TestMutableValues GetSetMutableValue_spec) = false.
Proof. repeat split. Qed.

End MutableStore.

Section Concurrency.

Import Mctx.
Local Open Scope Z_scope.

Lemma sumZ_insert {A} (f : A -> Z) (l : list A) (i : nat) (x y : A) :
  l !! i = Some x -> sumZ f (<[i := y]> l) = sumZ f l - f x + f y.
Proof.
  revert i. induction l as [|z l IH]; intros [|i] Hi; try done; simpl in *.
  - injection Hi as ->. lia.
  - rewrite (IH i Hi). lia.
Qed.

Lemma sumZ_all {A} (f : A -> Z) (l : list A) (c : Z) :
  (forall j x, l !! j = Some x -> f x = c) -> sumZ f l = Z.of_nat (length l) * c.
Proof.
  induction l as [|z l IH]; intros Hall; [done |].
  cbn [sumZ foldr length]. fold (sumZ f l).
  rewrite (Hall 0%nat z), IH by (try done; intros j x Hj; by apply (Hall (S j))).
  lia.
Qed.

Lemma sumZ_nonneg {A} (f : A -> Z) (l : list A) :
  (forall j x, l !! j = Some x -> 0 <= f x) -> 0 <= sumZ f l.
Proof.
  induction l as [|z l IH]; intros Hall; [done |].
  cbn [sumZ foldr]. fold (sumZ f l).
  assert (0 <= f z) by (by apply (Hall 0%nat)).
  assert (0 <= sumZ f l) by (apply IH; intros j x Hj; by apply (Hall (S j))).
  lia.
Qed.

Lemma start_Inv (N K : nat) : Inv (Z.of_nat N * Z.of_nat K) (start N K).
Proof.
  split.
  - simpl. rewrite (sumZ_all owed _ (Z.of_nat K)).
    + rewrite length_replicate. lia.
    + intros j w Hj. apply lookup_replicate in Hj as [-> _]. unfold owed. simpl. lia.
  - left. split; [done |].
    intros j w Hj. by apply lookup_replicate in Hj as [-> _].
Qed.

(** A worker that does not hold the lock while another does cannot move. *)
Lemma step_blocked (s : System) (i j : nat) (w : Worker) :
  held s i w -> j <> i -> step j s = s.
Proof.
  intros (Hlock & _ & _ & _ & _ & Hothers) Hne. unfold step.
  destruct (workers s !! j) as [w'|] eqn:Hj; [|done].
  rewrite (Hothers j w' Hne Hj), Hlock. by destruct (remaining w').
Qed.

Lemma step_Inv (total : Z) (i : nat) (s : System) :
  Inv total s -> Inv total (step i s).
Proof.
  intros [Hbal Hshape].
  destruct Hshape as [[Hlock Hidle]|(h & w & Hheld)].
  - (* nobody holds the lock *)
    unfold step. destruct (workers s !! i) as [w|] eqn:Hw; [|by split; [|left]].
    rewrite (Hidle i w Hw), Hlock.
    destruct (remaining w) as [|r] eqn:Hr; [by split; [|left] |].
    split.
    + simpl. rewrite (sumZ_insert _ _ _ w) by done.
      unfold owed in *. simpl. rewrite (Hidle i w Hw), Hr. lia.
    + right. exists i, (mkWorker (S r) Locked).
      split; [done |]. simpl.
      split; [apply list_lookup_insert_eq; by eapply lookup_lt_Some |].
      split; [done |]. split; [lia |]. split; [done |].
      intros j w' Hne Hj. rewrite list_lookup_insert_ne in Hj by done. eauto.
  - (* worker [h] holds it *)
    destruct (decide (i = h)) as [->|Hne];
      [|rewrite (step_blocked s h i w) by done; split; [done | right; eauto]].
    destruct Hheld as (Hlock & Hw & Hbusy & Hrem & Hcur & Hothers).
    unfold step. rewrite Hw.
    assert (h < length (workers s))%nat as Hlt by (by eapply lookup_lt_Some).
    destruct (pc w) as [| |cur|] eqn:Hpc; [done | | |].
    + split.
      * simpl. rewrite (sumZ_insert _ _ _ w) by done.
        unfold owed in *. simpl. rewrite Hpc. lia.
      * right. exists h, (mkWorker (remaining w) (Loaded (mutVal s))).
        split; [done |]. simpl.
        split; [by apply list_lookup_insert_eq |].
        split; [done |]. split; [done |]. split; [by intros cur [= <-] |].
        intros j w' Hj Hw'. rewrite list_lookup_insert_ne in Hw' by done. eauto.
    + split.
      * simpl. rewrite (sumZ_insert _ _ _ w) by done.
        rewrite (Hcur cur eq_refl). unfold owed in *. simpl. rewrite Hpc.
        destruct (mutVal s); simpl in *; lia.
      * right. exists h, (mkWorker (remaining w) Stored).
        split; [done |]. simpl.
        split; [by apply list_lookup_insert_eq |].
        split; [done |]. split; [done |]. split; [done |].
        intros j w' Hj Hw'. rewrite list_lookup_insert_ne in Hw' by done. eauto.
    + split.
      * simpl. rewrite (sumZ_insert _ _ _ w) by done.
        unfold owed in *. simpl. rewrite Hpc. lia.
      * left. split; [done |]. simpl. intros j w' Hj.
        destruct (decide (j = h)) as [->|Hjh].
        -- rewrite list_lookup_insert_eq in Hj by done. by injection Hj as <-.
        -- rewrite list_lookup_insert_ne in Hj by done. eauto.
Qed.

Lemma run_Inv (total : Z) (schedule : list nat) (s : System) :
  Inv total s -> Inv total (run schedule s).
Proof.
  revert s. induction schedule as [|i schedule IH]; intros s Hinv; [done |].
  simpl. apply IH. by apply step_Inv.
Qed.

Lemma finished_owed (s : System) :
  finished s = true -> sumZ owed (workers s) = 0.
Proof.
  unfold finished. intros Hfin.
  rewrite (sumZ_all owed _ 0); [lia |].
  intros j w Hj. rewrite forallb_forall in Hfin.
  specialize (Hfin w). unfold owed.
  destruct (pc w), (remaining w); try done;
    exfalso; (assert (false = true) as Hf; [|discriminate Hf]);
    apply Hfin, list_elem_of_In; by eapply list_elem_of_lookup_2.
Qed.

Lemma unfinished_worker (s : System) :
  finished s = false ->
  exists j w, workers s !! j = Some w /\ (pc w <> Idle \/ remaining w <> O).
Proof.
  unfold finished. generalize (workers s). intros l.
  induction l as [|w l IH]; simpl; [done |].
  intros Hf. apply andb_false_iff in Hf as [Hw|Hl].
  - exists 0%nat, w. split; [done |].
    destruct (pc w); [|by left..]. right. by destruct (remaining w).
  - destruct (IH Hl) as (j & w' & Hj & Hw'). by exists (S j), w'.
Qed.

Lemma effort_nonneg (total : Z) (s : System) :
  Inv total s -> 0 <= sumZ effort (workers s).
Proof.
  intros [_ Hshape]. apply sumZ_nonneg. intros j x Hj. unfold effort.
  destruct Hshape as [[_ Hidle]|(h & w & _ & Hw & _ & Hrem & _ & Hothers)].
  - rewrite (Hidle j x Hj). lia.
  - destruct (decide (j = h)) as [->|Hne].
    + rewrite Hw in Hj. injection Hj as <-. destruct (pc w); lia.
    + rewrite (Hothers j x Hne Hj). lia.
Qed.

(** While some call is outstanding, some worker can move. *)
Lemma progress (total : Z) (s : System) :
  Inv total s -> finished s = false ->
  exists i, sumZ effort (workers (step i s)) = sumZ effort (workers s) - 1.
Proof.
  intros [_ Hshape] Hfin.
  destruct Hshape as [[Hlock Hidle]|(h & w & Hlock & Hw & Hbusy & Hrem & _ & _)].
  - destruct (unfinished_worker s Hfin) as (j & w & Hj & Hw).
    destruct Hw as [Hw|Hw]; [by rewrite (Hidle j w Hj) in Hw |].
    exists j. unfold step. rewrite Hj, (Hidle j w Hj), Hlock.
    destruct (remaining w) as [|r] eqn:Hr; [done |]. simpl.
    rewrite (sumZ_insert _ _ _ w) by done.
    unfold effort. simpl. rewrite (Hidle j w Hj), Hr. lia.
  - exists h. unfold step. rewrite Hw.
    destruct (pc w) eqn:Hpc; [done | | |]; simpl;
      rewrite (sumZ_insert _ _ _ w) by done;
      unfold effort; simpl; rewrite Hpc; lia.
Qed.

Lemma can_finish (total : Z) (n : nat) (s : System) :
  Inv total s -> sumZ effort (workers s) <= Z.of_nat n ->
  exists schedule, finished (run schedule s) = true.
Proof.
  revert s. induction n as [|n IH]; intros s Hinv Hle;
    (destruct (finished s) eqn:Hfin; [by exists [] |]);
    destruct (progress total s Hinv Hfin) as [i Hi];
    pose proof (effort_nonneg total _ (step_Inv total i s Hinv)) as Hpos.
  - lia.
  - destruct (IH (step i s)) as [schedule Hs]; [by apply step_Inv | lia |].
    by exists (i :: schedule).
Qed.

(** C2.  [N] workers call [GetSetMutableValue] with the flag unset and the
    incrementing callback [K] times each, on one node, their steps
    interleaved in any order.  Some interleaving completes every call, and
    whenever every call is completed the node stores [N * K]. *)
Theorem no_lost_updates (N K : nat) :
  (exists schedule, finished (run schedule (start N K)) = true)
  /\ forall schedule,
       finished (run schedule (start N K)) = true ->
       MutableValue (mutVal (run schedule (start N K))) 0
       = Z.of_nat N * Z.of_nat K.
Proof.
  split.
  - apply (can_finish (Z.of_nat N * Z.of_nat K)
                      (Z.to_nat (sumZ effort (workers (start N K)))));
      [apply start_Inv |].
    pose proof (effort_nonneg _ _ (start_Inv N K)). lia.
  - intros schedule Hfin.
    destruct (run_Inv _ schedule _ (start_Inv N K)) as [Hbal _].
    rewrite (finished_owed _ Hfin) in Hbal. lia.
Qed.

(** Two workers, two calls each, their steps interleaved; a worker that
    finds the lock taken does not move. *)
Lemma no_lost_updates_witness :
  MutableValue
    (mutVal (run [0; 1; 0; 0; 1; 0; 1; 0; 1; 1; 1; 0; 0; 0; 0; 1; 1; 1; 1]%nat
                 (start 2 2))) 0
  = Z.of_nat 2 * Z.of_nat 2.
Proof.
  destruct (no_lost_updates 2 2) as [_ Hall]. apply Hall. reflexivity.
Defined.

(** Without the lock the same callers lose updates: both read the empty
    node, both store 1. *)
Lemma unlocked_loses_updates :
  finished (run_unlocked [0; 1; 0; 1; 0; 1; 0; 1]%nat (start 2 1)) = true
  /\ mutVal (run_unlocked [0; 1; 0; 1; 0; 1; 0; 1]%nat (start 2 1)) = Some 1.
Proof. split; reflexivity. Qed.

End Concurrency.

(** ** The model on the declarations of the CLI tests *)

(** [foo:int=5], [bar:bool], [baz:string], required [baz2] and [baz3], and
    the arguments [--baz2=x --baz3=y]: [Populate] succeeds, the defaults
    stay and the two required targets are filled. *)
Lemma Populate_defaults_and_required :
  (@Populate sampleEnv ascending descending (mkContext testParams [])
     (Some (@cliSource sampleEnv (fun _ => descending) []
              (mkSourceCLI (Some ["--baz2=x"; "--baz3=y"]) false)))
     testStore).1 = Returned None
  /\ map (@Populate sampleEnv ascending descending (mkContext testParams [])
            (Some (@cliSource sampleEnv (fun _ => descending) []
                     (mkSourceCLI (Some ["--baz2=x"; "--baz3=y"]) false)))
            testStore).2
         [Into pFoo; Into pBar; Into pBaz; Into pBaz2; Into pBaz3]
     = [VInt 5; VBool false; VString "baz"; VString "x"; VString "y"].
Proof. split; vm_compute; reflexivity. Qed.

(** Both forms of a value, and a bare bool flag. *)
Lemma Populate_both_forms :
  map (@Populate sampleEnv descending ascending (mkContext testParams [])
         (Some (@cliSource sampleEnv (fun _ => ascending) []
                  (mkSourceCLI (Some ["--foo"; "12"; "--bar"; "--baz2=x"; "--baz3"; "y"])
                               false)))
         testStore).2
      [Into pFoo; Into pBar; Into pBaz; Into pBaz2; Into pBaz3]
  = [VInt 12; VBool true; VString "baz"; VString "x"; VString "y"].
Proof. vm_compute; reflexivity. Qed.

(** * Further properties of the code *)

Local Open Scope list_scope.

(** ** mcfg.go: the order of sortParams *)

Lemma str_lt_tie (a b : string) : str_lt a b = false -> str_lt b a = false -> a = b.
Proof. rewrite !str_lt_false. intros. by apply (anti_symm String.le). Qed.

Lemma pathLess_tie a b na nb :
  pathLess a b na nb = false -> pathLess b a nb na = false -> a = b /\ na = nb.
Proof.
  revert b. induction a as [|x a IH]; intros [|y b]; simpl; try done.
  - intros H1 H2. split; [done |]. by apply str_lt_tie.
  - destruct (String.eqb_spec x y) as [->|Hne]; simpl.
    + rewrite String.eqb_refl. simpl. intros H1 H2.
      destruct (IH b H1 H2) as [-> ->]. done.
    + destruct (String.eqb_spec y x) as [->|_]; [done |]. simpl.
      intros H1 H2. exfalso. apply Hne. by apply str_lt_tie.
Qed.

(** X1.  The [less] closure of [sortParams] is a strict weak order, as
    [sort.Slice] requires: no Param is less than itself, of two Params at
    most one is less than the other, less is transitive, and so is being
    not less; and two Params neither of which is less than the other have
    the same path and the same name. *)
Theorem paramLess_strict_weak_order (a b c : Param) :
  paramLess a a = false
  /\ (paramLess a b = true -> paramLess b a = false)
  /\ (paramLess a b = true -> paramLess b c = true -> paramLess a c = true)
  /\ (paramLess b a = false -> paramLess c b = false -> paramLess c a = false)
  /\ (paramLess a b = false -> paramLess b a = false ->
      Path a = Path b /\ Name a = Name b).
Proof.
  split; [unfold paramLess; by rewrite pathLess_same, str_lt_irrefl |].
  split; [apply paramLess_asym |].
  split; [|split].
  - intros Hab Hbc. destruct (paramLess a c) eqn:Hac; [done |].
    apply paramLess_asym in Hbc.
    pose proof (paramLess_trans b c a Hbc Hac) as Hba.
    unfold inOrder in Hba. congruence.
  - apply (paramLess_trans a b c).
  - apply pathLess_tie.
Qed.

Lemma NoDup_fmap_elem {A B} (f : A -> B) (l : list A) (x y : A) :
  NoDup (f <$> l) -> x ∈ l -> y ∈ l -> f x = f y -> x = y.
Proof.
  intros Hnd Hx Hy Hf.
  apply list_elem_of_lookup in Hx as [i Hi].
  apply list_elem_of_lookup in Hy as [j Hj].
  assert (i = j) as ->; [|congruence].
  eapply (NoDup_lookup _ _ _ _ Hnd).
  - by rewrite list_lookup_fmap, Hi.
  - by rewrite list_lookup_fmap, Hj, Hf.
Qed.

(** Sorting two arrangements of the same Params gives the same list when no
    two of them have the same path and name. *)
Lemma sortParams_arrangement (l l' : list Param) :
  l ≡ₚ l' -> NoDup ((fun p => (Path p, Name p)) <$> l) ->
  sortParams l = sortParams l'.
Proof.
  intros Hperm Hnd.
  apply (sorting.StronglySorted_unique_strong (inOrder paramLess));
    [|apply sortParams_sorted..|by rewrite !sortParams_perm].
  intros a b Ha Hb Hab Hba.
  rewrite sortParams_perm in Ha. rewrite sortParams_perm, <- Hperm in Hb.
  apply (NoDup_fmap_elem _ _ _ _ Hnd Ha Hb).
  destruct (pathLess_tie _ _ _ _ Hba Hab) as [-> ->]. done.
Qed.

Lemma flat_map_visit_perm (cs cs' : list Context) :
  cs ≡ₚ cs' -> flat_map visit cs ≡ₚ flat_map visit cs'.
Proof.
  induction 1 as [|c cs cs' _ IH|c1 c2 cs|cs1 cs2 cs3 _ IH1 _ IH2]; simpl.
  - done.
  - by rewrite IH.
  - rewrite !(assoc app). f_equiv. apply Permutation_app_comm.
  - by etrans.
Qed.

(** X2.  The collected list does not depend on the order in which the
    children of a context are visited, provided no two Params of the tree
    have the same path and name. *)
Theorem collectParams_children_order (localParams : list Param)
    (children children' : list Context) :
  children ≡ₚ children' ->
  NoDup ((fun p => (Path p, Name p)) <$> visit (mkContext localParams children)) ->
  collectParams (mkContext localParams children)
  = collectParams (mkContext localParams children').
Proof.
  intros Hperm Hnd. apply sortParams_arrangement; [|done].
  simpl. f_equiv. by apply flat_map_visit_perm.
Qed.

Lemma collectParams_children_order_witness :
  collectParams (mkContext [pFoo] twoChildren)
  = collectParams (mkContext [pFoo] (reverse twoChildren)).
Proof.
  apply collectParams_children_order.
  - apply Permutation_sym, reverse_Permutation.
  - vm_compute.
    repeat (apply list.NoDup_cons; split;
            [rewrite ?elem_of_cons, elem_of_nil; intros Hx;
             repeat destruct Hx as [Hx|Hx]; first [discriminate Hx | destruct Hx] |]).
    apply NoDup_nil_2.
Defined.

Lemma Context_forall_ind (P : Context -> Prop) :
  (forall localParams children,
     Forall P children -> P (mkContext localParams children)) ->
  forall ctx, P ctx.
Proof.
  intros Hstep. fix IH 1. intros [localParams children]. apply Hstep.
  induction children as [|c children IHc]; constructor; [apply IH | exact IHc].
Qed.

Lemma visit_declaredIn (ctx : Context) (p : Param) :
  p ∈ visit ctx <-> declaredIn ctx p.
Proof.
  revert p. induction ctx as [localParams children IH] using Context_forall_ind.
  intros p. simpl. rewrite elem_of_app. split.
  - intros [Hp|Hp]; [by constructor |].
    apply list_elem_of_In, in_flat_map in Hp as (c & Hc & Hp).
    apply list_elem_of_In in Hc, Hp.
    rewrite list.Forall_forall in IH.
    eapply declared_below; [done |]. by apply IH.
  - intros Hd. inversion Hd as [? ? ? Hp|? ? ? c Hc Hp]; subst; [by left |].
    right. apply list_elem_of_In, in_flat_map. exists c.
    rewrite list.Forall_forall in IH.
    split; apply list_elem_of_In; [done |]. by apply IH.
Qed.

(** X3.  [collectParams] returns the Params declared on the context and on
    its descendants, all of them and no others, and as many entries as the
    visit has gathered. *)
Theorem collectParams_complete (ctx : Context) (p : Param) :
  (p ∈ collectParams ctx <-> declaredIn ctx p)
  /\ length (collectParams ctx) = length (visit ctx).
Proof.
  split.
  - unfold collectParams. rewrite sortParams_perm. apply visit_declaredIn.
  - apply Permutation_length, sortParams_perm.
Qed.

(** ** cli.go: printHelp *)

Lemma helpLess_asym (a b : string * Param) :
  helpLess a b = true -> helpLess b a = false.
Proof.
  unfold helpLess. destruct (Required a.2), (Required b.2); simpl; try done.
  - intros H. apply str_lt_false. apply str_lt_true in H.
    destruct (total String.le a.1 b.1); [done | contradiction].
  - intros H. apply str_lt_false. apply str_lt_true in H.
    destruct (total String.le a.1 b.1); [done | contradiction].
Qed.

Lemma helpLess_trans (a b c : string * Param) :
  inOrder helpLess a b -> inOrder helpLess b c -> inOrder helpLess a c.
Proof.
  unfold inOrder, helpLess.
  destruct (Required a.2), (Required b.2), (Required c.2); simpl; try done;
    rewrite !str_lt_false; intros; by etrans.
Qed.

Lemma helpLess_tie (a b : string * Param) :
  helpLess a b = false -> helpLess b a = false ->
  a.1 = b.1 /\ Required a.2 = Required b.2.
Proof.
  unfold helpLess. destruct (Required a.2), (Required b.2); simpl; try done;
    intros H1 H2; split; try done; by apply str_lt_tie.
Qed.

Lemma helpEntries_sorted (R : RangeOrder) (pM : gmap string Param) :
  StronglySorted (inOrder helpLess) (helpEntries R pM).
Proof. apply sort_Slice_sorted; [apply helpLess_asym | apply helpLess_trans]. Qed.

Lemma helpEntries_perm (R : RangeOrder) (pM : gmap string Param) :
  helpEntries R pM ≡ₚ map_to_list pM.
Proof.
  unfold helpEntries.
  rewrite sort_Slice_perm by (apply helpLess_asym || apply helpLess_trans).
  apply range_perm.
Qed.

(** X4.  The help page lists every flag of the map once; a required option
    never comes after one that is not required, and of two options that
    are both required or both not, the one with the smaller flag comes
    first. *)
Theorem helpEntries_order (R : RangeOrder) (pM : gmap string Param)
    (i j : nat) (a b : string * Param) :
  (i < j)%nat ->
  helpEntries R pM !! i = Some a ->
  helpEntries R pM !! j = Some b ->
  pM !! a.1 = Some a.2 /\ pM !! b.1 = Some b.2
  /\ (Required b.2 = true -> Required a.2 = true)
  /\ (Required a.2 = Required b.2 -> str_lt a.1 b.1 = true)
  /\ length (helpEntries R pM) = size pM.
Proof.
  intros Hij Ha Hb.
  assert (forall e, e ∈ helpEntries R pM -> pM !! e.1 = Some e.2) as Hin.
  { intros [k p] He. rewrite helpEntries_perm in He.
    by apply elem_of_map_to_list in He. }
  assert (helpLess b a = false) as Hord
    by (eapply (StronglySorted_lookup (inOrder helpLess));
        eauto using helpEntries_sorted).
  split; [apply Hin; by eapply list_elem_of_lookup_2 |].
  split; [apply Hin; by eapply list_elem_of_lookup_2 |].
  split; [|split].
  - unfold helpLess in Hord.
    destruct (Required a.2), (Required b.2); simpl in *; done.
  - intros Hreq. apply str_lt_total.
    + intros Heq.
      assert (a = b) as ->.
      { destruct a as [k p], b as [k' p']. simpl in *. subst k'.
        pose proof (Hin (k, p) ltac:(by eapply list_elem_of_lookup_2)) as H1.
        pose proof (Hin (k, p') ltac:(by eapply list_elem_of_lookup_2)) as H2.
        simpl in *. congruence. }
      assert (NoDup (helpEntries R pM)) as Hnd
        by (rewrite helpEntries_perm; apply NoDup_map_to_list).
      pose proof (NoDup_lookup _ _ _ _ Hnd Ha Hb). lia.
    + unfold helpLess in Hord. rewrite Hreq in Hord.
      by destruct (Required b.2).
  - rewrite helpEntries_perm. apply length_map_to_list.
Qed.

(** X5.  What [printHelp] writes does not depend on the order in which the
    [range] walks the map of flags. *)
Theorem printHelp_order_independent `{Env} `{Reflect} (R R' : RangeOrder)
    (pM : gmap string Param) (store : Store) :
  printHelp R pM store = printHelp R' pM store.
Proof.
  unfold printHelp. f_equal.
  apply (sorting.StronglySorted_unique_strong (inOrder helpLess));
    [|apply helpEntries_sorted..|by rewrite !helpEntries_perm].
  intros [k p] [k' p'] Ha Hb Hab Hba.
  rewrite helpEntries_perm in Ha, Hb.
  apply elem_of_map_to_list in Ha, Hb.
  destruct (helpLess_tie _ _ Hba Hab) as [Hk _]. simpl in Hk. subst k'.
  congruence.
Qed.

Lemma helpEntries_order_witness :
  cliParams testParams !! "--baz2" = Some pBaz2
  /\ cliParams testParams !! "--bar" = Some pBar
  /\ (Required pBar = true -> Required pBaz2 = true)
  /\ (Required pBaz2 = Required pBar -> str_lt "--baz2" "--bar" = true)
  /\ length (helpEntries ascending (cliParams testParams)) = size (cliParams testParams).
Proof.
  apply (helpEntries_order ascending (cliParams testParams) 0 2
           ("--baz2", pBaz2) ("--bar", pBar));
    [lia | vm_compute; reflexivity | vm_compute; reflexivity].
Defined.

(** The order in which the help of the CLI tests lists the options. *)
Lemma helpEntries_test_order :
  (helpEntries descending (cliParams testParams)).*1
  = ["--baz2"; "--baz3"; "--bar"; "--baz"; "--foo"].
Proof. vm_compute. reflexivity. Qed.

(** ** cli.go: the loop of Parse *)

Lemma matchArg_cases (arg : string) (entries : list (string * Param)) (st : ParseState) :
  (pvOk (matchArg arg entries st) = pvOk st
   /\ forall k p, (k, p) ∈ entries -> matches arg k = false)
  \/ exists k p, (k, p) ∈ entries /\ matches arg k = true
                 /\ matchArg arg entries st = matched arg k p st.
Proof.
  revert st. induction entries as [|[k p] entries IH]; intros st; simpl.
  - left. split; [done |]. intros k p Hin. by apply elem_of_nil in Hin.
  - destruct (matches arg k) eqn:Hm.
    + right. exists k, p. split; [left |]. split; [done |].
      unfold matched. unfold matches in Hm.
      destruct (String.eqb arg k); simpl; [done |].
      simpl in Hm. by rewrite Hm.
    + pose proof Hm as Hm'. unfold matches in Hm'.
      apply orb_false_iff in Hm' as [Heq Hpre]. rewrite Heq, Hpre. simpl.
      destruct (IH (mkParseState k (setParam (pv st) p) (pvOk st)
                                 (pvStrVal st) (pvStrValOk st)))
        as [[Hok Hnone]|(k' & p' & Hin & Hm' & Hres)].
      * left. split; [done |].
        intros k' p' Hin. apply elem_of_cons in Hin as [[= -> ->]|Hin]; eauto.
      * right. exists k', p'. split; [by right |]. split; [done |].
        rewrite Hres. unfold matched. simpl. done.
Qed.

Section ParseLoop.

Context `{Env} (cli : SourceCLI) (pM : gmap string Param).

(** What one more argument leads to, between two arguments. *)
Lemma parseArg_between (R : RangeOrder) (st : ParseState)
    (pvs : list ParamValue) (arg : string) (st' : ParseState)
    (pvs' : list ParamValue) :
  betweenArgs pM st ->
  parseArg R cli pM st pvs arg = Next st' pvs' ->
  betweenArgs pM st'
  /\ (pvs' = pvs
      \/ exists k p raw, pM !! k = Some p /\ pvs' = pvs ++ [mkParamValue p raw]).
Proof.
  intros [->|(k & p & Hk & Hbool & ->)]; unfold parseArg, scanArg; simpl.
  - destruct (negb (DisableHelpPage cli) && String.eqb arg cliHelpArg); [done |].
    destruct (matchArg_cases arg (range R pM) initParseState)
      as [[Hok _]|(k & p & Hin & Hm & ->)].
    + simpl in Hok. by rewrite Hok.
    + apply elem_of_range in Hin.
      unfold matched. destruct (String.eqb arg k) eqn:Heq; simpl; unfold fillArg; simpl.
      * destruct (IsBool p) eqn:Hbool; simpl.
        -- intros [= <- <-]. split; [by left |]. right. eauto.
        -- intros [= <- <-]. split; [|by left].
           right. exists k, p. done.
      * rewrite andb_false_r. intros [= <- <-]. split; [by left |]. right. eauto.
  - unfold fillArg. simpl. rewrite Hbool. simpl.
    intros [= <- <-]. split; [by left |]. right. eauto.
Qed.

Lemma parseArgs_between (Rs : nat -> RangeOrder) (i : nat) (st : ParseState)
    (pvs : list ParamValue) (args : list string) (st' : ParseState)
    (pvs' : list ParamValue) :
  betweenArgs pM st ->
  parseArgs Rs cli pM i st pvs args = Next st' pvs' ->
  betweenArgs pM st'
  /\ exists new, pvs' = pvs ++ new
                 /\ (length new <= length args)%nat
                 /\ Forall (fun v => exists k, pM !! k = Some (pvParam v)) new.
Proof.
  revert i st pvs. induction args as [|arg args IH]; intros i st pvs Hst; simpl.
  - intros [= <- <-]. split; [done |]. exists []. by rewrite app_nil_r.
  - destruct (parseArg (Rs i) cli pM st pvs arg) as [st1 pvs1| |] eqn:Harg; try done.
    intros Hrest.
    destruct (parseArg_between _ _ _ _ _ _ Hst Harg) as [Hst1 Hpvs1].
    destruct (IH _ _ _ Hst1 Hrest) as (Hst' & new & -> & Hlen & Hall).
    split; [done |].
    destruct Hpvs1 as [->|(k & p & raw & Hk & ->)].
    + exists new. split; [done |]. split; [lia | done].
    + exists (mkParamValue p raw :: new). split; [by rewrite <- (assoc app) |].
      split; [simpl; lia |]. constructor; [by exists k | done].
Qed.

Lemma parseArg_prepend (R : RangeOrder) (st : ParseState)
    (pvs0 pvs : list ParamValue) (arg : string) :
  parseArg R cli pM st (pvs0 ++ pvs) arg
  = prepend pvs0 (parseArg R cli pM st pvs arg).
Proof.
  unfold parseArg, scanArg.
  destruct (pvOk st); simpl.
  - unfold fillArg. simpl.
    repeat (match goal with |- context [if ?b then _ else _] => destruct b end;
            simpl; rewrite <- ?(assoc app); try done).
  - destruct (negb (DisableHelpPage cli) && String.eqb arg cliHelpArg); [done |].
    destruct (negb (pvOk (matchArg arg (range R pM) st))); [done |].
    unfold fillArg.
    repeat (match goal with |- context [if ?b then _ else _] => destruct b end;
            simpl; rewrite <- ?(assoc app); try done).
Qed.

Lemma parseArgs_prepend (Rs : nat -> RangeOrder) (i : nat) (st : ParseState)
    (pvs0 pvs : list ParamValue) (args : list string) :
  parseArgs Rs cli pM i st (pvs0 ++ pvs) args
  = prepend pvs0 (parseArgs Rs cli pM i st pvs args).
Proof.
  revert i st pvs. induction args as [|arg args IH]; intros i st pvs; simpl; [done |].
  rewrite parseArg_prepend.
  destruct (parseArg (Rs i) cli pM st pvs arg); simpl; [apply IH | done..].
Qed.

Lemma parseArgs_shift (Rs Rs' : nat -> RangeOrder) (i i' : nat) (st : ParseState)
    (pvs : list ParamValue) (args : list string) :
  (forall j, Rs (i + j)%nat = Rs' (i' + j)%nat) ->
  parseArgs Rs cli pM i st pvs args = parseArgs Rs' cli pM i' st pvs args.
Proof.
  revert i i' st pvs. induction args as [|arg args IH]; intros i i' st pvs Hrs; simpl;
    [done |].
  pose proof (Hrs 0%nat) as H0. rewrite !Nat.add_0_r in H0. rewrite H0.
  destruct (parseArg (Rs' i') cli pM st pvs arg); [|done..].
  apply IH. intros j. specialize (Hrs (S j)).
  by rewrite !Nat.add_succ_r in Hrs.
Qed.

Lemma parseArgs_app (Rs : nat -> RangeOrder) (i : nat) (st : ParseState)
    (pvs : list ParamValue) (args1 args2 : list string) :
  parseArgs Rs cli pM i st pvs (args1 ++ args2)
  = match parseArgs Rs cli pM i st pvs args1 with
    | Next st' pvs' => parseArgs Rs cli pM (i + length args1) st' pvs' args2
    | other => other
    end.
Proof.
  revert i st pvs. induction args1 as [|arg args1 IH]; intros i st pvs; simpl.
  - by rewrite Nat.add_0_r.
  - destruct (parseArg (Rs i) cli pM st pvs arg); [|done..].
    rewrite IH. by rewrite Nat.add_succ_r.
Qed.

End ParseLoop.

Section ParseResults.

Context `{Env} (Rs : nat -> RangeOrder) (noHelp : bool) (params : list Param).

Lemma betweenArgs_init : betweenArgs (cliParams params) initParseState.
Proof. by left. Qed.

(** [Parse] returns values exactly when the loop ends between two flags. *)
Lemma parseOf_Parsed (args : list string) (pvs : list ParamValue) :
  parseOf Rs noHelp params args = Parsed pvs <->
  parseArgs Rs (mkSourceCLI (Some args) noHelp) (cliParams params) 0
            initParseState [] args = Next initParseState pvs.
Proof.
  unfold parseOf, Parse. simpl. split.
  - destruct (parseArgs _ _ _ _ _ _ _) as [st pvs'| |] eqn:Hloop; try done.
    destruct (parseArgs_between _ _ _ _ _ _ _ _ _ betweenArgs_init Hloop)
      as [[->|(k & p & _ & _ & ->)] _]; simpl; [|done].
    by intros [= ->].
  - by intros ->.
Qed.

Lemma parseArgs_cli (cli cli' : SourceCLI) (i : nat) (st : ParseState)
    (pvs : list ParamValue) (args : list string) :
  DisableHelpPage cli = DisableHelpPage cli' ->
  parseArgs Rs cli (cliParams params) i st pvs args
  = parseArgs Rs cli' (cliParams params) i st pvs args.
Proof.
  intros Hd. revert i st pvs. induction args as [|arg args IH]; intros i st pvs;
    simpl; [done |].
  unfold parseArg, scanArg. rewrite Hd.
  destruct (pvOk st); simpl.
  - destruct (fillArg _ _); [apply IH | done..].
  - destruct (negb (DisableHelpPage cli') && String.eqb arg cliHelpArg); [done |].
    destruct (negb (pvOk (matchArg arg (range (Rs i) (cliParams params)) st)));
      [done |].
    destruct (fillArg _ _); [apply IH | done..].
Qed.

(** X6.  The values [Parse] returns are values of declared Params, each
    the entry of its flag in the map of flags, and there are at most as
    many as arguments; [populate] therefore finds a declared Param for
    every one of them. *)
Theorem Parse_values_declared (args : list string) (pvs : list ParamValue) :
  parseOf Rs noHelp params args = Parsed pvs ->
  (length pvs <= length args)%nat
  /\ forall v, v ∈ pvs ->
       pvParam v ∈ params
       /\ cliParams params !! cliKey (pvParam v) = Some (pvParam v)
       /\ forall pM, hashParams params ∅ = inr pM -> is_Some (pM !! pvHash v).
Proof.
  intros Hparsed. apply parseOf_Parsed in Hparsed.
  destruct (parseArgs_between _ _ _ _ _ _ _ _ _ betweenArgs_init Hparsed)
    as (_ & new & Hnew & Hlen & Hall).
  simpl in Hnew. subst new. split; [done |].
  intros v Hv. rewrite list.Forall_forall in Hall.
  destruct (Hall v Hv) as [k Hk].
  destruct (cliParams_Some _ _ _ Hk) as [Hin ->].
  split; [done |]. split; [done |].
  intros pM HpM. exists (pvParam v). by apply (hashParams_entry params).
Qed.

Lemma parseOf_app (args1 args2 : list string) (pvs1 : list ParamValue) :
  parseOf Rs noHelp params args1 = Parsed pvs1 ->
  parseArgs Rs (mkSourceCLI (Some (args1 ++ args2)) noHelp) (cliParams params) 0
            initParseState [] (args1 ++ args2)
  = prepend pvs1
      (parseArgs (fun j => Rs (length args1 + j)%nat)
                 (mkSourceCLI (Some args2) noHelp) (cliParams params) 0
                 initParseState [] args2).
Proof.
  intros Hparsed. apply parseOf_Parsed in Hparsed.
  rewrite parseArgs_app.
  rewrite (parseArgs_cli _ (mkSourceCLI (Some args1) noHelp)) by done.
  rewrite Hparsed. simpl.
  rewrite <- (app_nil_r pvs1) at 1. rewrite parseArgs_prepend. f_equal.
  rewrite (parseArgs_cli _ (mkSourceCLI (Some args2) noHelp)) by done.
  apply parseArgs_shift. intros j. by rewrite Nat.add_0_l.
Qed.

(** X7.  Arguments that parse into values can be followed by more: the
    result for the whole is the result for the rest with the values of the
    first part put before it. *)
Theorem Parse_concatenation (args1 args2 : list string) (pvs1 : list ParamValue) :
  parseOf Rs noHelp params args1 = Parsed pvs1 ->
  parseOf Rs noHelp params (args1 ++ args2)
  = match parseOf (fun j => Rs (length args1 + j)%nat) noHelp params args2 with
    | Parsed pvs2 => Parsed (pvs1 ++ pvs2)
    | other => other
    end.
Proof.
  intros Hparsed. unfold parseOf at 1 2. unfold Parse. simpl.
  rewrite (parseOf_app _ _ _ Hparsed).
  destruct (parseArgs _ _ _ _ _ _ args2) as [st pvs2| |]; simpl; [|done..].
  by destruct (pvOk st && negb (pvStrValOk st)).
Qed.

(** X8.  After arguments that parse into values, an argument that names
    no flag ends [Parse] whatever follows it: with the help page enabled
    and the argument [-h] the process exits with status 1, otherwise
    [Parse] fails with "unexpected config parameter" and the argument.  In
    particular [-h] is an unexpected parameter when the help page is
    disabled. *)
Theorem Parse_stops_at_unknown (args1 rest : list string) (pvs1 : list ParamValue)
    (v : string) :
  parseOf Rs noHelp params args1 = Parsed pvs1 ->
  ((forall k p, cliParams params !! k = Some p -> matches v k = false) ->
   parseOf Rs noHelp params (args1 ++ v :: rest)
   = if negb noHelp && String.eqb v cliHelpArg then ParseExited 1
     else ParseFailed (errUnexpected v))
  /\ parseOf Rs noHelp params (args1 ++ cliHelpArg :: rest)
     = if noHelp then ParseFailed (errUnexpected cliHelpArg) else ParseExited 1.
Proof.
  intros Hparsed.
  assert (forall u,
            (forall k p, cliParams params !! k = Some p -> matches u k = false) ->
            parseOf Rs noHelp params (args1 ++ u :: rest)
            = if negb noHelp && String.eqb u cliHelpArg then ParseExited 1
              else ParseFailed (errUnexpected u)) as Hgen.
  { intros u Hu. unfold parseOf at 1. unfold Parse. simpl.
    rewrite (parseOf_app _ _ _ Hparsed). simpl.
    unfold parseArg, scanArg. simpl.
    destruct (negb noHelp && String.eqb u cliHelpArg); [done |].
    rewrite matchArg_none; [done |].
    intros k p Hin. apply elem_of_range in Hin. eauto. }
  split; [apply Hgen |].
  rewrite Hgen.
  - by destruct noHelp.
  - intros k p Hk. by apply (matches_dashes params _ _ p).
Qed.

End ParseResults.

Section ValueFlag.

Context `{Env} (Rs : nat -> RangeOrder) (noHelp : bool) (params : list Param).
Context (flag : string) (p : Param).
Hypothesis Hsep : noSeparator params.
Hypothesis Hflag : cliParams params !! flag = Some p.
Hypothesis Hvalue : IsBool p = false.

Lemma parseArg_flag_waits (cli : SourceCLI) (i : nat) (pvs : list ParamValue) :
  parseArg (Rs i) cli (cliParams params) initParseState pvs flag
  = Next (awaiting flag p) pvs.
Proof.
  unfold parseArg.
  rewrite (scanArg_found _ cli params _ pvs flag flag p); try done.
  - unfold matched. rewrite String.eqb_refl. unfold fillArg. simpl.
    by rewrite Hvalue.
  - unfold matches. by rewrite String.eqb_refl.
  - rewrite <- (string_app_nil_r flag). by apply (flag_not_help cli params flag p).
Qed.

Lemma parseArg_value_taken (cli : SourceCLI) (R : RangeOrder)
    (pvs : list ParamValue) (v : string) :
  parseArg R cli (cliParams params) (awaiting flag p) pvs v
  = Next initParseState (pvs ++ [mkParamValue p (fuzzyParse p v)]).
Proof. unfold parseArg, scanArg, fillArg. simpl. by rewrite Hvalue. Qed.

Lemma parseArg_value_equals (cli : SourceCLI) (i : nat) (pvs : list ParamValue)
    (v : string) :
  parseArg (Rs i) cli (cliParams params) initParseState pvs (flag +:+ cliValSep +:+ v)
  = Next initParseState (pvs ++ [mkParamValue p (fuzzyParse p v)]).
Proof.
  unfold parseArg.
  rewrite (scanArg_found _ cli params _ pvs _ flag p); try done.
  - unfold matched. rewrite eqb_app_sep.
    rewrite <- string_app_assoc, TrimPrefix_app.
    unfold fillArg. simpl. by rewrite Hvalue.
  - apply matches_spec. eauto.
  - by apply (flag_not_help cli params flag p).
Qed.

End ValueFlag.

(** X9.  Let no flag contain the value separator and let [p], not a bool,
    be the Param the map of flags holds under [flag].  Then [flag v] and
    [flag=v] yield the same ParamValue, whose value is [v] as [fuzzyParse]
    renders it; in the first form the argument after the flag is its value
    whatever it is, the help flag and the flags of other Params included;
    and a flag at the end of arguments that parse into values, with no
    value after it, makes [Parse] fail with "param expected a value" and
    the flag. *)
Theorem value_flag_forms `{Env} (Rs : nat -> RangeOrder) (noHelp : bool)
    (params : list Param) (flag : string) (p : Param) :
  noSeparator params ->
  cliParams params !! flag = Some p ->
  IsBool p = false ->
  (forall cli i pvs v rest,
     parseArgs Rs cli (cliParams params) i initParseState pvs (flag :: v :: rest)
     = parseArgs Rs cli (cliParams params) (S (S i)) initParseState
                 (pvs ++ [mkParamValue p (fuzzyParse p v)]) rest)
  /\ (forall cli i pvs v rest,
        parseArgs Rs cli (cliParams params) i initParseState pvs
                  ((flag +:+ cliValSep +:+ v) :: rest)
        = parseArgs Rs cli (cliParams params) (S i) initParseState
                    (pvs ++ [mkParamValue p (fuzzyParse p v)]) rest)
  /\ (forall v,
        parseOf Rs noHelp params [flag; v]
        = Parsed [mkParamValue p (fuzzyParse p v)]
        /\ parseOf Rs noHelp params [flag +:+ cliValSep +:+ v]
           = Parsed [mkParamValue p (fuzzyParse p v)])
  /\ (forall args pvs,
        parseOf Rs noHelp params args = Parsed pvs ->
        parseOf Rs noHelp params (args ++ [flag])
        = ParseFailed (errExpectedValue flag)).
Proof.
  intros Hsep Hflag Hvalue. split; [|split; [|split]].
  - intros cli i pvs v rest. simpl.
    rewrite (parseArg_flag_waits Rs params flag p) by done.
    by rewrite (parseArg_value_taken params flag p).
  - intros cli i pvs v rest. simpl.
    by rewrite (parseArg_value_equals Rs params flag p).
  - intros v. unfold parseOf, Parse. simpl.
    rewrite (parseArg_flag_waits Rs params flag p) by done.
    rewrite (parseArg_value_taken params flag p) by done.
    by rewrite (parseArg_value_equals Rs params flag p).
  - intros args pvs Hparsed. unfold parseOf at 1. unfold Parse. simpl.
    rewrite (parseOf_app _ _ _ _ _ _ Hparsed). simpl.
    by rewrite (parseArg_flag_waits _ params flag p).
Qed.

Lemma value_flag_forms_witness :
  @parseOf sampleEnv (fun _ => ascending) false testParams ["--foo"; "-h"]
  = Parsed [mkParamValue pFoo "-h"]
  /\ @parseOf sampleEnv (fun _ => ascending) false testParams ["--foo=12"]
     = Parsed [mkParamValue pFoo "12"]
  /\ @parseOf sampleEnv (fun _ => ascending) false testParams
              (["--bar"] ++ ["--foo"])
     = ParseFailed (errExpectedValue "--foo").
Proof.
  destruct (@value_flag_forms sampleEnv (fun _ => ascending) false testParams
              "--foo" pFoo) as (_ & _ & Hforms & Hlast).
  - apply noSeparator_Forall. repeat constructor.
  - reflexivity.
  - reflexivity.
  - split; [exact (proj1 (Hforms "-h")) |].
    split; [exact (proj2 (Hforms "12")) |].
    apply (Hlast ["--bar"] [mkParamValue pBar "true"]). reflexivity.
Defined.

Lemma Parse_values_declared_witness :
  (length [mkParamValue pFoo "5"; mkParamValue pBar "true"] <= length ["--foo"; "5"; "--bar"])%nat
  /\ forall v, v ∈ [mkParamValue pFoo "5"; mkParamValue pBar "true"] ->
       pvParam v ∈ testParams
       /\ cliParams testParams !! cliKey (pvParam v) = Some (pvParam v)
       /\ forall pM, @hashParams sampleEnv testParams ∅ = inr pM ->
                     is_Some (pM !! @pvHash sampleEnv v).
Proof.
  apply (@Parse_values_declared sampleEnv (fun _ => ascending) false testParams
           ["--foo"; "5"; "--bar"]).
  reflexivity.
Defined.

Lemma Parse_concatenation_witness :
  @parseOf sampleEnv (fun _ => ascending) false testParams (["--foo"; "5"] ++ ["--bar"])
  = Parsed ([mkParamValue pFoo "5"] ++ [mkParamValue pBar "true"]).
Proof.
  rewrite (@Parse_concatenation sampleEnv (fun _ => ascending) false testParams
             ["--foo"; "5"] ["--bar"] [mkParamValue pFoo "5"]);
    reflexivity.
Defined.

Lemma Parse_stops_at_unknown_witness :
  @parseOf sampleEnv (fun _ => ascending) false testParams
           (["--foo"; "5"] ++ "stray" :: ["--bar"])
  = ParseFailed (errUnexpected "stray")
  /\ @parseOf sampleEnv (fun _ => ascending) true testParams
              (["--foo"; "5"] ++ cliHelpArg :: ["--bar"])
     = ParseFailed (errUnexpected cliHelpArg).
Proof.
  destruct (@Parse_stops_at_unknown sampleEnv (fun _ => ascending) false testParams
              ["--foo"; "5"] ["--bar"] [mkParamValue pFoo "5"] "stray" eq_refl)
    as [Hstray _].
  destruct (@Parse_stops_at_unknown sampleEnv (fun _ => ascending) true testParams
              ["--foo"; "5"] ["--bar"] [mkParamValue pFoo "5"] "stray" eq_refl)
    as [_ Hhelp].
  split; [|exact Hhelp].
  apply Hstray. intros k q Hk. by apply (matches_dashes testParams _ _ q).
Defined.

(** ** mcfg.go: what populate writes *)

Section PopulateWrites.

Context `{Env}.

Implicit Types (params : list Param) (pM : gmap string Param)
  (pvs : list ParamValue) (store : Store)
  (entries : list (string * ParamValue)).

Lemma separate_tail pM e entries : separate pM (e :: entries) -> separate pM entries.
Proof.
  intros (Hnd & Hsome & Hsep). split; [|split].
  - rewrite fmap_cons in Hnd. by apply list.NoDup_cons in Hnd as [_ Hnd].
  - intros h pv Hin. eapply Hsome. by right.
  - intros h1 h2 pv1 pv2 p1 p2 H1 H2.
    apply (Hsep h1 h2 pv1 pv2 p1 p2); by right.
Qed.

Lemma separate_perm pM entries entries' :
  entries ≡ₚ entries' -> separate pM entries -> separate pM entries'.
Proof.
  intros Hperm (Hnd & Hsome & Hsep). split; [|split].
  - by rewrite <- Hperm.
  - intros h pv Hin. rewrite <- Hperm in Hin. eauto.
  - intros h1 h2 pv1 pv2 p1 p2 H1 H2. rewrite <- Hperm in H1, H2.
    by apply (Hsep h1 h2 pv1 pv2 p1 p2).
Qed.

Lemma separate_head_target pM h pv p entries h' pv' p' :
  separate pM ((h, pv) :: entries) -> pM !! h = Some p ->
  (h', pv') ∈ entries -> pM !! h' = Some p' -> Into p' ≠ Into p.
Proof.
  intros (Hnd & _ & Hsep) Hp Hin Hp' Heq.
  assert (h' = h) as ->.
  { eapply (Hsep h' h pv' pv p' p); [by right | left | done..]. }
  rewrite fmap_cons in Hnd. apply list.NoDup_cons in Hnd as [Hnotin _].
  apply Hnotin. apply list_elem_of_fmap. by exists (h, pv').
Qed.

(** When the writes succeed, each target holds what its value decodes to
    against what the target held at the start. *)
Lemma unmarshalAll_decoded entries pM store store' :
  separate pM entries ->
  unmarshalAll entries pM store = (None, store') ->
  forall h pv p, (h, pv) ∈ entries -> pM !! h = Some p ->
    json_Unmarshal (Value pv) (store (Into p)) = (store' (Into p), None).
Proof.
  revert store. induction entries as [|[h0 pv0] entries IH]; intros store Hsep Hrun.
  - intros h pv p Hin. by apply elem_of_nil in Hin.
  - simpl in Hrun. destruct (pM !! h0) as [p0|] eqn:Hp0; [|done].
    destruct (json_Unmarshal (Value pv0) (store (Into p0))) as [v [e|]] eqn:Hdec;
      [done |].
    intros h pv p Hin Hp. apply elem_of_cons in Hin as [[= -> ->]|Hin].
    + rewrite Hp0 in Hp. injection Hp as <-. rewrite Hdec. f_equal.
      assert (store' (Into p0) = (<[Into p0 := v]> store) (Into p0)) as ->.
      { change store' with (None (A:=error), store').2. rewrite <- Hrun.
        apply unmarshalAll_frame. intros h' pv' p' Hin' Hp'.
        by apply (separate_head_target pM h0 pv0 p0 entries h' pv' p'). }
      by rewrite fn_lookup_insert.
    + rewrite <- (IH _ (separate_tail _ _ _ Hsep) Hrun h pv p Hin Hp).
      f_equal. rewrite fn_lookup_insert_ne; [done |].
      intros Heq. symmetry in Heq. revert Heq.
      by apply (separate_head_target pM h0 pv0 p0 entries h pv p).
Qed.

(** The writes succeed as soon as every value decodes against what its
    target held at the start. *)
Lemma unmarshalAll_succeeds entries pM store :
  separate pM entries ->
  (forall h pv p, (h, pv) ∈ entries -> pM !! h = Some p ->
     (json_Unmarshal (Value pv) (store (Into p))).2 = None) ->
  (unmarshalAll entries pM store).1 = None.
Proof.
  revert store. induction entries as [|[h0 pv0] entries IH]; intros store Hsep Hall;
    [done |].
  simpl. destruct (Hsep) as (_ & Hsome & _).
  destruct (Hsome h0 pv0) as [p0 Hp0]; [left |]. rewrite Hp0.
  pose proof (Hall h0 pv0 p0 ltac:(left) Hp0) as Hdec.
  destruct (json_Unmarshal (Value pv0) (store (Into p0))) as [v e] eqn:Hjson.
  simpl in Hdec. subst e.
  apply IH; [by eapply separate_tail |].
  intros h pv p Hin Hp. rewrite fn_lookup_insert_ne.
  - apply (Hall h pv p); [by right | done].
  - intros Heq. symmetry in Heq. revert Heq.
    by apply (separate_head_target pM h0 pv0 p0 entries h pv p).
Qed.

Lemma unmarshalAll_perm entries entries' pM store store1 :
  entries ≡ₚ entries' -> separate pM entries ->
  unmarshalAll entries pM store = (None, store1) ->
  exists store2, unmarshalAll entries' pM store = (None, store2)
                 /\ forall t, store2 t = store1 t.
Proof.
  intros Hperm Hsep Hrun.
  pose proof (separate_perm _ _ _ Hperm Hsep) as Hsep'.
  pose proof (unmarshalAll_decoded _ _ _ _ Hsep Hrun) as Hdec.
  destruct (unmarshalAll entries' pM store) as [e store2] eqn:Hrun'.
  assert (e = None) as ->.
  { change e with (e, store2).1. rewrite <- Hrun'.
    apply unmarshalAll_succeeds; [done |].
    intros h pv p Hin Hp. rewrite <- Hperm in Hin.
    by rewrite (Hdec h pv p Hin Hp). }
  exists store2. split; [done |]. intros t.
  pose proof (unmarshalAll_decoded _ _ _ _ Hsep' Hrun') as Hdec'.
  destruct (existsb (fun e => match pM !! e.1 with
                              | Some p => Nat.eqb (Into p) t
                              | None => false
                              end) entries) eqn:Hex.
  - apply existsb_exists in Hex as ([h pv] & Hin & Ht). simpl in Ht.
    apply list_elem_of_In in Hin.
    destruct (pM !! h) as [p|] eqn:Hp; [|done].
    apply Nat.eqb_eq in Ht. subst t.
    pose proof (Hdec h pv p Hin Hp) as H1.
    rewrite Hperm in Hin. pose proof (Hdec' h pv p Hin Hp) as H2.
    congruence.
  - assert (forall h pv p, (h, pv) ∈ entries -> pM !! h = Some p -> Into p ≠ t)
      as Hframe.
    { intros h pv p Hin Hp Ht.
      assert (existsb (fun e => match pM !! e.1 with
                                | Some p => Nat.eqb (Into p) t
                                | None => false
                                end) entries = true) as Hyes; [|congruence].
      apply existsb_exists. exists (h, pv).
      split; [by apply list_elem_of_In |]. simpl. rewrite Hp.
      by apply Nat.eqb_eq. }
    change store2 with (None (A:=error), store2).2. rewrite <- Hrun'.
    change store1 with (None (A:=error), store1).2. rewrite <- Hrun.
    rewrite !unmarshalAll_frame; [done | done |].
    intros h pv p Hin. rewrite <- Hperm in Hin. eauto.
Qed.

End PopulateWrites.

Section PopulateResults.

Context `{Env}.

Implicit Types (params : list Param) (pM : gmap string Param)
  (pvs : list ParamValue) (src : option Source) (store : Store).

Lemma dedupe_separate (R : RangeOrder) params pM pvs :
  hashParams params ∅ = inr pM -> NoDup (Into <$> params) ->
  separate pM (range R (dedupe pM pvs)).
Proof.
  intros Hm Hnd. split; [|split].
  - rewrite (range_perm R). apply NoDup_fst_map_to_list.
  - intros h pv Hin. apply elem_of_range, dedupe_Some in Hin. tauto.
  - intros h1 h2 pv1 pv2 p1 p2 _ _ Hp1 Hp2 Hinto.
    apply (hashParams_entry params) in Hp1 as [Hp1 <-]; [|done].
    apply (hashParams_entry params) in Hp2 as [Hp2 <-]; [|done].
    by rewrite (NoDup_fmap_elem Into params p1 p2).
Qed.

Lemma populate_Returned_None (R1 R2 : RangeOrder) params src store store' :
  populate R1 R2 params src store = (Returned None, store') ->
  exists pM pvs,
    hashParams params ∅ = inr pM /\ orNil src params = Parsed pvs
    /\ checkRequired (range R1 pM) (dedupe pM pvs) = None
    /\ unmarshalAll (range R2 (dedupe pM pvs)) pM store = (None, store').
Proof.
  unfold populate.
  destruct (hashParams params ∅) as [msg|pM]; [done |].
  destruct (orNil src params) as [pvs| |]; [|done..].
  destruct (checkRequired _ _) eqn:Hc; [done |].
  destruct (unmarshalAll _ _ _) as [e s] eqn:Hu.
  intros [= -> ->]. by exists pM, pvs.
Qed.

(** C4.  Let the Params hash without a duplicate into [pM] and let the
    Source return [pvs].  The value kept for a hash is the last one of the
    Source's list with that hash when a declared Param has the hash, and
    none otherwise; the values without a declared Param can be taken out
    of the Source's list without changing what [populate] does; a target
    that is not the target of a Param with a kept value is not written;
    when no required Param is missing, what [populate] returns and leaves
    in the store is the result of the writes of the kept values; and when
    the declared targets are pairwise distinct and [populate] returns no
    error, the target of every declared Param that has values in the
    Source's list holds what the last of them decodes to against what the
    target held before, that decoding having succeeded, and the target of
    every other declared Param holds what it held before. *)
Theorem dedupe_last_wins (R1 R2 : RangeOrder) params src store pM pvs :
  hashParams params ∅ = inr pM ->
  orNil src params = Parsed pvs ->
  (forall h, dedupe pM pvs !! h
             = if decide (is_Some (pM !! h))
               then list.last (filter (fun pv => pvHash pv = h) pvs)
               else None)
  /\ populate R1 R2 params src store
     = populate R1 R2 params
         (Some (fixedSource (filter (fun pv => is_Some (pM !! pvHash pv)) pvs)))
         store
  /\ (forall t,
        (forall h pv p, dedupe pM pvs !! h = Some pv -> pM !! h = Some p ->
                        Into p ≠ t) ->
        (populate R1 R2 params src store).2 t = store t)
  /\ (checkRequired (range R1 pM) (dedupe pM pvs) = None ->
      populate R1 R2 params src store
      = (Returned (unmarshalAll (range R2 (dedupe pM pvs)) pM store).1,
         (unmarshalAll (range R2 (dedupe pM pvs)) pM store).2))
  /\ (NoDup (Into <$> params) ->
      forall store',
        populate R1 R2 params src store = (Returned None, store') ->
        forall p, p ∈ params ->
          match list.last (filter (fun pv => pvHash pv = hashOf p) pvs) with
          | Some pv =>
              json_Unmarshal (Value pv) (store (Into p)) = (store' (Into p), None)
          | None => store' (Into p) = store (Into p)
          end).
Proof.
  intros Hm Hsrc. split; [apply dedupe_lookup |]. split; [|split; [|split]].
  - unfold populate. rewrite Hm, Hsrc. simpl. unfold fixedSource.
    by rewrite <- dedupe_filter_known.
  - intros t Ht. unfold populate. rewrite Hm, Hsrc.
    destruct (checkRequired _ _); [done |].
    destruct (unmarshalAll _ _ _) as [e store'] eqn:Hu.
    change store' with (e, store').2. rewrite <- Hu.
    apply unmarshalAll_frame. intros h pv p Hin. apply elem_of_range in Hin. eauto.
  - intros Hc. unfold populate. rewrite Hm, Hsrc, Hc.
    by destruct (unmarshalAll _ _ _).
  - intros Hnd store' Hpop p Hp.
    destruct (populate_Returned_None _ _ _ _ _ _ Hpop)
      as (pM' & pvs' & Hm' & Hsrc' & _ & Hrun).
    rewrite Hm in Hm'. injection Hm' as <-.
    rewrite Hsrc in Hsrc'. injection Hsrc' as <-.
    assert (pM !! hashOf p = Some p) as HpM by (by apply (hashParams_entry params)).
    pose proof (dedupe_lookup pM pvs (hashOf p)) as Hlook.
    destruct (decide (is_Some (pM !! hashOf p))) as [_|Hno];
      [|exfalso; apply Hno; by rewrite HpM].
    destruct (list.last _) as [pv|] eqn:Hlast.
    + eapply (unmarshalAll_decoded _ _ _ _ (dedupe_separate R2 _ _ _ Hm Hnd) Hrun);
        [|done].
      by apply elem_of_range.
    + change store' with (None (A:=error), store').2. rewrite <- Hrun.
      apply unmarshalAll_frame. intros h pv q Hin Hq Hinto.
      apply elem_of_range in Hin.
      apply (hashParams_entry params) in Hq as [Hq <-]; [|done].
      rewrite (NoDup_fmap_elem Into params q p Hnd Hq Hp Hinto) in Hin.
      congruence.
Qed.

(** X10.  When the declared targets are pairwise distinct and [populate]
    returns no error, the target of every declared Param the Source
    mentions holds what the last value the Source gave it decodes to
    against what the target held before, and that decoding succeeded; the
    target of every other declared Param holds what it held before. *)
Theorem populate_success_values (R1 R2 : RangeOrder) params src store store' pvs :
  NoDup (Into <$> params) ->
  orNil src params = Parsed pvs ->
  populate R1 R2 params src store = (Returned None, store') ->
  forall p, p ∈ params ->
    match list.last (filter (fun pv => pvHash pv = hashOf p) pvs) with
    | Some pv =>
        json_Unmarshal (Value pv) (store (Into p)) = (store' (Into p), None)
    | None => store' (Into p) = store (Into p)
    end.
Proof.
  intros Hnd Hsrc Hpop p Hp.
  destruct (populate_Returned_None _ _ _ _ _ _ Hpop)
    as (pM & pvs' & Hm & Hsrc' & _ & Hrun).
  rewrite Hsrc in Hsrc'. injection Hsrc' as <-.
  assert (pM !! hashOf p = Some p) as HpM by (by apply (hashParams_entry params)).
  pose proof (dedupe_lookup pM pvs (hashOf p)) as Hlook.
  destruct (decide (is_Some (pM !! hashOf p))) as [_|Hno];
    [|exfalso; apply Hno; by rewrite HpM].
  destruct (list.last _) as [pv|] eqn:Hlast.
  - eapply (unmarshalAll_decoded _ _ _ _ (dedupe_separate R2 _ _ _ Hm Hnd) Hrun);
      [|done].
    by apply elem_of_range.
  - change store' with (None (A:=error), store').2. rewrite <- Hrun.
    apply unmarshalAll_frame. intros h pv q Hin Hq Hinto.
    apply elem_of_range in Hin.
    apply (hashParams_entry params) in Hq as [Hq <-]; [|done].
    rewrite (NoDup_fmap_elem Into params q p Hnd Hq Hp Hinto) in Hin.
    congruence.
Qed.

(** X11.  When the declared targets are pairwise distinct, whether
    [populate] returns no error and what it then leaves in the store do not
    depend on the orders in which its two [range] loops walk their maps. *)
Theorem populate_order_independent (R1 R2 R1' R2' : RangeOrder)
    params src store store1 :
  NoDup (Into <$> params) ->
  populate R1 R2 params src store = (Returned None, store1) ->
  exists store2,
    populate R1' R2' params src store = (Returned None, store2)
    /\ forall t, store2 t = store1 t.
Proof.
  intros Hnd Hpop.
  destruct (populate_Returned_None _ _ _ _ _ _ Hpop)
    as (pM & pvs & Hm & Hsrc & Hreq & Hrun).
  destruct (unmarshalAll_perm (range R2 (dedupe pM pvs)) (range R2' (dedupe pM pvs))
              pM store store1) as (store2 & Hrun' & Hsame).
  - by rewrite !range_perm.
  - by eapply dedupe_separate.
  - done.
  - exists store2. split; [|done].
    unfold populate. rewrite Hm, Hsrc.
    assert (checkRequired (range R1' pM) (dedupe pM pvs) = None) as ->.
    { rewrite checkRequired_None in Hreq |- *.
      intros h p Hin. apply elem_of_range in Hin.
      apply Hreq. by apply elem_of_range. }
    by rewrite Hrun'.
Qed.

(** X12.  [populate] writes only after everything else went well: when a
    target does not hold what it held before, the Params hashed without
    duplicate, the Source returned values, no required Param was missing,
    and the target is that of a declared Param the Source mentions.  An
    error of the Source is returned as it is and an exit of the Source
    ends [populate], in both cases after the check for duplicates. *)
Theorem populate_validates_first (R1 R2 : RangeOrder) params src store :
  (forall t, (populate R1 R2 params src store).2 t ≠ store t ->
     exists pM pvs p,
       hashParams params ∅ = inr pM /\ orNil src params = Parsed pvs
       /\ checkRequired (range R1 pM) (dedupe pM pvs) = None
       /\ p ∈ params /\ supplied pvs p /\ Into p = t)
  /\ (forall pM err, hashParams params ∅ = inr pM ->
        orNil src params = ParseFailed err ->
        populate R1 R2 params src store = (Returned (Some err), store))
  /\ (forall pM code, hashParams params ∅ = inr pM ->
        orNil src params = ParseExited code ->
        populate R1 R2 params src store = (Exited code, store)).
Proof.
  split; [|split].
  - intros t Ht. unfold populate in Ht.
    destruct (hashParams params ∅) as [msg|pM] eqn:Hm; [done |].
    destruct (orNil src params) as [pvs| |] eqn:Hsrc; [|done..].
    destruct (checkRequired _ _) eqn:Hc; [done |].
    destruct (unmarshalAll _ _ _) as [e store'] eqn:Hu. simpl in Ht.
    destruct (existsb (fun e => match pM !! e.1 with
                                | Some p => Nat.eqb (Into p) t
                                | None => false
                                end) (range R2 (dedupe pM pvs))) eqn:Hex.
    + apply existsb_exists in Hex as ([h pv] & Hin & Hp). simpl in Hp.
      apply list_elem_of_In, elem_of_range, dedupe_Some in Hin as (Hin & Hh & _).
      destruct (pM !! h) as [p|] eqn:HpM; [|done].
      apply Nat.eqb_eq in Hp.
      apply (hashParams_entry params) in HpM as [Hparams Hhash]; [|done].
      exists pM, pvs, p. repeat (split; [done |]).
      split; [|done]. exists pv. split; [done | congruence].
    + exfalso. apply Ht.
      change store' with (e, store').2. rewrite <- Hu.
      apply unmarshalAll_frame. intros h pv p Hin Hp Hinto.
      assert (existsb (fun e => match pM !! e.1 with
                                | Some p => Nat.eqb (Into p) t
                                | None => false
                                end) (range R2 (dedupe pM pvs)) = true) as Hyes;
        [|congruence].
      apply existsb_exists. exists (h, pv).
      split; [by apply list_elem_of_In |]. simpl. rewrite Hp. by apply Nat.eqb_eq.
  - intros pM err Hm Hsrc. unfold populate. by rewrite Hm, Hsrc.
  - intros pM code Hm Hsrc. unfold populate. by rewrite Hm, Hsrc.
Qed.

End PopulateResults.

Lemma testParams_targets : NoDup (Into <$> testParams).
Proof.
  vm_compute.
  repeat (apply list.NoDup_cons; split;
          [rewrite ?elem_of_cons, elem_of_nil; intros Hx;
           repeat destruct Hx as [Hx|Hx]; first [discriminate Hx | destruct Hx] |]).
  apply NoDup_nil_2.
Qed.

Lemma sampleSource_succeeds (R1 R2 : RangeOrder) :
  R1 = ascending \/ R1 = descending -> R2 = ascending \/ R2 = descending ->
  @populate sampleEnv R1 R2 testParams (Some sampleSource) testStore
  = (Returned None,
     (@populate sampleEnv R1 R2 testParams (Some sampleSource) testStore).2).
Proof.
  intros [-> | ->] [-> | ->];
    rewrite (surjective_pairing (populate _ _ _ _ _)) at 1; f_equal;
    vm_compute; reflexivity.
Qed.

(** The Source gives two values for baz2 and one for a Param that is not
    declared: the second value of baz2 is decoded into its target, and the
    undeclared value changes nothing. *)
Lemma dedupe_last_wins_witness :
  @populate sampleEnv ascending ascending testParams
    (Some (fixedSource [mkParamValue pBaz2 (quoted "first");
                        mkParamValue pChild "1";
                        mkParamValue pBaz3 (quoted "y");
                        mkParamValue pBaz2 (quoted "last")]))
    testStore
  = @populate sampleEnv ascending ascending testParams
      (Some (fixedSource [mkParamValue pBaz2 (quoted "first");
                          mkParamValue pBaz3 (quoted "y");
                          mkParamValue pBaz2 (quoted "last")]))
      testStore
  /\ @json_Unmarshal sampleEnv (quoted "last") (testStore (Into pBaz2))
     = ((@populate sampleEnv ascending ascending testParams
           (Some (fixedSource [mkParamValue pBaz2 (quoted "first");
                               mkParamValue pChild "1";
                               mkParamValue pBaz3 (quoted "y");
                               mkParamValue pBaz2 (quoted "last")]))
           testStore).2 (Into pBaz2), None)
  /\ @json_Unmarshal sampleEnv (quoted "last") (testStore (Into pBaz2))
     = (VString "last", None).
Proof.
  destruct (@dedupe_last_wins sampleEnv ascending ascending testParams
              (Some (fixedSource [mkParamValue pBaz2 (quoted "first");
                                  mkParamValue pChild "1";
                                  mkParamValue pBaz3 (quoted "y");
                                  mkParamValue pBaz2 (quoted "last")]))
              testStore _ _ eq_refl eq_refl) as (_ & Hdrop & _ & _ & Hwritten).
  split; [exact Hdrop |]. split; [|reflexivity].
  apply (Hwritten testParams_targets _
           ltac:(rewrite (surjective_pairing (populate _ _ _ _ _)) at 1;
                 f_equal; vm_compute; reflexivity)
           pBaz2).
  apply list_elem_of_In. simpl. tauto.
Defined.

Lemma populate_success_values_witness :
  match list.last (filter (fun pv => @pvHash sampleEnv pv = @hashOf sampleEnv pFoo)
                          [mkParamValue pBaz2 (quoted "x");
                           mkParamValue pBaz3 (quoted "y");
                           mkParamValue pFoo "12"]) with
  | Some pv =>
      @json_Unmarshal sampleEnv (Value pv) (testStore (Into pFoo))
      = ((@populate sampleEnv ascending descending testParams (Some sampleSource)
            testStore).2 (Into pFoo), None)
  | None =>
      (@populate sampleEnv ascending descending testParams (Some sampleSource)
         testStore).2 (Into pFoo) = testStore (Into pFoo)
  end.
Proof.
  apply (@populate_success_values sampleEnv ascending descending testParams
           (Some sampleSource) testStore).
  - apply testParams_targets.
  - vm_compute. reflexivity.
  - apply sampleSource_succeeds; auto.
  - apply list_elem_of_In. simpl. tauto.
Defined.

Lemma populate_order_independent_witness :
  exists store2,
    @populate sampleEnv descending descending testParams (Some sampleSource) testStore
    = (Returned None, store2)
    /\ forall t, store2 t
                 = (@populate sampleEnv ascending ascending testParams
                      (Some sampleSource) testStore).2 t.
Proof.
  apply (@populate_order_independent sampleEnv ascending ascending).
  - apply testParams_targets.
  - apply sampleSource_succeeds; auto.
Defined.

(** ** cli.go: Params with the same flag *)

Lemma cliParams_dom (params : list Param) :
  dom (cliParams params) = list_to_set (C:=gset string) (cliKey <$> params).
Proof.
  apply set_eq. intros k.
  rewrite elem_of_dom, elem_of_list_to_set, list_elem_of_fmap, cliParams_lookup.
  rewrite last_is_Some. split.
  - intros Hne. destruct (filter _ params) as [|p l] eqn:Hf; [done |].
    assert (p ∈ filter (fun p => cliKey p = k) params) as Hp by (rewrite Hf; left).
    apply list_elem_of_filter in Hp as [Hk Hp]. by exists p.
  - intros (p & -> & Hp) Hnil.
    assert (p ∈ filter (fun q => cliKey q = cliKey p) params) as Hin
      by (by apply list_elem_of_filter).
    rewrite Hnil in Hin. by apply elem_of_nil in Hin.
Qed.

Lemma size_list_to_set_le (l : list string) :
  (size (list_to_set (C:=gset string) l) <= length l)%nat.
Proof.
  induction l as [|x l IH].
  - rewrite list_to_set_nil, size_empty. done.
  - rewrite list_to_set_cons. simpl.
    destruct (decide (x ∈ list_to_set (C:=gset string) l)) as [Hin|Hnotin].
    + rewrite (subseteq_union_1_L {[x]}) by (by apply singleton_subseteq_l).
      lia.
    + rewrite size_union by (by apply disjoint_singleton_l).
      rewrite size_singleton. lia.
Qed.

(** X13.  The map of flags holds, under each flag, the last declared Param
    that derives it: an earlier Param with the same flag is dropped without
    an error.  The map has as many entries as there are Params exactly
    when their flags are pairwise distinct, and then every declared Param
    is the entry of its flag. *)
Theorem cliParams_last_wins (params : list Param) :
  (forall k, cliParams params !! k
             = list.last (filter (fun p => cliKey p = k) params))
  /\ (size (cliParams params) <= length params)%nat
  /\ (NoDup (cliKey <$> params) <-> size (cliParams params) = length params)
  /\ (NoDup (cliKey <$> params) ->
      forall p, p ∈ params -> cliParams params !! cliKey p = Some p).
Proof.
  split; [apply cliParams_lookup |].
  assert (size (cliParams params)
          = size (list_to_set (C:=gset string) (cliKey <$> params))) as Hsize
    by (by rewrite <- cliParams_dom, size_dom).
  split; [|split].
  - rewrite Hsize. etrans; [apply size_list_to_set_le |]. by rewrite length_fmap.
  - rewrite Hsize. split.
    + intros Hnd. by rewrite size_list_to_set, length_fmap.
    + rewrite <- (length_fmap cliKey params).
      generalize (cliKey <$> params). intros l.
      induction l as [|x l IH]; [intros; constructor |].
      rewrite list_to_set_cons. simpl.
      destruct (decide (x ∈ list_to_set (C:=gset string) l)) as [Hin|Hnotin].
      * rewrite (subseteq_union_1_L {[x]}) by (by apply singleton_subseteq_l).
        pose proof (size_list_to_set_le l). lia.
      * rewrite size_union by (by apply disjoint_singleton_l).
        rewrite size_singleton.
        intros Hs. apply list.NoDup_cons. split; [|apply IH; lia].
        intros Hx. apply Hnotin. by apply elem_of_list_to_set.
  - intros Hnd p Hp.
    destruct (cliParams_declared params p Hp) as (q & Hq & Hk).
    rewrite Hq. f_equal.
    apply cliParams_Some in Hq as [Hq _].
    by apply (NoDup_fmap_elem cliKey params q p).
Qed.

(** X14.  A declared Param whose flag the map holds for another Param is
    out of reach of the command line: no value [Parse] returns is a value
    of it. *)
Theorem shadowed_param_unset `{Env} (Rs : nat -> RangeOrder) (noHelp : bool)
    (params : list Param) (args : list string) (pvs : list ParamValue)
    (p : Param) :
  cliParams params !! cliKey p ≠ Some p ->
  parseOf Rs noHelp params args = Parsed pvs ->
  forall v, v ∈ pvs -> pvParam v ≠ p.
Proof.
  intros Hshadow Hparsed v Hv Heq. apply Hshadow.
  apply parseOf_Parsed in Hparsed.
  destruct (parseArgs_between _ _ _ _ _ _ _ _ _ (betweenArgs_init params) Hparsed)
    as (_ & new & Hnew & _ & Hall).
  simpl in Hnew. subst new. rewrite list.Forall_forall in Hall.
  destruct (Hall v Hv) as [k Hk]. rewrite Heq in Hk.
  by destruct (cliParams_Some _ _ _ Hk) as [_ ->].
Qed.

Lemma shadowed_param_unset_witness :
  Forall (fun v => pvParam v ≠ pDash) [mkParamValue pDeep (quoted "x")].
Proof.
  apply list.Forall_forall.
  apply (@shadowed_param_unset sampleEnv (fun _ => ascending) false [pDash; pDeep]
           ["--a-b-c=x"]).
  - vm_compute. discriminate.
  - vm_compute. reflexivity.
Defined.

(** ** The older revision of cli.go: cliParamVals *)

Lemma Cfg_forall_ind (P : Legacy.Cfg -> Prop) :
  (forall path params children,
     Forall P children -> P (Legacy.mkCfg path params children)) ->
  forall cfg, P cfg.
Proof.
  intros Hstep. fix IH 1. intros [path params children]. apply Hstep.
  induction children as [|c children IHc]; constructor; [apply IH | exact IHc].
Qed.

Lemma cliParamVals_unfold `{Env} (R : RangeOrder) path params children :
  Legacy.cliParamVals R (Legacy.mkCfg path params children)
  = legacyOverChildren R children (legacyOwn path params).
Proof.
  unfold legacyOwn. simpl.
  set (m0 := foldl _ _ params). clearbody m0. revert m0.
  induction children as [|c children IH]; intros m; simpl; [done |].
  destruct (Legacy.cliParamVals R c); [done |].
  destruct (Legacy.mergeChild _ _); [done |]. apply IH.
Qed.

Section LegacyParamVals.

Context `{Env} (R : RangeOrder).

Lemma mergeChild_inr (entries : list (string * Legacy.ParamValue))
    (m m' : gmap string Legacy.ParamValue) :
  NoDup entries.*1 ->
  Legacy.mergeChild entries m = inr m' ->
  (forall k v, (k, v) ∈ entries -> m !! k = None)
  /\ forall k v, m' !! k = Some v <-> m !! k = Some v \/ (k, v) ∈ entries.
Proof.
  revert m. induction entries as [|[k0 v0] entries IH]; intros m Hnd; simpl.
  - intros [= <-]. split.
    + intros k v Hin. by apply elem_of_nil in Hin.
    + intros k v. split; [auto |]. intros [?|Hin]; [done |].
      by apply elem_of_nil in Hin.
  - destruct (m !! k0) eqn:Hk0; [done |]. intros Hrec.
    rewrite fmap_cons in Hnd. apply list.NoDup_cons in Hnd as [Hnotin Hnd].
    destruct (IH _ Hnd Hrec) as [Hfresh Hiff]. split.
    + intros k v Hin. apply elem_of_cons in Hin as [[= -> ->]|Hin]; [done |].
      specialize (Hfresh k v Hin).
      by apply lookup_insert_None in Hfresh as [? _].
    + intros k v. rewrite Hiff, lookup_insert.
      destruct (decide (k0 = k)) as [<-|Hne].
      * split.
        -- intros [[= <-]|Hin]; [right; left |].
           exfalso. apply Hnotin. apply list_elem_of_fmap. by exists (k0, v).
        -- intros [?|Hin]; [congruence |].
           apply elem_of_cons in Hin as [[= ->]|Hin]; [by left |].
           exfalso. apply Hnotin. apply list_elem_of_fmap. by exists (k0, v).
      * split.
        -- intros [?|Hin]; [by left | right; by right].
        -- intros [?|Hin]; [by left |].
           apply elem_of_cons in Hin as [[= -> ->]|Hin]; [done | by right].
Qed.

Lemma mergeChild_inl (entries : list (string * Legacy.ParamValue))
    (m : gmap string Legacy.ParamValue) (e : error) :
  Legacy.mergeChild entries m = inl e ->
  exists k v, (k, v) ∈ entries /\ e = Legacy.errSameArg k.
Proof.
  revert m. induction entries as [|[k0 v0] entries IH]; intros m; simpl; [done |].
  destruct (m !! k0).
  - intros [= <-]. exists k0, v0. split; [left | done].
  - intros Hrec. destruct (IH _ Hrec) as (k & v & Hin & ->).
    exists k, v. split; [by right | done].
Qed.

Lemma mergeChild_taken (entries : list (string * Legacy.ParamValue))
    (m : gmap string Legacy.ParamValue) (k : string) (v : Legacy.ParamValue) :
  (k, v) ∈ entries -> is_Some (m !! k) ->
  exists e, Legacy.mergeChild entries m = inl e.
Proof.
  revert m. induction entries as [|[k0 v0] entries IH]; intros m Hin Hk; simpl.
  - by apply elem_of_nil in Hin.
  - destruct (m !! k0) eqn:Hk0; [eauto |].
    apply elem_of_cons in Hin as [[= -> ->]|Hin].
    + rewrite Hk0 in Hk. by destruct Hk.
    + apply IH; [done |]. rewrite lookup_insert. by destruct (decide (k0 = k)).
Qed.

Lemma legacyOwn_acc (path : list string) (params : list Param)
    (m : gmap string Legacy.ParamValue) (k : string) :
  foldl (fun m param =>
           <[Legacy.cliKey path (Name param) := Legacy.mkParamValue param path ""]> m)
        m params !! k
  = match list.last (filter (fun p => Legacy.cliKey path (Name p) = k) params) with
    | Some p => Some (Legacy.mkParamValue p path "")
    | None => m !! k
    end.
Proof.
  revert m. induction params as [|p params IH]; intros m; simpl; [done |].
  rewrite IH, filter_cons.
  destruct (decide (Legacy.cliKey path (Name p) = k)) as [Hk|Hk].
  - rewrite last_cons. destruct (list.last _); [done |].
    by rewrite <- Hk, lookup_insert_eq.
  - by rewrite lookup_insert_ne.
Qed.

Lemma legacyOwn_Some (path : list string) (params : list Param) (k : string)
    (v : Legacy.ParamValue) :
  legacyOwn path params !! k = Some v ->
  exists p, p ∈ params /\ v = Legacy.mkParamValue p path ""
            /\ k = Legacy.cliKey path (Name p).
Proof.
  unfold legacyOwn. rewrite legacyOwn_acc, lookup_empty.
  destruct (list.last _) as [p|] eqn:Hlast; [|done].
  intros [= <-]. apply last_Some_elem_of, list_elem_of_filter in Hlast as [Hk Hp].
  by exists p.
Qed.

Lemma legacyOwn_declared (path : list string) (params : list Param) (p : Param) :
  p ∈ params -> is_Some (legacyOwn path params !! Legacy.cliKey path (Name p)).
Proof.
  intros Hp. unfold legacyOwn. rewrite legacyOwn_acc.
  destruct (list.last _) eqn:Hlast; [done |].
  apply last_None in Hlast.
  assert (p ∈ filter (fun q => Legacy.cliKey path (Name q)
                               = Legacy.cliKey path (Name p)) params) as Hin
    by (by apply list_elem_of_filter).
  rewrite Hlast in Hin. by apply elem_of_nil in Hin.
Qed.

(** What the loop over the children leaves, when it succeeds. *)
Lemma legacyOverChildren_inr (children : list Legacy.Cfg)
    (m m' : gmap string Legacy.ParamValue) :
  legacyOverChildren R children m = inr m' ->
  (forall k v, m' !! k = Some v <->
     m !! k = Some v
     \/ exists child childM, child ∈ children
          /\ Legacy.cliParamVals R child = inr childM /\ childM !! k = Some v)
  /\ (forall child, child ∈ children ->
        exists childM, Legacy.cliParamVals R child = inr childM
          /\ forall k, is_Some (childM !! k) -> m !! k = None)
  /\ (forall i j ci cj mi mj k,
        (i < j)%nat -> children !! i = Some ci -> children !! j = Some cj ->
        Legacy.cliParamVals R ci = inr mi -> Legacy.cliParamVals R cj = inr mj ->
        is_Some (mi !! k) -> mj !! k = None).
Proof.
  revert m. induction children as [|c children IH]; intros m; simpl.
  - intros [= <-]. split; [|split].
    + intros k v. split; [auto |]. intros [?|(c & ? & Hc & _)]; [done |].
      by apply elem_of_nil in Hc.
    + intros c Hc. by apply elem_of_nil in Hc.
    + intros i j ci cj mi mj k _ Hi. by rewrite lookup_nil in Hi.
  - destruct (Legacy.cliParamVals R c) as [e|childM] eqn:Hc; [done |].
    destruct (Legacy.mergeChild (range R childM) m) as [e|m1] eqn:Hmerge; [done |].
    intros Hrec. destruct (IH _ Hrec) as (Hiff & Hfresh & Hdisj).
    assert (NoDup (range R childM).*1) as Hnd
      by (rewrite (range_perm R); apply NoDup_fst_map_to_list).
    destruct (mergeChild_inr _ _ _ Hnd Hmerge) as [Hnone Hm1].
    split; [|split].
    + intros k v. rewrite Hiff, Hm1. split.
      * intros [[?|Hin]|(c' & cM & Hc' & HcM & Hk)]; [by left | |].
        -- right. exists c, childM. split; [left |]. split; [done |].
           by apply elem_of_range in Hin.
        -- right. exists c', cM. split; [by right | done].
      * intros [?|(c' & cM & Hc' & HcM & Hk)]; [by left; left |].
        apply elem_of_cons in Hc' as [->|Hc'].
        -- left. right. rewrite Hc in HcM. injection HcM as <-.
           by apply elem_of_range.
        -- right. exists c', cM. done.
    + intros c' Hc'. apply elem_of_cons in Hc' as [->|Hc'].
      * exists childM. split; [done |]. intros k [v Hk].
        apply (Hnone k v). by apply elem_of_range.
      * destruct (Hfresh c' Hc') as (cM & HcM & Hnot). exists cM. split; [done |].
        intros k Hk. specialize (Hnot k Hk).
        destruct (m !! k) eqn:Hmk; [|done].
        assert (m1 !! k = Some p) as Hm1k by (apply Hm1; by left). congruence.
    + intros i j ci cj mi mj k Hij Hi Hj Hmi Hmj Hk.
      destruct j as [|j]; [lia |]. simpl in Hj.
      destruct i as [|i]; simpl in Hi.
      * injection Hi as <-. rewrite Hc in Hmi. injection Hmi as <-.
        destruct Hk as [v Hk].
        destruct (Hfresh cj) as (cM & HcM & Hnot);
          [by eapply list_elem_of_lookup_2 |].
        rewrite Hmj in HcM. injection HcM as <-.
        destruct (mj !! k) eqn:Hmjk; [|done].
        assert (m1 !! k = None) as Hnone1 by (apply Hnot; by rewrite Hmjk).
        assert (m1 !! k = Some v) as Hsome1
          by (apply Hm1; right; by apply elem_of_range).
        congruence.
      * eapply (Hdisj i j ci cj mi mj k); [lia | done..].
Qed.

End LegacyParamVals.

Section LegacyFlags.

Context `{Env} (R : RangeOrder).

Lemma legacyOverChildren_inl (children : list Legacy.Cfg)
    (m : gmap string Legacy.ParamValue) (e : error) :
  legacyOverChildren R children m = inl e ->
  exists child, child ∈ children
    /\ (Legacy.cliParamVals R child = inl e
        \/ exists childM k v, Legacy.cliParamVals R child = inr childM
             /\ childM !! k = Some v /\ e = Legacy.errSameArg k).
Proof.
  revert m. induction children as [|c children IH]; intros m; simpl; [done |].
  destruct (Legacy.cliParamVals R c) as [e'|childM] eqn:Hc.
  - intros [= <-]. exists c. split; [left | by left].
  - destruct (Legacy.mergeChild (range R childM) m) as [e'|m1] eqn:Hmerge.
    + intros [= <-]. apply mergeChild_inl in Hmerge as (k & v & Hin & ->).
      exists c. split; [left |]. right. exists childM, k, v.
      apply elem_of_range in Hin. by repeat split.
    + intros Hrec. destruct (IH _ Hrec) as (c' & Hc' & Hcase).
      exists c'. split; [by right | done].
Qed.

(** The entries of the map are the Params declared in the tree, each under
    the flag of its path and name. *)
Lemma cliParamVals_entries (cfg : Legacy.Cfg) (m : gmap string Legacy.ParamValue) :
  Legacy.cliParamVals R cfg = inr m ->
  (forall k v, m !! k = Some v ->
     k = Legacy.cliKey (Legacy.pvPath v) (Name (Legacy.pvParam v))
     /\ Legacy.pvValue v = ""
     /\ legacyDeclared cfg (Legacy.pvPath v) (Legacy.pvParam v))
  /\ forall path p, legacyDeclared cfg path p ->
       is_Some (m !! Legacy.cliKey path (Name p)).
Proof.
  revert m. induction cfg as [path params children IH] using Cfg_forall_ind.
  intros m. rewrite cliParamVals_unfold. intros Hloop.
  destruct (legacyOverChildren_inr R _ _ _ Hloop) as (Hiff & Hfresh & _).
  rewrite list.Forall_forall in IH. split.
  - intros k v Hk. apply Hiff in Hk as [Hown|(c & cM & Hc & HcM & Hk)].
    + apply legacyOwn_Some in Hown as (p & Hp & -> & ->). simpl.
      split; [done |]. split; [done |]. by constructor.
    + destruct (IH c Hc cM HcM) as [Hsound _].
      destruct (Hsound k v Hk) as (? & ? & ?).
      split; [done |]. split; [done |]. by eapply legacy_below.
  - intros path' p Hd.
    inversion Hd as [? ? ? ? Hp|? ? ? c ? ? Hc Hdc]; subst.
    + destruct (legacyOwn_declared path' _ p Hp) as [v Hv].
      exists v. apply Hiff. by left.
    + destruct (Hfresh c Hc) as (cM & HcM & _).
      destruct (IH c Hc cM HcM) as [_ Hcomplete].
      destruct (Hcomplete path' p Hdc) as [v Hv].
      exists v. apply Hiff. right. by exists c, cM.
Qed.

(** X15.  When [cliParamVals] of the older revision succeeds, the entries
    of its map are the Params declared in the tree, each with the path of
    its node and an empty value, under the flag of that path and its name;
    no Param of a node has the flag of a Param of one of its descendants,
    and no two Params below different children of a node have the same
    flag.  When it fails, the error is "multiple params use the same CLI
    arg" with the flag of a Param declared in the tree. *)
Theorem cliParamVals_flags (cfg : Legacy.Cfg) :
  (forall m, Legacy.cliParamVals R cfg = inr m ->
     (forall k v, m !! k = Some v ->
        k = Legacy.cliKey (Legacy.pvPath v) (Name (Legacy.pvParam v))
        /\ Legacy.pvValue v = ""
        /\ legacyDeclared cfg (Legacy.pvPath v) (Legacy.pvParam v))
     /\ (forall path p, legacyDeclared cfg path p ->
           is_Some (m !! Legacy.cliKey path (Name p))))
  /\ (forall path params children m,
        cfg = Legacy.mkCfg path params children ->
        Legacy.cliParamVals R cfg = inr m ->
        (forall p child path' q,
           p ∈ params -> child ∈ children -> legacyDeclared child path' q ->
           Legacy.cliKey path (Name p) ≠ Legacy.cliKey path' (Name q))
        /\ (forall i j ci cj pi qi pj qj,
              (i < j)%nat -> children !! i = Some ci -> children !! j = Some cj ->
              legacyDeclared ci pi qi -> legacyDeclared cj pj qj ->
              Legacy.cliKey pi (Name qi) ≠ Legacy.cliKey pj (Name qj)))
  /\ (forall e, Legacy.cliParamVals R cfg = inl e ->
        exists path p, legacyDeclared cfg path p
          /\ e = Legacy.errSameArg (Legacy.cliKey path (Name p))).
Proof.
  split; [intros m; apply cliParamVals_entries |]. split.
  - intros path params children m -> Hm. rewrite cliParamVals_unfold in Hm.
    destruct (legacyOverChildren_inr R _ _ _ Hm) as (_ & Hfresh & Hdisj). split.
    + intros p c path' q Hp Hc Hq Heq.
      destruct (Hfresh c Hc) as (cM & HcM & Hnone).
      destruct (cliParamVals_entries c cM HcM) as [_ Hcomplete].
      specialize (Hnone _ (Hcomplete path' q Hq)).
      destruct (legacyOwn_declared path params p Hp) as [v Hv].
      rewrite Heq in Hv. congruence.
    + intros i j ci cj pi qi pj qj Hij Hi Hj Hdi Hdj Heq.
      destruct (Hfresh ci) as (mi & Hmi & _); [by eapply list_elem_of_lookup_2 |].
      destruct (Hfresh cj) as (mj & Hmj & _); [by eapply list_elem_of_lookup_2 |].
      destruct (cliParamVals_entries ci mi Hmi) as [_ Hci].
      destruct (cliParamVals_entries cj mj Hmj) as [_ Hcj].
      pose proof (Hdisj i j ci cj mi mj _ Hij Hi Hj Hmi Hmj (Hci pi qi Hdi)) as Hno.
      destruct (Hcj pj qj Hdj) as [v Hv]. rewrite Heq in Hno. congruence.
  - induction cfg as [path params children IH] using Cfg_forall_ind.
    intros e. rewrite cliParamVals_unfold. intros Hloop.
    apply legacyOverChildren_inl in Hloop as (c & Hc & Hcase).
    rewrite list.Forall_forall in IH.
    destruct Hcase as [He|(cM & k & v & HcM & Hk & ->)].
    + destruct (IH c Hc e He) as (path' & p & Hd & ->).
      exists path', p. split; [by eapply legacy_below | done].
    + destruct (cliParamVals_entries c cM HcM) as [Hsound _].
      destruct (Hsound k v Hk) as (-> & _ & Hd).
      exists (Legacy.pvPath v), (Legacy.pvParam v).
      split; [by eapply legacy_below | done].
Qed.

End LegacyFlags.

(** ** The older revision of cli.go: Parse *)

Lemma Legacy_cliKey_not_help (path : list string) (name r : string) :
  String.eqb (Legacy.cliKey path name +:+ r) cliHelpArg = false.
Proof.
  unfold Legacy.cliKey, cliKeyPrefix.
  destruct (0 <? length path)%nat; by rewrite !string_app_cons.
Qed.

Lemma Legacy_matchArg_found (arg : string)
    (entries : list (string * Legacy.ParamValue)) (st : Legacy.ParseState)
    (k : string) (v : Legacy.ParamValue) :
  (k, v) ∈ entries -> matches arg k = true ->
  (forall k' v', (k', v') ∈ entries -> matches arg k' = true -> k' = k /\ v' = v) ->
  Legacy.matchArg arg entries st = legacyMatched arg k v st.
Proof.
  revert st. induction entries as [|[k0 v0] entries IH]; intros st Hin Hm Huniq.
  - by apply elem_of_nil in Hin.
  - simpl. destruct (matches arg k0) eqn:M0.
    + destruct (Huniq k0 v0) as [-> ->]; [left | done |].
      unfold legacyMatched. unfold matches in M0.
      destruct (String.eqb arg k); simpl; [done |].
      simpl in M0. by rewrite M0.
    + unfold matches in M0. apply orb_false_iff in M0 as [Heq Hpre].
      rewrite Heq, Hpre. simpl.
      apply elem_of_cons in Hin as [Hin|Hin].
      * injection Hin as <- <-. unfold matches in Hm.
        by rewrite Heq, Hpre in Hm.
      * rewrite IH; [done | done | done |].
        intros k' v' Hin'. apply Huniq. by right.
Qed.

Section LegacyParse.

Context `{Env} (cli : SourceCLI) (pvM : gmap string Legacy.ParamValue).

Hypothesis Hsep : forall k v, pvM !! k = Some v -> containsChar eqChar k = false.

Lemma Legacy_scan (R : RangeOrder) (arg k : string) (v : Legacy.ParamValue)
    (st : Legacy.ParseState) :
  pvM !! k = Some v -> matches arg k = true ->
  Legacy.matchArg arg (range R pvM) st = legacyMatched arg k v st.
Proof.
  intros Hk Hm. apply Legacy_matchArg_found; [by apply elem_of_range | done |].
  intros k' v' Hin Hm'. apply elem_of_range in Hin.
  assert (k' = k) as -> by (eapply matches_unique; eauto).
  split; [done | congruence].
Qed.

End LegacyParse.

Lemma matches_self (k : string) : matches k k = true.
Proof. unfold matches. by rewrite String.eqb_refl. Qed.

Lemma matches_equals (k x : string) : matches (k +:+ cliValSep +:+ x) k = true.
Proof. apply matches_spec. right. by exists x. Qed.

(** X16.  [Parse] of the older revision, when no flag of the tree holds the
    character [=]: for the ParamValue [v] that the flag map holds under
    [k], a bool takes the bare flag, with the value [true], and is refused
    in the [=] form with "is a boolean and cannot have a value"; any other
    Param takes its value from the next argument or from the text after
    [=], a string being put between quotes unless it starts with one, and
    the bare flag as the last argument fails with "expected a value". *)
Theorem Legacy_Parse_forms `{Env} (R : RangeOrder) (Rs : nat -> RangeOrder)
    (osArgs : list string) (noHelp : bool) (cfg : Legacy.Cfg)
    (pvM : gmap string Legacy.ParamValue) (k x : string) (v : Legacy.ParamValue) :
  Legacy.cliParamVals R cfg = inr pvM ->
  (forall k' v', pvM !! k' = Some v' -> containsChar eqChar k' = false) ->
  pvM !! k = Some v ->
  let run args := Legacy.Parse R Rs osArgs (mkSourceCLI (Some args) noHelp) cfg in
  (IsBool (Legacy.pvParam v) = true ->
     run [k] = Legacy.Parsed [Legacy.withValue v "true"]
     /\ run [k +:+ cliValSep +:+ x]
        = Legacy.ParseFailed (Legacy.errBoolValue (k +:+ cliValSep +:+ x)))
  /\ (IsBool (Legacy.pvParam v) = false ->
        run [k; x]
        = Legacy.Parsed [Legacy.withValue v (legacyValue (Legacy.pvParam v) x)]
        /\ run [k +:+ cliValSep +:+ x]
           = Legacy.Parsed [Legacy.withValue v (legacyValue (Legacy.pvParam v) x)]
        /\ run [k] = Legacy.ParseFailed (Legacy.errExpectedValue k)).
Proof.
  intros Hm Hsep Hk run. subst run. unfold Legacy.Parse. rewrite Hm.
  destruct (cliParamVals_entries R cfg pvM Hm) as [Hsound _].
  destruct (Hsound k v Hk) as (Hkey & _ & _).
  assert (String.eqb k cliHelpArg = false) as Hh1.
  { rewrite Hkey, <- (string_app_nil_r (Legacy.cliKey _ _)).
    apply Legacy_cliKey_not_help. }
  assert (String.eqb (k +:+ cliValSep +:+ x) cliHelpArg = false) as Hh2.
  { rewrite Hkey. apply Legacy_cliKey_not_help. }
  assert (String.eqb (k +:+ cliValSep +:+ x) k = false) as Hne.
  { apply String.eqb_neq. intros Heq.
    pose proof (Hsep k v Hk) as Hc. rewrite <- Heq in Hc.
    rewrite !containsChar_app in Hc. simpl in Hc. by rewrite orb_true_r in Hc. }
  assert (strings_TrimPrefix (k +:+ cliValSep +:+ x) (k +:+ cliValSep) = x) as Htrim.
  { rewrite <- string_app_assoc. apply TrimPrefix_app. }
  cbn [Args DisableHelpPage Legacy.parseArgs].
  unfold Legacy.parseArg.
  cbn [Legacy.pvOk Legacy.initParseState DisableHelpPage].
  rewrite Hh1, Hh2, !andb_false_r.
  rewrite (Legacy_scan pvM Hsep _ k k v), (Legacy_scan pvM Hsep _ _ k v);
    [| done | apply matches_equals | done | apply matches_self].
  unfold legacyMatched. rewrite String.eqb_refl, Hne, Htrim.
  split; intros Hb;
    repeat (progress (cbn [negb app Legacy.pvOk Legacy.pv Legacy.pvStrValOk
                           Legacy.pvStrVal Legacy.key Legacy.initParseState
                           Legacy.pvParam Legacy.withValue andb];
                      rewrite ?Hb)).
  - done.
  - unfold legacyValue.
    destruct (IsString (Legacy.pvParam v) && _); done.
Qed.

Lemma Legacy_Parse_forms_witness :
  @Legacy.Parse sampleEnv ascending (fun _ => ascending) []
     (mkSourceCLI (Some ["--baz"; "x"]) false) legacyTree
  = Legacy.Parsed [Legacy.mkParamValue pBaz [] (quoted "x")]
  /\ @Legacy.Parse sampleEnv ascending (fun _ => ascending) []
        (mkSourceCLI (Some ["--baz=x"]) false) legacyTree
     = Legacy.Parsed [Legacy.mkParamValue pBaz [] (quoted "x")]
  /\ @Legacy.Parse sampleEnv ascending (fun _ => ascending) []
        (mkSourceCLI (Some ["--baz"]) false) legacyTree
     = Legacy.ParseFailed (@Legacy.errExpectedValue sampleEnv "--baz").
Proof.
  destruct (@Legacy_Parse_forms sampleEnv ascending (fun _ => ascending) [] false
              legacyTree legacyFlags "--baz" "x" (Legacy.mkParamValue pBaz [] ""))
    as [_ Hval].
  - vm_compute; reflexivity.
  - intros k' v' Hk'. apply elem_of_map_to_list in Hk'.
    assert (Forall (fun kv : string * Legacy.ParamValue =>
                      containsChar eqChar kv.1 = false)
                   (map_to_list legacyFlags)) as Hall
      by (vm_compute; repeat constructor).
    rewrite list.Forall_forall in Hall. exact (Hall _ Hk').
  - vm_compute; reflexivity.
  - exact (Hval eq_refl).
Defined.

(** ** cli.go and mcfg.go together *)

Section CommandLine.

Context `{Env} (Rs : nat -> RangeOrder) (noHelp : bool) (params : list Param).
Context (flag : string) (p : Param).
Hypothesis Hsep : noSeparator params.
Hypothesis Hflag : cliParams params !! flag = Some p.
Hypothesis Hvalue : IsBool p = false.

(** The values of arguments that end with a value for [flag]. *)
Lemma parseOf_ends_with (args1 tail : list string) (pvs1 pvs : list ParamValue)
    (v : string) :
  tail = [flag +:+ cliValSep +:+ v] \/ tail = [flag; v] ->
  parseOf Rs noHelp params args1 = Parsed pvs1 ->
  parseOf Rs noHelp params (args1 ++ tail) = Parsed pvs ->
  pvs = pvs1 ++ [mkParamValue p (fuzzyParse p v)].
Proof.
  intros Htail H1 Hall. apply parseOf_Parsed in Hall.
  rewrite (parseOf_app Rs noHelp params args1 tail pvs1 H1) in Hall.
  destruct Htail as [-> | ->]; simpl in Hall.
  - rewrite (parseArg_value_equals _ params flag p) in Hall by done.
    simpl in Hall. by injection Hall as <-.
  - rewrite (parseArg_flag_waits _ params flag p) in Hall by done.
    rewrite parseArg_value_taken in Hall by done.
    simpl in Hall. by injection Hall as <-.
Qed.

End CommandLine.

(** X17.  The last occurrence on the command line wins.  Let the declared
    targets be pairwise distinct, no flag contain the value separator, and
    [p], not a bool, be the Param of [flag].  When the arguments end with
    [flag=v] or with [flag v], after arguments that parse into values, and
    [populate] from the command line returns no error, the target of [p]
    holds what [v], as [fuzzyParse] renders it, decodes to against what
    the target held before, whatever the earlier arguments gave for it. *)
Theorem cli_last_occurrence_wins `{Env} (R1 R2 : RangeOrder)
    (Rs : nat -> RangeOrder) (noHelp : bool) (params : list Param)
    (flag : string) (p : Param) (args1 tail : list string)
    (pvs1 : list ParamValue) (v : string) (store store' : Store) :
  NoDup (Into <$> params) ->
  noSeparator params ->
  cliParams params !! flag = Some p ->
  IsBool p = false ->
  tail = [flag +:+ cliValSep +:+ v] \/ tail = [flag; v] ->
  parseOf Rs noHelp params args1 = Parsed pvs1 ->
  populate R1 R2 params
           (Some (cliSource Rs [] (mkSourceCLI (Some (args1 ++ tail)) noHelp)))
           store
  = (Returned None, store') ->
  json_Unmarshal (fuzzyParse p v) (store (Into p)) = (store' (Into p), None).
Proof.
  intros Hnd Hsep Hflag Hvalue Htail H1 Hpop.
  destruct (populate_Returned_None _ _ _ _ _ _ Hpop)
    as (pM & pvs & Hm & Hsrc & _ & Hrun).
  simpl in Hsrc. unfold cliSource in Hsrc.
  rewrite (parseOf_ends_with Rs noHelp params flag p Hsep Hflag Hvalue
             args1 tail pvs1 pvs v Htail H1 Hsrc) in Hrun.
  apply cliParams_Some in Hflag as [Hp _].
  assert (pM !! hashOf p = Some p) as HpM by (by apply (hashParams_entry params)).
  set (pv := mkParamValue p (fuzzyParse p v)) in *.
  change (fuzzyParse p v) with (Value pv).
  eapply (unmarshalAll_decoded _ _ _ _ (dedupe_separate R2 _ _ _ Hm Hnd) Hrun);
    [|exact HpM].
  apply elem_of_range. rewrite dedupe_lookup.
  destruct (decide (is_Some (pM !! hashOf p))) as [_|Hno];
    [|exfalso; apply Hno; by rewrite HpM].
  rewrite list.filter_app, filter_cons_True by done.
  rewrite filter_nil. apply last_snoc.
Qed.

Lemma cli_last_occurrence_wins_witness :
  @json_Unmarshal sampleEnv (@fuzzyParse sampleEnv pFoo "12") (testStore (Into pFoo))
  = ((@populate sampleEnv ascending descending testParams
        (Some (@cliSource sampleEnv (fun _ => ascending) []
                 (mkSourceCLI (Some (["--baz2=x"; "--baz3=y"; "--foo=1"]
                                     ++ ["--foo=12"])) false)))
        testStore).2 (Into pFoo), None).
Proof.
  apply (@cli_last_occurrence_wins sampleEnv ascending descending
           (fun _ => ascending) false testParams "--foo" pFoo
           ["--baz2=x"; "--baz3=y"; "--foo=1"] ["--foo=12"]
           [mkParamValue pBaz2 (quoted "x"); mkParamValue pBaz3 (quoted "y");
            mkParamValue pFoo "1"] "12" testStore).
  - apply testParams_targets.
  - apply noSeparator_Forall. repeat constructor.
  - vm_compute. reflexivity.
  - reflexivity.
  - left. reflexivity.
  - vm_compute. reflexivity.
  - rewrite (surjective_pairing (populate _ _ _ _ _)) at 1.
    f_equal; vm_compute; reflexivity.
Defined.

(** * mlog *)

(** ** Truncate *)

Lemma string_length_substring (n : nat) (s : string) :
  (n <= String.length s)%nat -> String.length (substring 0 n s) = n.
Proof.
  revert s. induction n as [|n IH]; intros [|c s]; simpl; try done; try lia.
  intros Hn. rewrite IH; lia.
Qed.

(** ** Maps of keys and values *)

Section FoldInsert.

Context {V : Type} (f : string -> string).
Hypothesis f_inj : forall a b, f a = f b -> a = b.

(** Writing the entries of a list without repeated keys into a map, each
    under the image of its key. *)
Lemma foldl_insert_lookup (l : list (string * V)) (m0 : gmap string V)
    (k : string) (v : V) :
  NoDup l.*1 ->
  foldl (fun m e => <[f e.1 := e.2]> m) m0 l !! k = Some v <->
  (exists k0, k = f k0 /\ (k0, v) ∈ l)
  \/ ((forall k0, k0 ∈ l.*1 -> k ≠ f k0) /\ m0 !! k = Some v).
Proof.
  revert m0. induction l as [|[k1 v1] l IH]; intros m0 Hnd; simpl.
  - split.
    + intros Hm. right. split; [|done]. intros k0 Hk0. by apply elem_of_nil in Hk0.
    + intros [(k0 & _ & Hin)|[_ Hm]]; [by apply elem_of_nil in Hin | done].
  - apply list.NoDup_cons in Hnd as [Hk1 Hnd]. rewrite (IH _ Hnd). split.
    + intros [(k0 & -> & Hin)|[Hfresh Hm]].
      * left. exists k0. split; [done | by right].
      * destruct (decide (k = f k1)) as [->|Hne].
        -- rewrite lookup_insert_eq in Hm. injection Hm as <-.
           left. exists k1. split; [done | left].
        -- rewrite lookup_insert_ne in Hm by done. right. split; [|done].
           intros k0 Hk0. apply elem_of_cons in Hk0 as [->|Hk0]; [done | by apply Hfresh].
    + intros [(k0 & -> & Hin)|[Hfresh Hm]].
      * apply elem_of_cons in Hin as [[= -> ->]|Hin].
        -- right. split; [|by rewrite lookup_insert_eq].
           intros k0 Hk0 Heq. apply f_inj in Heq as <-. done.
        -- left. by exists k0.
      * right. split; [intros k0 Hk0; apply Hfresh; by right |].
        rewrite lookup_insert_ne; [done |].
        intros Heq. apply (Hfresh k1); [left | done].
Qed.

End FoldInsert.

Lemma option_eq_Some {A} (a b : option A) :
  (forall v, a = Some v <-> b = Some v) -> a = b.
Proof.
  intros Hiff. destruct a as [x|].
  - symmetry. by apply Hiff.
  - destruct b as [y|]; [|done]. by apply Hiff.
Qed.

Lemma NoDup_range_keys {A} (R : RangeOrder) (m : gmap string A) : NoDup (range R m).*1.
Proof. rewrite (range_perm R). apply NoDup_fst_map_to_list. Qed.

Lemma setAll_range (R : RangeOrder) (m kvm : gmap string GoValue) :
  Mlog.setAll (range R m) kvm = m ∪ kvm.
Proof.
  apply map_eq. intros k. apply option_eq_Some. intros v.
  unfold Mlog.setAll.
  rewrite (foldl_insert_lookup (fun k => k)) by (done || apply NoDup_range_keys).
  rewrite lookup_union_Some_raw. split.
  - intros [(k0 & -> & Hin)|[Hfresh Hm]].
    + left. by apply elem_of_range in Hin.
    + right. split; [|done].
      destruct (m !! k) as [x|] eqn:Hx; [|done].
      exfalso. apply (Hfresh k); [|done].
      apply list_elem_of_fmap. exists (k, x). split; [done | by apply elem_of_range].
  - intros [Hm|[Hnone Hkvm]].
    + left. exists k. split; [done | by apply elem_of_range].
    + right. split; [|done].
      intros k0 Hk0 ->. apply list_elem_of_fmap in Hk0 as ([k1 x] & -> & Hin).
      apply elem_of_range in Hin. simpl in Hnone. congruence.
Qed.

Lemma setAll_rangeOf (R : RangeOrder) (m : option (gmap string GoValue))
    (kvm : gmap string GoValue) :
  Mlog.setAll (Mlog.rangeOf R m) kvm = default ∅ m ∪ kvm.
Proof.
  destruct m as [m|]; simpl; [apply setAll_range |].
  by rewrite (left_id ∅ (∪)).
Qed.

(** [KV.KV] returns the entries of the map, and an empty map for nil. *)
Lemma KV_KV_copy (R : RangeOrder) (kv : option (gmap string GoValue)) :
  Mlog.KV_KV R kv = default ∅ kv.
Proof. unfold Mlog.KV_KV. by rewrite setAll_rangeOf, (right_id ∅ (∪)). Qed.

Lemma readOnlyKVM_kvOf (R : RangeOrder) (kver : option Mlog.KVer) :
  default ∅ (Mlog.readOnlyKVM R kver) = kvOf R kver.
Proof.
  destruct kver as [[kv|base rest|kv prefix]|]; simpl; try done.
  by rewrite KV_KV_copy.
Qed.

Lemma KVer_KV_merger (R : RangeOrder) (base : option Mlog.KVer)
    (rest : list (option Mlog.KVer)) :
  Mlog.KVer_KV R (Mlog.merger base rest) = Mlog.mergeInto R base rest.
Proof.
  unfold Mlog.mergeInto. simpl.
  assert (match base with
          | Some kv => Mlog.KVer_KV R kv
          | None => Mlog.KV_KV R None
          end
          = Mlog.KVer_KV R match base with
                           | Some kv => kv
                           | None => Mlog.KV None
                           end) as -> by (by destruct base).
  generalize (Mlog.KVer_KV R match base with
                             | Some kv => kv
                             | None => Mlog.KV None
                             end).
  induction rest as [|innerKV rest IH]; intros kvm; simpl; [done |].
  by rewrite IH.
Qed.

Lemma KVer_KV_prefix (R : RangeOrder) (kv : option Mlog.KVer) (prefix : string) :
  Mlog.KVer_KV R (Mlog.prefixFunc kv prefix)
  = foldl (fun newKVM e => <[prefix +:+ e.1 := e.2]> newKVM) ∅
          (Mlog.rangeOf R (Mlog.readOnlyKVM R kv)).
Proof. done. Qed.

(** The map of a merger: the maps of [rest], from left to right, laid over
    the map of [base]. *)
Lemma mergeInto_unions (R : RangeOrder) (base : option Mlog.KVer)
    (rest : list (option Mlog.KVer)) :
  Mlog.mergeInto R base rest
  = foldl (fun kvm innerKV => kvOf R innerKV ∪ kvm) ∅ (base :: rest).
Proof.
  unfold Mlog.mergeInto. simpl. rewrite (right_id ∅ (∪)).
  assert (Mlog.KVer_KV R match base with
                         | Some kv => kv
                         | None => Mlog.KV None
                         end = kvOf R base) as ->.
  { destruct base; simpl; [done |]. by rewrite KV_KV_copy. }
  generalize (kvOf R base).
  induction rest as [|innerKV rest IH]; intros kvm; simpl; [done |].
  by rewrite setAll_rangeOf, readOnlyKVM_kvOf, IH.
Qed.

Lemma KVer_nested_ind (P : Mlog.KVer -> Prop) :
  (forall kv, P (Mlog.KV kv)) ->
  (forall base rest,
     (forall b, base = Some b -> P b) ->
     Forall (fun o => forall k, o = Some k -> P k) rest ->
     P (Mlog.merger base rest)) ->
  (forall kv prefix, (forall k, kv = Some k -> P k) -> P (Mlog.prefixFunc kv prefix)) ->
  forall kver, P kver.
Proof.
  intros HKV Hmerger Hprefix. fix IH 1. intros [kv|base rest|kv prefix].
  - apply HKV.
  - apply Hmerger.
    + destruct base as [b0|]; [intros b [= <-]; apply IH | intros b [=]].
    + induction rest as [|o rest IHrest]; constructor; [|exact IHrest].
      destruct o as [k0|]; [intros k [= <-]; apply IH | intros k [=]].
  - apply Hprefix.
    destruct kv as [k0|]; [intros k [= <-]; apply IH | intros k [=]].
Qed.

Lemma string_app_inj (p a b : string) : p +:+ a = p +:+ b -> a = b.
Proof.
  induction p as [|c p IH]; [done |].
  rewrite !string_app_cons. intros [= Heq]. by apply IH.
Qed.

(** The entries of the map that [Prefix] makes. *)
Lemma prefix_lookup (R : RangeOrder) (kv : option Mlog.KVer) (prefix key : string)
    (v : GoValue) :
  Mlog.KVer_KV R (Mlog.prefixFunc kv prefix) !! key = Some v <->
  exists k, key = prefix +:+ k /\ kvOf R kv !! k = Some v.
Proof.
  rewrite KVer_KV_prefix, <- readOnlyKVM_kvOf.
  destruct (Mlog.readOnlyKVM R kv) as [m|]; simpl.
  - rewrite (foldl_insert_lookup (String.append prefix))
      by (apply string_app_inj || apply NoDup_range_keys).
    rewrite lookup_empty. split.
    + intros [(k0 & -> & Hin)|[_ ?]]; [|done].
      apply elem_of_range in Hin. by exists k0.
    + intros (k & -> & Hk). apply (elem_of_range R) in Hk. left. by exists k.
  - rewrite lookup_empty. split; [done |].
    intros (k & _ & Hk). by rewrite lookup_empty in Hk.
Qed.

Lemma kvOf_order_independent (R R' : RangeOrder) (kver : Mlog.KVer) :
  Mlog.KVer_KV R kver = Mlog.KVer_KV R' kver.
Proof.
  induction kver as [kv|base rest IHbase IHrest|kv prefix IHkv] using KVer_nested_ind.
  - change (Mlog.KV_KV R kv = Mlog.KV_KV R' kv). by rewrite !KV_KV_copy.
  - rewrite !KVer_KV_merger, !mergeInto_unions. simpl.
    assert (kvOf R base = kvOf R' base) as ->.
    { destruct base as [b|]; simpl; [by apply IHbase | done]. }
    generalize (kvOf R' base ∪ (∅ : gmap string GoValue)).
    induction IHrest as [|o rest Ho _ IH]; intros kvm; simpl; [done |].
    assert (kvOf R o = kvOf R' o) as ->.
    { destruct o as [k|]; simpl; [by apply Ho | done]. }
    apply IH.
  - apply map_eq. intros key. apply option_eq_Some. intros v.
    rewrite !prefix_lookup.
    assert (kvOf R kv = kvOf R' kv) as ->; [|done].
    destruct kv as [k|]; simpl; [by apply IHkv | done].
Qed.

(** The entry of a key in maps laid over one another from left to right is
    its entry in the last of them that has one. *)
Lemma unions_lookup (R : RangeOrder) (kvs : list (option Mlog.KVer))
    (k : string) (v : GoValue) :
  foldl (fun kvm innerKV => kvOf R innerKV ∪ kvm) ∅ kvs !! k = Some v <->
  exists i o, kvs !! i = Some o /\ kvOf R o !! k = Some v
    /\ forall j o', (i < j)%nat -> kvs !! j = Some o' -> kvOf R o' !! k = None.
Proof.
  induction kvs as [|x kvs IH] using rev_ind; simpl.
  - rewrite lookup_empty. split; [done |]. by intros (i & o & Hi & _).
  - rewrite foldl_app. simpl. rewrite lookup_union_Some_raw, IH. split.
    + intros [Hx|[Hx (i & o & Hi & Ho & Hlater)]].
      * exists (length kvs), x. split; [by rewrite list_lookup_middle |].
        split; [done |]. intros j o' Hj Ho'.
        apply lookup_lt_Some in Ho'. rewrite length_app in Ho'. simpl in Ho'. lia.
      * exists i, o. split; [by apply lookup_app_l_Some |]. split; [done |].
        intros j o' Hj Ho'.
        destruct (decide (j < length kvs)%nat) as [Hlt|Hge].
        -- rewrite lookup_app_l in Ho' by done. by eapply Hlater.
        -- pose proof (lookup_lt_Some _ _ _ Ho') as Hlen.
           rewrite length_app in Hlen. simpl in Hlen.
           assert (j = length kvs) as -> by lia.
           rewrite list_lookup_middle in Ho' by done. by injection Ho' as <-.
    + intros (i & o & Hi & Ho & Hlater).
      destruct (decide (i < length kvs)%nat) as [Hlt|Hge].
      * right. rewrite lookup_app_l in Hi by done. split.
        -- apply (Hlater (length kvs) x Hlt). by rewrite list_lookup_middle.
        -- exists i, o. split; [done |]. split; [done |].
           intros j o' Hj Ho'. apply (Hlater j o' Hj). by apply lookup_app_l_Some.
      * left. pose proof (lookup_lt_Some _ _ _ Hi) as Hlen.
        rewrite length_app in Hlen. simpl in Hlen.
        assert (i = length kvs) as -> by lia.
        rewrite list_lookup_middle in Hi by done. by injection Hi as ->.
Qed.

Lemma substring_0_app (n : nat) (s : string) :
  (n <= String.length s)%nat -> exists r, s = substring 0 n s +:+ r.
Proof.
  revert s. induction n as [|n IH]; intros s Hn.
  - exists s. by destruct s.
  - destruct s as [|c s]; simpl in Hn; [lia |].
    destruct (IH s) as [r Hr]; [lia |].
    exists r. simpl. rewrite string_app_cons. by f_equal.
Qed.

(** X18.  [Truncate] with a size that is not negative returns a string of
    at most [size+3] bytes: the string itself when it has at most [size]
    bytes, and otherwise its first [size] bytes followed by three dots,
    [size+3] bytes in all.  With a negative size it panics, whatever the
    string. *)
Theorem Truncate_bounds (s : string) (size : Z) :
  ((0 <= size)%Z ->
   exists t, Mlog.Truncate s size = Some t
     /\ (Z.of_nat (String.length t) <= size + 3)%Z
     /\ ((Z.of_nat (String.length s) <= size)%Z -> t = s)
     /\ ((size < Z.of_nat (String.length s))%Z ->
         exists p r, s = p +:+ r /\ t = p +:+ "..."
           /\ Z.of_nat (String.length p) = size
           /\ Z.of_nat (String.length t) = (size + 3)%Z))
  /\ ((size < 0)%Z -> Mlog.Truncate s size = None).
Proof.
  unfold Mlog.Truncate. split.
  - intros Hsize. destruct (Z.leb_spec (Z.of_nat (String.length s)) size) as [Hle|Hgt].
    + exists s. split; [done |]. split; [lia |]. split; [done | lia].
    + destruct (Z.ltb_spec size 0) as [|_]; [lia |].
      assert (String.length (substring 0 (Z.to_nat size) s) = Z.to_nat size) as Hlen
        by (apply string_length_substring; lia).
      eexists. split; [done |].
      rewrite string_length_app, Hlen. simpl.
      split; [lia |]. split; [lia |]. intros _.
      destruct (substring_0_app (Z.to_nat size) s) as [r Hr]; [lia |].
      exists (substring 0 (Z.to_nat size) s), r.
      split; [done |]. split; [done |]. rewrite Hlen. lia.
  - intros Hneg.
    destruct (Z.leb_spec (Z.of_nat (String.length s)) size) as [|_]; [lia |].
    by destruct (Z.ltb_spec size 0) as [_|]; [|lia].
Qed.

(** X19.  In the map of [Merge] of a list of KVers, and of [MergeInto] of a
    KVer and a list, a key has the value of the rightmost KVer that has the
    key, and it has a value exactly when some KVer has; a nil KVer counts
    as one without keys. *)
Theorem Merge_rightmost (R : RangeOrder) (kv : option Mlog.KVer)
    (kvs : list (option Mlog.KVer)) (k : string) (v : GoValue) :
  let rightmost (l : list (option Mlog.KVer)) :=
    exists i o, l !! i = Some o /\ kvOf R o !! k = Some v
      /\ forall j o', (i < j)%nat -> l !! j = Some o' -> kvOf R o' !! k = None in
  (Mlog.KVer_KV R (Mlog.Merge kvs) !! k = Some v <-> rightmost kvs)
  /\ (Mlog.KVer_KV R (Mlog.MergeInto kv kvs) !! k = Some v <-> rightmost (kv :: kvs)).
Proof.
  intros rightmost. subst rightmost. cbv beta. split.
  - rewrite <- unions_lookup. destruct kvs as [|kv0 rest].
    + unfold Mlog.Merge. by rewrite KVer_KV_merger, mergeInto_unions.
    + unfold Mlog.Merge. by rewrite KVer_KV_merger, mergeInto_unions.
  - rewrite <- unions_lookup. unfold Mlog.MergeInto.
    by rewrite KVer_KV_merger, mergeInto_unions.
Qed.

(** X20.  The map a KVer of the package returns does not depend on the
    order in which the [range] loops of [KV.KV], [mergeInto] and [Prefix]
    walk their maps. *)
Theorem KVer_KV_order_independent (R R' : RangeOrder) (kver : Mlog.KVer) :
  Mlog.KVer_KV R kver = Mlog.KVer_KV R' kver.
Proof. apply kvOf_order_independent. Qed.

(** X21.  The map of [Prefix] has, under the prefix followed by a key, the
    value the given KVer has under that key, and nothing else: a key that
    does not start with the prefix has no value, and the map is empty for
    a nil KVer. *)
Theorem Prefix_keys (R : RangeOrder) (kv : option Mlog.KVer) (prefix : string) :
  (forall k, Mlog.KVer_KV R (Mlog.Prefix kv prefix) !! (prefix +:+ k) = kvOf R kv !! k)
  /\ (forall key, strings_HasPrefix key prefix = false ->
        Mlog.KVer_KV R (Mlog.Prefix kv prefix) !! key = None)
  /\ (kv = None -> Mlog.KVer_KV R (Mlog.Prefix kv prefix) = ∅).
Proof.
  unfold Mlog.Prefix. split; [|split].
  - intros k. apply option_eq_Some. intros v. rewrite prefix_lookup. split.
    + intros (k' & Heq & Hk'). by apply string_app_inj in Heq as ->.
    + intros Hk. by exists k.
  - intros key Hpre.
    destruct (Mlog.KVer_KV R (Mlog.prefixFunc kv prefix) !! key) as [v|] eqn:Hv;
      [|done].
    apply prefix_lookup in Hv as (k & -> & _).
    unfold strings_HasPrefix in Hpre.
    assert (String.prefix prefix (prefix +:+ k) = true) as Htrue
      by (apply prefix_app; eauto).
    congruence.
  - intros ->. apply map_eq. intros key. apply option_eq_Some. intros v.
    rewrite prefix_lookup, lookup_empty. split; [|done].
    intros (k & _ & Hk). simpl in Hk. by rewrite lookup_empty in Hk.
Qed.

(** ** stringSlice and DefaultFormat *)

Lemma foldl_snoc_fmap {A B} (g : A -> B) (l : list A) (acc : list B) :
  foldl (fun acc e => acc ++ [g e]) acc l = acc ++ (g <$> l).
Proof.
  revert acc. induction l as [|x l IH]; intros acc; simpl.
  - by rewrite app_nil_r.
  - by rewrite IH, <- app_assoc.
Qed.

Lemma keyLess_asym {A} (a b : string * A) : keyLess a b = true -> keyLess b a = false.
Proof.
  unfold keyLess. intros Hlt. apply str_lt_false. apply str_lt_true in Hlt.
  destruct (total String.le a.1 b.1); [done | contradiction].
Qed.

Lemma keyLess_trans {A} (a b c : string * A) :
  inOrder keyLess a b -> inOrder keyLess b c -> inOrder keyLess a c.
Proof. unfold inOrder, keyLess. rewrite !str_lt_false. intros. by etrans. Qed.

Section StringSlice.

Context `{Fmt} (R : RangeOrder) (kv : option (gmap string GoValue)).

Lemma stringSlice_sort :
  Mlog.stringSlice R kv = sort_Slice keyLess (quotedEntry <$> Mlog.rangeOf R kv).
Proof.
  rewrite <- (app_nil_l (quotedEntry <$> _)), <- foldl_snoc_fmap. reflexivity.
Qed.

Lemma stringSlice_perm :
  Mlog.stringSlice R kv ≡ₚ quotedEntry <$> map_to_list (default ∅ kv).
Proof.
  rewrite stringSlice_sort.
  rewrite sort_Slice_perm by (apply keyLess_asym || apply keyLess_trans).
  destruct kv as [m|]; simpl.
  - by rewrite (range_perm R).
  - by rewrite map_to_list_empty.
Qed.

Lemma stringSlice_elem (k q : string) :
  (k, q) ∈ Mlog.stringSlice R kv <->
  exists v, default ∅ kv !! k = Some v /\ q = strconv_QuoteToGraphic (fmt_Sprint v).
Proof.
  rewrite stringSlice_perm, list_elem_of_fmap. split.
  - intros ([k' v] & [= -> ->] & Hin). apply elem_of_map_to_list in Hin. by exists v.
  - intros (v & Hv & ->). exists (k, v). split; [done | by apply elem_of_map_to_list].
Qed.

Lemma stringSlice_keys : NoDup (Mlog.stringSlice R kv).*1.
Proof.
  rewrite stringSlice_perm, <- list_fmap_compose.
  apply (NoDup_fst_map_to_list (default ∅ kv)).
Qed.

Lemma stringSlice_inOrder : StronglySorted (inOrder keyLess) (Mlog.stringSlice R kv).
Proof.
  rewrite stringSlice_sort.
  apply sort_Slice_sorted; [apply keyLess_asym | apply keyLess_trans].
Qed.

End StringSlice.

Lemma sorted_strict {A} (l : list (string * A)) :
  NoDup l.*1 -> StronglySorted (inOrder keyLess) l ->
  StronglySorted (fun a b => str_lt a.1 b.1 = true) l.
Proof.
  intros Hnd Hs. induction Hs as [|a l Hs IH Hall]; [constructor |].
  simpl in Hnd. apply list.NoDup_cons in Hnd as [Ha Hnd].
  constructor; [by apply IH |].
  rewrite List.Forall_forall in Hall |- *. intros b Hb.
  apply str_lt_total; [|by apply Hall].
  intros Heq. apply Ha. rewrite Heq.
  apply list_elem_of_fmap. exists b. split; [done | by apply list_elem_of_In].
Qed.

Lemma stringSlice_any_order `{Fmt} (R R' : RangeOrder)
    (kv : option (gmap string GoValue)) :
  Mlog.stringSlice R kv = Mlog.stringSlice R' kv.
Proof.
  apply (sorting.StronglySorted_unique_strong (inOrder keyLess));
    [|apply stringSlice_inOrder..|by rewrite !stringSlice_perm].
  intros [k q] [k' q'] Ha Hb Hab Hba.
  pose proof (str_lt_tie _ _ Hba Hab) as Hk. simpl in Hk. subst k'.
  apply stringSlice_elem in Ha as (v & Hv & ->).
  apply stringSlice_elem in Hb as (v' & Hv' & ->).
  congruence.
Qed.

(** X22.  [stringSlice] returns one pair for every entry of the map, the
    key with the quoted text of the value, in strictly ascending order of
    the keys, whatever the order in which [range] walks the map. *)
Theorem stringSlice_sorted `{Fmt} (R : RangeOrder) (kv : option (gmap string GoValue)) :
  (forall k q, (k, q) ∈ Mlog.stringSlice R kv <->
     exists v, default ∅ kv !! k = Some v
               /\ q = strconv_QuoteToGraphic (fmt_Sprint v))
  /\ StronglySorted (fun a b => str_lt a.1 b.1 = true) (Mlog.stringSlice R kv)
  /\ length (Mlog.stringSlice R kv) = size (default ∅ kv)
  /\ forall R', Mlog.stringSlice R' kv = Mlog.stringSlice R kv.
Proof.
  split; [apply stringSlice_elem |]. split.
  - apply sorted_strict; [apply stringSlice_keys | apply stringSlice_inOrder].
  - split; [|intros R'; apply stringSlice_any_order].
    rewrite stringSlice_perm, length_fmap. apply length_map_to_list.
Qed.

Lemma write_failed {S B} (w : Mlog.Writer S) (g : B -> string)
    (st : S * option error) (l : list B) :
  is_Some st.2 -> foldl (fun st x => Mlog.write w st (g x)) st l = st.
Proof.
  intros [e He]. induction l as [|x l IH]; simpl; [done |].
  unfold Mlog.write at 2. by rewrite He.
Qed.

(** X23.  What [DefaultFormat] writes and returns does not depend on the
    order in which [range] walks a map.  When the first write fails,
    nothing more is written and its error is returned.  For a message
    whose KVer is nil or has no keys, the header and a newline are all
    that is written. *)
Theorem DefaultFormat_writes `{Fmt} {S} (R : RangeOrder) (w : Mlog.Writer S) (s0 : S)
    (msg : Mlog.Message) :
  (forall R', Mlog.DefaultFormat R' w s0 msg = Mlog.DefaultFormat R w s0 msg)
  /\ (forall s1 e, w s0 (logHeader msg) = (s1, Some e) ->
        Mlog.DefaultFormat R w s0 msg = (s1, Some e))
  /\ (kvOf R (Mlog.msgKVer msg) = ∅ ->
      Mlog.DefaultFormat R w s0 msg
      = Mlog.write w (Mlog.write w (s0, None) (logHeader msg)) newline).
Proof.
  split; [|split].
  - intros R'. unfold Mlog.DefaultFormat.
    destruct (Mlog.msgKVer msg) as [kver|]; [|done].
    rewrite (kvOf_order_independent R' R kver).
    by rewrite (stringSlice_any_order R' R).
  - intros s1 e Hw. unfold Mlog.DefaultFormat.
    change ("~ " +:+ Mlog.level_String (Mlog.Level msg) +:+ " -- "
            +:+ Mlog.Description msg) with (logHeader msg).
    set (st1 := Mlog.write w (s0, None) (logHeader msg)).
    assert (st1 = (s1, Some e)) as -> by exact Hw.
    destruct (Mlog.msgKVer msg) as [kver|]; [|done].
    destruct (0 <? size (Mlog.KVer_KV R kver))%nat; [|done].
    change (Mlog.write w (s1, Some e) " --") with (s1, Some e).
    by rewrite write_failed.
  - intros Hempty. unfold Mlog.DefaultFormat.
    destruct (Mlog.msgKVer msg) as [kver|]; [|done].
    simpl in Hempty. rewrite Hempty, map_size_empty. done.
Qed.

(** ** The older revision of cli.go: printHelp *)

Lemma legacyHelpEntries_perm (R : RangeOrder) (pvM : gmap string Legacy.ParamValue) :
  legacyHelpEntries R pvM ≡ₚ map_to_list pvM.
Proof.
  unfold legacyHelpEntries.
  rewrite sort_Slice_perm by (apply keyLess_asym || apply keyLess_trans).
  apply range_perm.
Qed.

Lemma legacyHelpEntries_inOrder (R : RangeOrder) (pvM : gmap string Legacy.ParamValue) :
  StronglySorted (inOrder keyLess) (legacyHelpEntries R pvM).
Proof. apply sort_Slice_sorted; [apply keyLess_asym | apply keyLess_trans]. Qed.

(** X24.  The help page of the older revision lists every flag of the map
    once, in strictly ascending order of the flags, and what it writes
    does not depend on the order in which [range] walks the map. *)
Theorem legacyPrintHelp_sorted `{Env} `{Reflect} (R : RangeOrder)
    (pvM : gmap string Legacy.ParamValue) (store : Store) :
  (forall e, e ∈ legacyHelpEntries R pvM <-> pvM !! e.1 = Some e.2)
  /\ length (legacyHelpEntries R pvM) = size pvM
  /\ StronglySorted (fun a b => str_lt a.1 b.1 = true) (legacyHelpEntries R pvM)
  /\ forall R', legacyPrintHelp R' pvM store = legacyPrintHelp R pvM store.
Proof.
  split; [|split; [|split]].
  - intros [k v]. rewrite legacyHelpEntries_perm. apply elem_of_map_to_list.
  - rewrite legacyHelpEntries_perm. apply length_map_to_list.
  - apply sorted_strict; [|apply legacyHelpEntries_inOrder].
    rewrite legacyHelpEntries_perm. apply NoDup_fst_map_to_list.
  - intros R'. unfold legacyPrintHelp. f_equal.
    apply (sorting.StronglySorted_unique_strong (inOrder keyLess));
      [|apply legacyHelpEntries_inOrder..|by rewrite !legacyHelpEntries_perm].
    intros [k v] [k' v'] Ha Hb Hab Hba.
    rewrite legacyHelpEntries_perm in Ha, Hb.
    apply elem_of_map_to_list in Ha, Hb.
    pose proof (str_lt_tie _ _ Hba Hab) as Hk. simpl in Hk. subst k'.
    congruence.
Qed.
